(** * Symbolic Fourier Approximation (aeon, [_sfa.py]): a shallow embedding

    The development follows
    [aeon/transformations/collection/dictionary_based/_sfa.py] and
    [aeon/utils/validation/__init__.py] (for [check_n_jobs]).

    - Python integers are [Z]; values typed [int64] by numba or numpy are
      kept in [Z] and wrapped explicitly with [wrap64].
    - Floating point values live in a carrier [F] with the operations of the
      class [Float64].  Two instances are given: IEEE binary64 itself
      (primitive floats, used to run the code on concrete inputs, with
      infinities, NaN and [sys.float_info.max]) and exact rational
      arithmetic (used where a proof needs the laws of an ordered field).
    - [math.sqrt], [math.cos], [math.sin], [math.pi] and the estimators of
      scikit-learn are parameters of the sections that use them.
    - Exceptions are the [Raise] results of the [result] monad.
    - A bag (a Python [dict]) is a [gmap] from keys to counts. *)

From Stdlib Require Import ZArith QArith Qround Lia Lqa.
From Stdlib Require Import Floats.PrimFloat Floats.SpecFloat Floats.FloatOps.
From Stdlib Require Floats.FloatAxioms.
From Stdlib Require Import Numbers.Cyclic.Int63.Uint63.
From stdpp Require Import base option list strings gmap.

Local Open Scope Z_scope.

(** ** Exceptions *)

Inductive error : Set :=
| ValueError
| TypeError
| ZeroDivisionError
| IndexError.

#[global] Instance error_eq_dec : EqDecision error.
Proof. solve_decision. Defined.

Inductive result (A : Type) : Type :=
| Ok (a : A)
| Raise (e : error).
Arguments Ok {A} a.
Arguments Raise {A} e.

#[global] Instance result_ret : MRet result := fun A a => Ok a.
#[global] Instance result_bind : MBind result := fun A B k m =>
  match m with
  | Ok a => k a
  | Raise e => Raise e
  end.

Definition of_option {A : Type} (e : error) (o : option A) : result A :=
  match o with
  | Some a => Ok a
  | None => Raise e
  end.

Definition is_ok {A : Type} (r : result A) : bool :=
  match r with Ok _ => true | Raise _ => false end.

(** [rmap f l]: run [f] on every element, left to right, stopping at the
    first exception. *)
Fixpoint rmap {A B : Type} (f : A → result B) (l : list A) : result (list B) :=
  match l with
  | [] => Ok []
  | a :: l' => b ← f a; bs ← rmap f l'; Ok (b :: bs)
  end.

(** ** Python and numpy helpers on integers *)

(** [range(n)] as a list of integers. *)
Definition range (n : Z) : list Z := Z.of_nat <$> seq 0 (Z.to_nat n).

(** [range(a, b)]. *)
Definition range2 (a b : Z) : list Z := (fun i => a + Z.of_nat i) <$> seq 0 (Z.to_nat (b - a)).

(** Two's complement wrap-around of a 64 bit signed integer. *)
Definition wrap64 (z : Z) : Z := (z + 2 ^ 63) mod 2 ^ 64 - 2 ^ 63.

(** [int(a / b)] for Python integers [a] and [b]: true division followed by
    truncation towards zero.  The quotient of two integers below [2^53] is
    correctly rounded, so the truncation agrees with [Z.quot]. *)
Definition int_div (a b : Z) : result Z :=
  if decide (b = 0) then Raise ZeroDivisionError else Ok (Z.quot a b).

(** [math.ceil(a / b)] for Python integers. *)
Definition ceil_div (a b : Z) : result Z :=
  if decide (b = 0) then Raise ZeroDivisionError else Ok (- ((- a) / b)).

(** [math.ceil(math.log2(n))] and [int(np.log2(n))] on a positive integer
    ([math.log2] raises on [n ≤ 0]). *)
Definition ceil_log2 (n : Z) : result Z :=
  if decide (n ≤ 0) then Raise ValueError else Ok (Z.log2_up n).
Definition floor_log2 (n : Z) : Z := Z.log2 n.

(** Indexing a Python list or a numpy array with a non-negative index. *)
Definition index {A : Type} (l : list A) (i : Z) : result A :=
  if decide (i < 0) then Raise IndexError
  else of_option IndexError (l !! Z.to_nat i).

(** [l[a:b]] with the clipping of Python slices; negative bounds count from
    the end. *)
Definition slice_bound (len i : Z) : Z :=
  if decide (i < 0) then Z.max 0 (len + i) else Z.min len i.
Definition py_slice {A : Type} (l : list A) (a b : Z) : list A :=
  let len := Z.of_nat (length l) in
  let a' := slice_bound len a in
  let b' := slice_bound len b in
  take (Z.to_nat (b' - a')) (drop (Z.to_nat a') l).

(** [l[start::2]]. *)
Fixpoint every_other {A : Type} (l : list A) : list A :=
  match l with
  | [] => []
  | [a] => [a]
  | a :: _ :: l' => a :: every_other l'
  end.

(** ** Floating point numbers *)

(** The operations the module uses on binary64 values. *)
Class Float64 (F : Type) := {
  of_int : Z → F;                 (* conversion of an integer *)
  fadd : F → F → F;
  fsub : F → F → F;
  fmul : F → F → F;
  fdiv : F → F → F;               (* numpy division: no exception *)
  fleb : F → F → bool;            (* [<=] *)
  fltb : F → F → bool;            (* [<]  *)
  feqb : F → F → bool;            (* [==] *)
  f_int : F → option Z;           (* [int(x)]: truncation towards zero *)
  fopp : F → F;                   (* unary minus *)
  f_round : F → option Z;         (* [round(x)]: nearest, ties to even *)
  float_max : F;                  (* [sys.float_info.max] *)
  tiny : F                        (* the literal [1e-8] *)
}.

Definition fsum {F} `{Float64 F} (l : list F) : F := foldl fadd (of_int 0) l.

(** *** Binary64 *)

Module B64.
Local Open Scope float_scope.

(** Value of a finite float as [m * 2^e] with a sign. *)
Definition decode (x : float) : option (bool * Z * Z) :=
  match Prim2SF x with
  | S754_zero s => Some (s, 0%Z, 0%Z)
  | S754_finite s m e => Some (s, Zpos m, e)
  | _ => None
  end.

Definition trunc (x : float) : option Z :=
  sme ← decode x;
  let '(s, m, e) := sme in
  let a := if (0 <=? e)%Z then (m * 2 ^ e)%Z else (m / 2 ^ (- e))%Z in
  Some (if (s : bool) then (- a)%Z else a).

Definition round_even (x : float) : option Z :=
  sme ← decode x;
  let '(s, m, e) := sme in
  let a :=
    if (0 <=? e)%Z then (m * 2 ^ e)%Z
    else
      let d := (2 ^ (- e))%Z in
      let q := (m / d)%Z in
      let r := (m mod d)%Z in
      match (2 * r ?= d)%Z with
      | Lt => q
      | Gt => (q + 1)%Z
      | Eq => if Z.even q then q else (q + 1)%Z
      end in
  Some (if (s : bool) then (- a)%Z else a).

(** The nearest float of an integer. *)
Definition of_Z (z : Z) : float :=
  SF2Prim (binary_normalize prec emax z 0 false).

Definition max : float := 0x1.fffffffffffffp+1023.
Definition e8 : float := 0x1.5798ee2308c3ap-27.   (* 1e-8 *)

#[global] Instance ops : Float64 float := {|
  of_int := of_Z;
  fadd := PrimFloat.add;
  fsub := PrimFloat.sub;
  fmul := PrimFloat.mul;
  fdiv := PrimFloat.div;
  fleb := PrimFloat.leb;
  fltb := PrimFloat.ltb;
  feqb := PrimFloat.eqb;
  f_int := trunc;
  fopp := PrimFloat.opp;
  f_round := round_even;
  float_max := max;
  tiny := e8
|}.
End B64.

(** *** Exact rational arithmetic *)

Module Rat.
Definition trunc (q : Q) : option Z := Some (Z.quot (Qnum q) (Zpos (Qden q))).

Definition round_even (q : Q) : option Z :=
  let f := Qfloor q in
  let r := Qminus q (inject_Z f) in
  Some match Qcompare r (1 # 2) with
       | Lt => f
       | Gt => f + 1
       | Eq => if Z.even f then f else f + 1
       end.

Definition max : Q := inject_Z (2 ^ 1024 - 2 ^ 971).

#[global] Instance ops : Float64 Q := {|
  of_int := inject_Z;
  fadd := Qplus;
  fsub := Qminus;
  fmul := Qmult;
  fdiv := Qdiv;
  fleb := Qle_bool;
  fltb := fun x y => negb (Qle_bool y x);
  feqb := Qeq_bool;
  f_int := trunc;
  fopp := Qopp;
  f_round := round_even;
  float_max := max;
  tiny := (1 # 100000000)%Q
|}.
End Rat.

(** *** The mathematical library

    [math.sqrt], [math.cos], [math.sin] and [math.pi].  Statements that do
    not depend on their values are proved for every instance. *)
Class Libm (F : Type) := {
  fsqrt : F → F;
  fcos : F → F;
  fsin : F → F;
  fpi : F
}.

(** ** Fourier transforms *)

Section Fourier.
Context {F : Type} `{Float64 F} `{Libm F}.

Definition fzero : F := of_int 0.
Definition fone : F := of_int 1.

(** [np.sum], [np.mean] and [np.std] of a vector (summed left to right). *)
Definition np_sum (xs : list F) : F := foldl fadd fzero xs.
Definition np_mean (xs : list F) : F :=
  fdiv (np_sum xs) (of_int (Z.of_nat (length xs))).
Definition np_std (xs : list F) : F :=
  let m := np_mean xs in
  fsqrt (np_mean ((fun x => fmul (fsub x m) (fsub x m)) <$> xs)).

(** [a[1::2] = a[1::2] * -1] on an interleaved vector. *)
Fixpoint flip_odd (a : list F) : list F :=
  match a with
  | re :: im :: a' => re :: fmul im (of_int (-1)) :: flip_odd a'
  | _ => a
  end.

(** [lhs[...] = rhs] where the left-hand side has [n] slots: numpy accepts
    a right-hand side of the same length or of length one. *)
Definition assign (n : nat) (rhs : list F) : result (list F) :=
  if decide (length rhs = n) then Ok rhs
  else match rhs with
       | [x] => Ok (replicate n x)
       | _ => Raise ValueError
       end.

(** Vector with [a[0::2] = evens] and [a[1::2] = odds]. *)
Fixpoint interleave (evens odds : list F) : list F :=
  match evens, odds with
  | e :: evens', o :: odds' => e :: o :: interleave evens' odds'
  | _, _ => evens
  end.

(** The angle [2 * math.pi * n * i / len]. *)
Definition angle (n i len : Z) : F :=
  fdiv (fmul (fmul (fmul (of_int 2) fpi) (of_int n)) (of_int i)) (of_int len).

(** One coefficient pair of the direct transform: the inner loop over
    [n] of [_discrete_fourier_transform]. *)
Definition dft_pair (series : list F) (i : Z) : F * F :=
  let len := Z.of_nat (length series) in
  foldl (fun '(re, im) '(n, x) =>
           (fadd re (fmul x (fcos (angle n i len))),
            fadd im (fmul (fopp x) (fsin (angle n i len)))))
        (fzero, fzero)
        (zip (range len) series).

Definition flatten_pairs (ps : list (F * F)) : list F :=
  ps ≫= (fun '(re, im) => [re; im]).

(** [np.zeros(n)] on a possibly negative size. *)
Definition np_zeros (n : Z) : result (list F) :=
  if decide (n < 0) then Raise ValueError else Ok (replicate (Z.to_nat n) fzero).

Definition _discrete_fourier_transform
    (series : list F) (dft_length : Z) (norm : bool)
    (inverse_sqrt_win_size : F) (lower_bounding : bool)
    (apply_normalising_factor cut_start_if_norm : bool) : result (list F) :=
  let start := if norm then 2 else 0 in
  let output_length := start + dft_length in
  let c := if cut_start_if_norm then Z.quot start 2 else 0 in
  let start := if cut_start_if_norm then start else 0 in
  zeros ← np_zeros (output_length - start);
  let pairs := flatten_pairs (dft_pair series <$> range2 c (Z.quot output_length 2)) in
  let dft := pairs ++ drop (length pairs) zeros in
  if apply_normalising_factor then
    let dft := if lower_bounding then flip_odd dft else dft in
    let std := np_std series in
    let std := if feqb std fzero then fone else std in
    Ok ((fun x => fmul x (fdiv inverse_sqrt_win_size std)) <$> dft)
  else Ok dft.

(** [np.fft.rfft]: the first [n // 2 + 1] terms of the transform, given
    here by their defining sums. *)
Definition np_fft_rfft (series : list F) : result (list (F * F)) :=
  match series with
  | [] => Raise ValueError
  | _ => Ok (dft_pair series <$> range (Z.of_nat (length series) / 2 + 1))
  end.

(** The seed of a transform from [np.fft.rfft]: an array of [length_]
    values whose even and odd slots are filled from the first
    [length_ / 2] real and imaginary parts. *)
Definition rfft_seed (series : list F) (length_ : Z) : result (list F) :=
  X_fft ← np_fft_rfft series;
  _ ← np_zeros length_;
  let k := Z.to_nat (Z.quot length_ 2) in
  evens ← assign (Z.to_nat (length_ - Z.quot length_ 2)) (take k (fst <$> X_fft));
  odds ← assign k (take k (snd <$> X_fft));
  Ok (interleave evens odds).

Definition _get_phis (window_size length_ : Z) : result (list F) :=
  _ ← np_zeros length_;
  if decide (window_size = 0) then
    (if decide (0 < Z.quot length_ 2) then Raise ZeroDivisionError
     else Ok (replicate (Z.to_nat length_) fzero))
  else
    let pairs := flatten_pairs
      ((fun i =>
          let a := fdiv (fmul (fmul (of_int 2) fpi) (of_int (- i))) (of_int window_size) in
          (fadd fzero (fcos a), fadd fzero (fopp (fsin a))))
         <$> range (Z.quot length_ 2)) in
    Ok (pairs ++ replicate (Z.to_nat length_ - length pairs)%nat fzero).

(** The floor applied to a window's standard deviation by the
    incremental statistics and by [_fast_fourier_transform]. *)
Definition floor_std (buf : F) : F := if fltb tiny buf then buf else fone.

Definition _calc_incremental_mean_std
    (series : list F) (end_ window_size : Z) : result (list F) :=
  if decide (window_size ≤ 0) then
    Raise (if decide (window_size = 0) then ZeroDivisionError else ValueError)
  else
    let window := py_slice series 0 window_size in
    let series_sum := np_sum window in
    let square_sum := np_sum ((fun x => fmul x x) <$> window) in
    let r_window_length := fdiv fone (of_int window_size) in
    let mean := fmul series_sum r_window_length in
    let buf := fsqrt (fsub (fmul square_sum r_window_length) (fmul mean mean)) in
    '(_, _, stds) ←
      foldl (fun acc w =>
               '(series_sum, square_sum, stds) ← acc;
               x_in ← index series (w + window_size - 1);
               x_out ← index series (w - 1);
               let series_sum := fadd series_sum (fsub x_in x_out) in
               let mean := fmul series_sum r_window_length in
               let square_sum :=
                 fadd square_sum (fsub (fmul x_in x_in) (fmul x_out x_out)) in
               let buf :=
                 fsqrt (fsub (fmul square_sum r_window_length) (fmul mean mean)) in
               Ok (series_sum, square_sum, stds ++ [floor_std buf]))
            (Ok (series_sum, square_sum, [floor_std buf]))
            (range2 1 end_);
    Ok stds.

(** One step of [_iterate_mft] on the running coefficients: every pair is
    shifted by the entering and leaving samples and rotated by [phis]. *)
Fixpoint mft_rotate (mft_data phis : list F) (x_in x_out : F) : result (list F) :=
  match mft_data, phis with
  | [], _ => Ok []
  | re :: im :: mft_data', p0 :: p1 :: phis' =>
      let real := fsub (fadd re x_in) x_out in
      let imag := im in
      rest ← mft_rotate mft_data' phis' x_in x_out;
      Ok (fsub (fmul real p0) (fmul imag p1)
            :: fadd (fmul real p1) (fmul p0 imag) :: rest)
  | _, _ => Raise IndexError
  end.

Definition _iterate_mft
    (series mft_data phis : list F) (window_size : Z) (stds : list F)
    (first_row : list F) (rows : Z) (inverse_sqrt_win_size : F)
    : result (list (list F)) :=
  '(_, transformed) ←
    foldl (fun acc i =>
             '(mft_data, transformed) ← acc;
             x_in ← index series (i + window_size - 1);
             x_out ← index series (i - 1);
             mft_data ← mft_rotate mft_data phis x_in x_out;
             std ← index stds i;
             let normalising_factor := fdiv inverse_sqrt_win_size std in
             row ← assign (length first_row)
                    ((fun x => fmul x normalising_factor) <$> mft_data);
             Ok (mft_data, transformed ++ [row]))
          (Ok (mft_data, [first_row]))
          (range2 1 rows);
  Ok transformed.
End Fourier.

(** ** The estimator *)

(** The [n_jobs] argument: [None], an integer (a value that [is_int]
    accepts), a value that is no integer and compares equal to [0] (such as
    [0.0] or [False]), or any other value. *)
Inductive py_n_jobs : Set :=
| NJ_None
| NJ_int (n : Z)
| NJ_zero_like
| NJ_other.

#[global] Instance py_n_jobs_eq_dec : EqDecision py_n_jobs.
Proof. solve_decision. Defined.

(** What the process reads from its surroundings: the environment variable
    [NUMBA_DISABLE_JIT] (whether it is ["1"]) and [os.cpu_count()]. *)
Record env : Set := {
  numba_disable_jit : bool;
  cpu_count : Z
}.

(** [aeon.utils.validation.check_n_jobs]: the test [n_jobs == 0] comes
    before the test [is_int(n_jobs)]. *)
Definition check_n_jobs (E : env) (n_jobs : py_n_jobs) : result Z :=
  match n_jobs with
  | NJ_None => Ok 1
  | NJ_int 0 => Ok 1
  | NJ_zero_like => Ok 1
  | NJ_other => Raise ValueError
  | NJ_int n => if decide (n < 0) then Ok (Z.max 1 (cpu_count E + 1 + n)) else Ok n
  end.

Definition binning_methods : list string :=
  ["equi-depth"; "equi-width"; "information-gain"; "information-gain-mae"; "kmeans"]%string.

(** The arguments of the constructor. *)
Record params : Set := {
  word_length : Z;
  alphabet_size : Z;
  window_size : Z;
  norm : bool;
  binning_method : string;
  anova : bool;
  bigrams : bool;
  skip_grams : bool;
  remove_repeat_words : bool;
  levels : Z;
  lower_bounding : bool;
  lower_bounding_distances : option bool;
  save_words : bool;
  keep_binning_dft : bool;
  use_fallback_dft : bool;
  typed_dict : bool;
  n_jobs : py_n_jobs
}.

(** The defaults of [SFA.__init__]. *)
Definition default_params : params := {|
  word_length := 8;
  alphabet_size := 4;
  window_size := 12;
  norm := false;
  binning_method := "equi-depth";
  anova := false;
  bigrams := false;
  skip_grams := false;
  remove_repeat_words := false;
  levels := 1;
  lower_bounding := true;
  lower_bounding_distances := None;
  save_words := false;
  keep_binning_dft := false;
  use_fallback_dft := false;
  typed_dict := false;
  n_jobs := NJ_int 1
|}.

(** The integers computed by [_fit]. *)
Record widths : Set := {
  n_cases : Z;
  n_timepoints : Z;
  letter_bits : Z;
  letter_max : Z;
  word_bits : Z;
  max_bits : Z;
  level_bits : Z;
  level_max : Z
}.

(** A word saved by [transform]: a 64 bit integer or, on the large-word
    path, a Python integer; both are [Z]. *)
Record SFA (F : Type) : Type := {
  cfg :> params;
  fitted :> widths;
  words : list (list Z);
  breakpoints : list (list F);
  dft_length : Z;
  support : list Z;
  inverse_sqrt_win_size : F;
  binning_dft : option (list (list (list F)));
  _use_fallback_dft : bool;
  _typed_dict : bool;
  _n_jobs : Z
}.
Arguments cfg {F} _.
Arguments fitted {F} _.
Arguments words {F} _.
Arguments breakpoints {F} _.
Arguments dft_length {F} _.
Arguments support {F} _.
Arguments inverse_sqrt_win_size {F} _.
Arguments binning_dft {F} _.
Arguments _use_fallback_dft {F} _.
Arguments _typed_dict {F} _.
Arguments _n_jobs {F} _.

Section Setters.
Context {F : Type}.
Implicit Type self : SFA F.

Definition set_cfg self (c : params) : SFA F :=
  {| cfg := c; fitted := fitted self; words := words self;
     breakpoints := breakpoints self; dft_length := dft_length self;
     support := support self; inverse_sqrt_win_size := inverse_sqrt_win_size self;
     binning_dft := binning_dft self; _use_fallback_dft := _use_fallback_dft self;
     _typed_dict := _typed_dict self; _n_jobs := _n_jobs self |}.

Definition set_fitted self (w : widths) : SFA F :=
  {| cfg := cfg self; fitted := w; words := words self;
     breakpoints := breakpoints self; dft_length := dft_length self;
     support := support self; inverse_sqrt_win_size := inverse_sqrt_win_size self;
     binning_dft := binning_dft self; _use_fallback_dft := _use_fallback_dft self;
     _typed_dict := _typed_dict self; _n_jobs := _n_jobs self |}.

Definition set_words self (ws : list (list Z)) : SFA F :=
  {| cfg := cfg self; fitted := fitted self; words := ws;
     breakpoints := breakpoints self; dft_length := dft_length self;
     support := support self; inverse_sqrt_win_size := inverse_sqrt_win_size self;
     binning_dft := binning_dft self; _use_fallback_dft := _use_fallback_dft self;
     _typed_dict := _typed_dict self; _n_jobs := _n_jobs self |}.

Definition set_breakpoints self (bps : list (list F)) : SFA F :=
  {| cfg := cfg self; fitted := fitted self; words := words self;
     breakpoints := bps; dft_length := dft_length self;
     support := support self; inverse_sqrt_win_size := inverse_sqrt_win_size self;
     binning_dft := binning_dft self; _use_fallback_dft := _use_fallback_dft self;
     _typed_dict := _typed_dict self; _n_jobs := _n_jobs self |}.

Definition set_support self (sup : list Z) (len : Z) : SFA F :=
  {| cfg := cfg self; fitted := fitted self; words := words self;
     breakpoints := breakpoints self; dft_length := len;
     support := sup; inverse_sqrt_win_size := inverse_sqrt_win_size self;
     binning_dft := binning_dft self; _use_fallback_dft := _use_fallback_dft self;
     _typed_dict := _typed_dict self; _n_jobs := _n_jobs self |}.

Definition set_binning_dft self (d : list (list (list F))) : SFA F :=
  {| cfg := cfg self; fitted := fitted self; words := words self;
     breakpoints := breakpoints self; dft_length := dft_length self;
     support := support self; inverse_sqrt_win_size := inverse_sqrt_win_size self;
     binning_dft := Some d; _use_fallback_dft := _use_fallback_dft self;
     _typed_dict := _typed_dict self; _n_jobs := _n_jobs self |}.

Definition set__n_jobs self (n : Z) : SFA F :=
  {| cfg := cfg self; fitted := fitted self; words := words self;
     breakpoints := breakpoints self; dft_length := dft_length self;
     support := support self; inverse_sqrt_win_size := inverse_sqrt_win_size self;
     binning_dft := binning_dft self; _use_fallback_dft := _use_fallback_dft self;
     _typed_dict := _typed_dict self; _n_jobs := n |}.

(** [self.word_length = word_len], as the ensembles built on this
    transformer do after shortening. *)
Definition set_word_length self (word_len : Z) : SFA F :=
  set_cfg self
    {| word_length := word_len; alphabet_size := alphabet_size self;
       window_size := window_size self; norm := norm self;
       binning_method := binning_method self; anova := anova self;
       bigrams := bigrams self; skip_grams := skip_grams self;
       remove_repeat_words := remove_repeat_words self; levels := levels self;
       lower_bounding := lower_bounding self;
       lower_bounding_distances := lower_bounding_distances self;
       save_words := save_words self; keep_binning_dft := keep_binning_dft self;
       use_fallback_dft := use_fallback_dft self; typed_dict := typed_dict self;
       n_jobs := n_jobs self |}.
End Setters.

(** [a or b] on a boolean and an optional boolean, read as a condition. *)
Definition or_opt (a : bool) (b : option bool) : bool := a || default false b.

Section Init.
Context {F : Type} `{Float64 F} `{Libm F}.

(** [1.0 / math.sqrt(window_size)]. *)
Definition inv_sqrt (window_size : Z) : result F :=
  if decide (window_size < 0) then Raise ValueError
  else if decide (window_size = 0) then Raise ZeroDivisionError
  else Ok (fdiv fone (fsqrt (of_int window_size))).

(** The attributes assigned by [SFA.__init__], given the value of
    [inverse_sqrt_win_size]. *)
Definition init_with (E : env) (p : params) (inv : F) : SFA F :=
  let offset := if norm p then 2 else 0 in
  let dft_length := if anova p then window_size p - offset else word_length p in
  let dft_length := dft_length + dft_length `mod` 2 in
  {| cfg := p;
     fitted := {| n_cases := 0; n_timepoints := 0; letter_bits := 0;
                  letter_max := 0; word_bits := 0; max_bits := 0;
                  level_bits := 0; level_max := 0 |};
     words := [];
     breakpoints := [];
     dft_length := dft_length;
     support := range (word_length p);
     inverse_sqrt_win_size := inv;
     binning_dft := None;
     _use_fallback_dft :=
       if decide (word_length p < window_size p - offset)
       then use_fallback_dft p else true;
     _typed_dict := typed_dict p && negb (numba_disable_jit E);
     _n_jobs := 0 |}.

(** [SFA.__init__]. *)
Definition __init__ (E : env) (p : params) : result (SFA F) :=
  inv ← (if negb (lower_bounding p) || default false (lower_bounding_distances p)
         then inv_sqrt (window_size p) else Ok fone);
  Ok (init_with E p inv).
End Init.

(** ** Fourier coefficients of the windows of a series *)

Section Windows.
Context {F : Type} `{Float64 F} `{Libm F}.
Implicit Type self : SFA F.

Definition _fast_fourier_transform self (series : list F) : result (list F) :=
  let start := if norm self then 2 else 0 in
  let s := np_std series in
  let std := floor_std s in
  let length_ := start + dft_length self in
  dft ← rfft_seed series length_;
  let dft := if or_opt (lower_bounding self) (lower_bounding_distances self)
             then flip_odd dft else dft in
  let dft := (fun x => fmul x (fdiv (inverse_sqrt_win_size self) std)) <$> dft in
  Ok (drop (Z.to_nat start) dft).

(** [a[:, self.support]] on one row. *)
Definition select (row : list F) (sup : list Z) : result (list F) :=
  rmap (index row) sup.

Definition _mft self (series : list F) : result (list (list F)) :=
  let start_offset := if norm self then 2 else 0 in
  let length_ := dft_length self + start_offset + dft_length self `mod` 2 in
  let end_ := Z.max 1 (Z.of_nat (length series) - window_size self + 1) in
  phis ← _get_phis (window_size self) length_;
  stds ← _calc_incremental_mean_std series end_ (window_size self);
  zeros ← np_zeros length_;
  mft_data ←
    (if _use_fallback_dft self then
       _discrete_fourier_transform
         (py_slice series 0 (window_size self)) (dft_length self) (norm self)
         (inverse_sqrt_win_size self)
         (or_opt (lower_bounding self) (lower_bounding_distances self))
         false false
     else rfft_seed (py_slice series 0 (window_size self)) length_);
  std0 ← index stds 0;
  first_row ← assign (length zeros)
    ((fun x => fdiv (fmul x (inverse_sqrt_win_size self)) std0) <$> mft_data);
  transformed ← _iterate_mft series mft_data phis (window_size self) stds
                  first_row end_ (inverse_sqrt_win_size self);
  let transformed :=
    if lower_bounding self then flip_odd <$> transformed else transformed in
  let transformed := drop (Z.to_nat start_offset) <$> transformed in
  if anova self then rmap (fun row => select row (support self)) transformed
  else Ok transformed.

(** [SFA.transform_mft]: [zip] pairs the rows of the series window by
    window, and the first of its tuples, the first row of every series,
    becomes the array that is returned. *)
Definition transform_mft self (X : list (list F)) : result (list (list F)) :=
  transform ← rmap (_mft self) X;
  match transform with
  | [] => Raise IndexError
  | _ =>
      words ← rmap (fun rows : list (list F) => index rows 0) transform;
      if forallb (fun row : list F =>
                    bool_decide (length row = length (default [] (head words))))
                 words
      then Ok words else Raise ValueError
  end.

(** The windows of [_binning_dft]: [np.split] at the multiples of the
    window size, the last piece replaced by the tail of the series. *)
Definition binning_windows self (series : list F) (num_windows_per_inst : Z)
    : result (list (list F)) :=
  if decide (num_windows_per_inst - 1 < 0) then Raise ValueError
  else
    let ws := window_size self in
    let split :=
      (fun k => py_slice series (k * ws) ((k + 1) * ws))
        <$> range (num_windows_per_inst - 1) in
    let start := n_timepoints self - ws in
    Ok (split ++ [py_slice series start (n_timepoints self)]).

Definition _binning_dft self (series : list F) (num_windows_per_inst : Z)
    : result (list (list F)) :=
  split ← binning_windows self series num_windows_per_inst;
  _ ← np_zeros (dft_length self);
  rmap (fun row =>
          r ← (if _use_fallback_dft self then
                 _discrete_fourier_transform row (dft_length self) (norm self)
                   (inverse_sqrt_win_size self)
                   (or_opt (lower_bounding self) (lower_bounding_distances self))
                   true true
               else _fast_fourier_transform self row);
          assign (Z.to_nat (dft_length self)) r)
       split.
End Windows.

(** ** Learning the breakpoints *)

(** The estimators of scikit-learn that the binning strategies delegate to.
    Each is taken as it answers: the split thresholds of the internal nodes
    of a fitted tree ([clf.tree_.threshold[clf.tree_.children_left != -1]]),
    the bin edges of a fitted [KBinsDiscretizer], and the order
    [np.argsort(-f)] of the F-scores of [f_classif]. *)
Class Sklearn (F : Type) := {
  classifier_thresholds : Z → Z → list F → list Z → list F;
  regressor_thresholds : Z → Z → list F → list Z → list F;
  bin_edges_ : Z → string → list (list F) → result (list (list F));
  f_classif_order : list (list F) → list Z → list Z
}.

Section Binning.
Context {F : Type} `{Float64 F} `{Libm F} `{Sklearn F}.
Implicit Type self : SFA F.

(** The order of [np.sort]: [<=] with NaN last. *)
Definition is_nan (x : F) : bool := negb (feqb x x).
Definition sort_le (x y : F) : bool := fleb x y || is_nan y.

Fixpoint sort_insert (x : F) (l : list F) : list F :=
  match l with
  | [] => [x]
  | y :: l' => if sort_le x y then x :: l else y :: sort_insert x l'
  end.

(** [np.sort] of a vector. *)
Definition np_sort (l : list F) : list F := foldr sort_insert [] l.

(** [dft[:, i]]. *)
Definition column (dft : list (list F)) (i : Z) : result (list F) :=
  rmap (fun row => index row i) dft.

(** [breakpoints[:, alphabet_size - 1] = sys.float_info.max]. *)
Definition set_last_column (a : Z) (rows : list (list F)) : result (list (list F)) :=
  rmap (fun row =>
          if decide (0 ≤ a - 1 < Z.of_nat (length row))
          then Ok (<[Z.to_nat (a - 1) := float_max]> row)
          else Raise IndexError)
       rows.

(** [breakpoints[letter][bp] = v]. *)
Definition set_entry (row : list F) (bp : Z) (v : F) : result (list F) :=
  if decide (0 ≤ bp < Z.of_nat (length row))
  then Ok (<[Z.to_nat bp := v]> row) else Raise IndexError.

(** [round(x * 100) / 100]. *)
Definition round2 (x : F) : result F :=
  r ← of_option ValueError (f_round (fmul x (of_int 100)));
  Ok (fdiv (of_int r) (of_int 100)).

(** The equi-depth thresholds of one sorted column. *)
Definition equi_depth_row (a total : Z) (col row : list F) : result (list F) :=
  let target_bin_depth := fdiv (of_int total) (of_int a) in
  '(_, row) ←
    foldl (fun acc bp =>
             '(bin_index, row) ← acc;
             let bin_index := fadd bin_index target_bin_depth in
             i ← of_option ValueError (f_int bin_index);
             v ← index col i;
             row ← set_entry row bp v;
             Ok (bin_index, row))
          (Ok (fzero, row)) (range (a - 1));
  Ok row.

(** The equi-width thresholds of one sorted column. *)
Definition equi_width_row (a : Z) (col row : list F) : result (list F) :=
  hi ← of_option IndexError (last col);
  lo ← index col 0;
  let target_bin_width := fdiv (fsub hi lo) (of_int a) in
  foldl (fun acc bp =>
           row ← acc;
           set_entry row bp (fadd (fmul (of_int (bp + 1)) target_bin_width) lo))
        (Ok row) (range (a - 1)).

Definition _mcb self (dft : list (list F)) : result (list (list F)) :=
  num_windows_per_inst ← ceil_div (n_timepoints self) (window_size self);
  let total_num_windows := n_cases self * num_windows_per_inst in
  _ ← np_zeros (word_length self);
  zero_row ← np_zeros (alphabet_size self);
  rows ←
    rmap (fun letter =>
            res ← rmap (fun i => row ← index dft i; x ← index row letter; round2 x)
                       (range total_num_windows);
            let col := np_sort res in
            if String.eqb (binning_method self) "equi-depth" then
              equi_depth_row (alphabet_size self) total_num_windows col zero_row
            else if String.eqb (binning_method self) "equi-width" then
              equi_width_row (alphabet_size self) col zero_row
            else Ok zero_row)
         (range (word_length self));
  set_last_column (alphabet_size self) rows.

(** The rows of [_igb] and [_igb_mae] from the thresholds of a tree. *)
Definition tree_row (a : Z) (threshold zero_row : list F) : result (list F) :=
  row ← foldl (fun acc '(bp, t) => row ← acc; set_entry row bp t)
              (Ok zero_row)
              (zip (range (Z.of_nat (length threshold))) threshold);
  foldl (fun acc bp => row ← acc; set_entry row bp float_max)
        (Ok row) (range2 (Z.of_nat (length threshold)) a).

Definition igb_with (fit_tree : Z → Z → list F → list Z → list F)
    self (dft : list (list F)) (y : list Z) : result (list (list F)) :=
  _ ← np_zeros (word_length self);
  zero_row ← np_zeros (alphabet_size self);
  rows ←
    rmap (fun i =>
            col ← column dft i;
            let threshold :=
              fit_tree (floor_log2 (alphabet_size self)) (alphabet_size self) col y in
            tree_row (alphabet_size self) threshold zero_row)
         (range (word_length self));
  Ok (map np_sort rows).

Definition _igb := igb_with classifier_thresholds.
Definition _igb_mae := igb_with regressor_thresholds.

Definition _k_bins_discretizer self (dft : list (list F)) : result (list (list F)) :=
  breaks ← bin_edges_ (alphabet_size self) (binning_method self) dft;
  _ ← np_zeros (word_length self);
  zero_row ← np_zeros (alphabet_size self);
  rows ←
    rmap (fun letter =>
            edges ← index breaks letter;
            foldl (fun acc bp =>
                     row ← acc;
                     v ← index edges bp;
                     set_entry row (bp - 1) v)
                  (Ok zero_row)
                  (range2 1 (Z.of_nat (length edges) - 1)))
         (range (word_length self));
  set_last_column (alphabet_size self) rows.

(** [dft.var(axis=0)] of one column and [np.isclose(v, 0)]. *)
Definition np_var (col : list F) : F :=
  let m := np_mean col in
  np_mean ((fun x => fmul (fsub x m) (fsub x m)) <$> col).
Definition isclose0 (v : F) : bool :=
  let a := if fltb v fzero then fopp v else v in fleb a tiny.

(** The coefficient selection of [_binning] under [anova]. *)
Definition anova_select self (dft : list (list F)) (y : list Z)
    : result (SFA F * list (list F)) :=
  let width := Z.of_nat (length (default [] (head dft))) in
  cols ← rmap (column dft) (range width);
  let non_constant :=
    (fst <$> filter (fun '(_, c) => negb (isclose0 (np_var c)) = true)
                    (zip (range width) cols)) in
  sup ←
    (if decide (word_length self ≤ Z.of_nat (length non_constant)) then
       sel ← rmap (fun row => select row non_constant) dft;
       order ← rmap (index non_constant) (f_classif_order sel y);
       Ok (take (Z.to_nat (word_length self)) order)
     else Ok (support self));
  dft ← rmap (fun row => select row sup) dft;
  match sup with
  | [] => Raise ValueError
  | s0 :: sup' =>
      let len := foldl Z.max s0 sup' + 1 in
      Ok (set_support self sup (len + len `mod` 2), dft)
  end.

(** [_binning]; the attributes it assigns travel with the result. *)
Definition _binning self (X : list (list F)) (y : option (list Z))
    : SFA F * result (list (list F)) :=
  match ceil_div (n_timepoints self) (window_size self) with
  | Raise e => (self, Raise e)
  | Ok num_windows_per_inst =>
    match rmap (fun i => series ← index X i;
                         _binning_dft self series num_windows_per_inst)
               (range (n_cases self)) with
    | Raise e => (self, Raise e)
    | Ok dft3 =>
      let self := if keep_binning_dft self then set_binning_dft self dft3 else self in
      let dft := concat dft3 in
      let y := (fun l => l ≫= (fun c => replicate (Z.to_nat num_windows_per_inst) c)) <$> y in
      let selected :=
        match y with
        | Some labels =>
            if anova self then anova_select self dft labels else Ok (self, dft)
        | None => Ok (self, dft)
        end in
      match selected with
      | Raise e => (self, Raise e)
      | Ok (self, dft) =>
          (self,
           if String.eqb (binning_method self) "information-gain" then
             _igb self dft (default [] y)
           else if String.eqb (binning_method self) "information-gain-mae" then
             _igb_mae self dft (default [] y)
           else if String.eqb (binning_method self) "kmeans" then
             _k_bins_discretizer self dft
           else _mcb self dft)
      end
    end
  end.

Definition is_member (s : string) (l : list string) : bool :=
  existsb (String.eqb s) l.

(** [_fit]: the estimator after the call, and how the call ended. *)
Definition _fit (E : env) self (X : list (list F)) (y : option (list Z))
    : SFA F * result unit :=
  match check_n_jobs E (n_jobs self) with
  | Raise e => (self, Raise e)
  | Ok nj =>
    let self := set__n_jobs self nj in
    if decide (alphabet_size self < 2) then (self, Raise ValueError)
    else if decide (word_length self < 1) then (self, Raise ValueError)
    else if (String.eqb (binning_method self) "information-gain"
             || String.eqb (binning_method self) "information-gain-mae")
            && negb (bool_decide (is_Some y))
    then (self, Raise ValueError)
    else if negb (is_member (binning_method self) binning_methods)
    then (self, Raise TypeError)
    else
      let lb := Z.log2_up (alphabet_size self) in
      let wb := word_length self * lb in
      let self := set_fitted self
        {| n_cases := n_cases self; n_timepoints := n_timepoints self;
           letter_bits := lb; letter_max := 2 ^ lb - 1; word_bits := wb;
           max_bits := if bigrams self || skip_grams self then wb * 2 else wb;
           level_bits := level_bits self; level_max := level_max self |} in
      if _typed_dict self && bool_decide (64 < max_bits self)
      then (self, Raise ValueError)
      else if _typed_dict self && bool_decide (15 < levels self)
      then (self, Raise ValueError)
      else
        let self :=
          if decide (1 < levels self) then
            let quadrants := foldl (fun q i => q + 2 ^ i) 0 (range (levels self)) in
            let vb := Z.log2_up quadrants in
            set_fitted self
              {| n_cases := n_cases self; n_timepoints := n_timepoints self;
                 letter_bits := letter_bits self; letter_max := letter_max self;
                 word_bits := word_bits self; max_bits := max_bits self;
                 level_bits := vb; level_max := 2 ^ vb - 1 |}
          else self in
        let self := set_fitted self
          {| n_cases := Z.of_nat (length X);
             n_timepoints := Z.of_nat (length (default [] (head X)));
             letter_bits := letter_bits self; letter_max := letter_max self;
             word_bits := word_bits self; max_bits := max_bits self;
             level_bits := level_bits self; level_max := level_max self |} in
        match _binning self X y with
        | (self, Raise e) => (self, Raise e)
        | (self, Ok bps) => (set_breakpoints self bps, Ok tt)
        end
  end.
End Binning.

(** ** Words and bags *)

(** The key of a bag: an integer or, in a typed dictionary with pyramid
    levels, a pair of integers. *)
Inductive key : Set :=
| KInt (w : Z)
| KPair (w q : Z).

#[global] Instance key_eq_dec : EqDecision key.
Proof. solve_decision. Defined.

#[global] Instance key_countable : Countable key :=
  inj_countable'
    (fun k => match k with KInt w => inl w | KPair w q => inr (w, q) end)
    (fun s => match s with inl w => KInt w | inr (w, q) => KPair w q end)
    (fun k => match k with KInt _ => eq_refl | KPair _ _ => eq_refl end).

(** [bag[k] = bag.get(k, 0) + v]. *)
Definition bag_add (bag : gmap key Z) (k : key) (v : Z) : gmap key Z :=
  <[k := default 0 (bag !! k) + v]> bag.

(** The total of the counts of a bag. *)
Definition total_count (bag : gmap key Z) : Z :=
  map_fold (fun _ v acc => v + acc) 0 bag.

Section Words.
Context {F : Type} `{Float64 F}.
Implicit Type self : SFA F.

(** The inner loop of the encoders: the first [bp] of [bps] with
    [x <= row[bp]], if any. *)
Fixpoint first_bin (x : F) (row : list F) (bps : list Z) : result (option Z) :=
  match bps with
  | [] => Ok None
  | bp :: bps' =>
      v ← index row bp;
      if fleb x v then Ok (Some bp) else first_bin x row bps'
  end.

(** The bin of the [i]-th coefficient. *)
Definition letter_at (dft : list F) (breakpoints : list (list F))
    (alphabet_size i : Z) : result (option Z) :=
  if decide (alphabet_size ≤ 0) then Ok None
  else
    x ← index dft i;
    row ← index breakpoints i;
    first_bin x row (range alphabet_size).

(** The loop shared by [_create_word] and [_create_word_large]; [wrap]
    is the arithmetic of the integer type of [word].  The comparison is
    the comparison of binary64 and an index out of range raises, as in
    [_create_word_large], which runs in Python.  [_create_word] and
    [_create_word_full] are compiled with [fastmath] and without bounds
    checks: the source does not fix what they return on a NaN or on a
    row that is too short, and the statements about them are made where
    neither occurs. *)
Definition create_word_with (wrap : Z → Z) (dft : list F)
    (word_length alphabet_size : Z) (breakpoints : list (list F))
    (letter_bits : Z) : result Z :=
  foldl (fun acc i =>
           word ← acc;
           b ← letter_at dft breakpoints alphabet_size i;
           match b with
           | Some bp => Ok (wrap (Z.lor (Z.shiftl word letter_bits) bp))
           | None => Ok word
           end)
        (Ok 0) (range word_length).

Definition _create_word := create_word_with wrap64.

Definition _create_word_large self (dft : list F) : result Z :=
  create_word_with id dft (word_length self) (alphabet_size self)
    (breakpoints self) (letter_bits self).

Definition _create_word_full (dft : list F) (word_length alphabet_size : Z)
    (breakpoints : list (list F)) (letter_bits : Z) : result (list Z) :=
  rmap (fun i => b ← letter_at dft breakpoints alphabet_size i; Ok (default 0 b))
       (range word_length).

Definition _add_to_bag self (bag : gmap key Z) (word last_word : Z)
    : gmap key Z * bool :=
  if remove_repeat_words self && bool_decide (word = last_word) then (bag, true)
  else (bag_add bag (KInt word) 1, false).

(** The quadrant of [_add_level], [_add_level_large] and
    [_add_level_typed]. *)
Definition quadrant_of (start level window_ind window_size n_timepoints : Z)
    : result (Z * Z) :=
  let num_quadrants := 2 ^ level in
  d ← int_div n_timepoints num_quadrants;
  q ← int_div (window_ind + Z.quot window_size 2) d;
  Ok (start + q, num_quadrants).

Definition _add_level (word start level window_ind window_size n_timepoints
    level_bits : Z) : result (key * Z) :=
  '(quadrant, num_quadrants) ←
    quadrant_of start level window_ind window_size n_timepoints;
  Ok (KInt (wrap64 (Z.lor (Z.shiftl word level_bits) quadrant)), num_quadrants).

Definition _add_level_large self (word start level window_ind : Z)
    : result (key * Z) :=
  '(quadrant, num_quadrants) ←
    quadrant_of start level window_ind (window_size self) (n_timepoints self);
  Ok (KInt (Z.lor (Z.shiftl word (level_bits self)) quadrant), num_quadrants).

Definition _add_level_typed (word start level window_ind window_size
    n_timepoints : Z) : result (key * Z) :=
  '(quadrant, num_quadrants) ←
    quadrant_of start level window_ind window_size n_timepoints;
  Ok (KPair word quadrant, num_quadrants).

Definition _add_to_pyramid self (bag : gmap key Z)
    (word last_word window_ind : Z) : result (gmap key Z * bool) :=
  if remove_repeat_words self && bool_decide (word = last_word) then Ok (bag, true)
  else
    '(bag, _) ←
      foldl (fun acc i =>
               '(bag, start) ← acc;
               '(new_word, num_quadrants) ←
                 (if _typed_dict self then
                    _add_level_typed word start i window_ind
                      (window_size self) (n_timepoints self)
                  else if decide (word_bits self + level_bits self ≤ 64) then
                    _add_level word start i window_ind (window_size self)
                      (n_timepoints self) (level_bits self)
                  else _add_level_large self word start i window_ind);
               Ok (bag_add bag new_word num_quadrants, start + num_quadrants))
            (Ok (bag, 0)) (range (levels self));
    Ok (bag, false).

Definition _create_bigram_word (word other_word word_bits : Z) : Z :=
  wrap64 (Z.lor (Z.shiftl word word_bits) other_word).

(** [_create_bigram_word_large] on the integers of Python.  With
    [word_bits <= 64 < max_bits], [_transform_case] calls it on an element
    of an [int64] array, whose shift is on 64 bits; the statements on the
    keys of bigrams are made for [max_bits <= 64]. *)
Definition _create_bigram_word_large self (word other_word : Z) : Z :=
  Z.lor (Z.shiftl word (word_bits self)) other_word.

Definition _create_bigram_words self (word_raw word : Z) : Z :=
  if decide (max_bits self ≤ 64) then _create_bigram_word word word_raw (word_bits self)
  else _create_bigram_word_large self word word_raw.

(** The key under which a bigram or a skip-gram is counted. *)
Definition ngram_key self (gram : Z) : key :=
  if decide (1 < levels self) then
    if _typed_dict self then KPair gram (-1)
    else KInt (Z.lor (Z.shiftl gram (level_bits self)) 0)
  else KInt gram.

(** What the loops of [_transform_case] and [_shorten_case] carry from
    one window to the next. *)
Record loop_state : Set := {
  st_bag : gmap key Z;
  st_last_word : Z;
  st_repeat_words : Z
}.

Definition loop_init : loop_state :=
  {| st_bag := ∅; st_last_word := -1; st_repeat_words := 0 |}.

(** The body of both loops once the word of the window is known;
    [earlier k] is the word [k] windows back, as the loop reads it. *)
Definition window_step self (earlier : Z → result Z) (st : loop_state)
    (window word : Z) : result loop_state :=
  '(bag, repeat_word) ←
    (if decide (1 < levels self) then
       _add_to_pyramid self (st_bag st) word (st_last_word st)
         (window - Z.quot (st_repeat_words st) 2)
     else Ok (_add_to_bag self (st_bag st) word (st_last_word st)));
  let last_word := if (repeat_word : bool) then st_last_word st else word in
  let repeat_words := if repeat_word then st_repeat_words st + 1 else 0 in
  bag ←
    (if bigrams self && bool_decide (0 ≤ window - window_size self) then
       w ← earlier (window - window_size self);
       Ok (bag_add bag (ngram_key self (_create_bigram_words self word w)) 1)
     else Ok bag);
  bag ←
    (if skip_grams self then
       foldl (fun acc s =>
                bag ← acc;
                if decide (0 ≤ window - s * window_size self) then
                  w ← earlier (window - s * window_size self);
                  Ok (bag_add bag (ngram_key self (_create_bigram_words self word w)) 1)
                else Ok bag)
             (Ok bag) (range2 2 4)
     else Ok bag);
  Ok {| st_bag := bag; st_last_word := last_word; st_repeat_words := repeat_words |}.

(** The word of one window in [_transform_case]. *)
Definition window_word self (dft : list F) : result Z :=
  if decide (word_bits self ≤ 64) then
    _create_word dft (word_length self) (alphabet_size self)
      (breakpoints self) (letter_bits self)
  else _create_word_large self dft.

(** [_transform_case] on the coefficient rows of a series: the bag and
    the words of the windows. *)
Definition transform_rows self (dfts : list (list F))
    : result (gmap key Z * list Z) :=
  '(st, words) ←
    foldl (fun acc '(window, dft) =>
             '(st, words) ← acc;
             word_raw ← window_word self dft;
             let words := <[Z.to_nat window := word_raw]> words in
             st ← window_step self (index words) st window word_raw;
             Ok (st, words))
          (Ok (loop_init, replicate (length dfts) 0))
          (zip (range (Z.of_nat (length dfts))) dfts);
  Ok (st_bag st, if save_words self then words else []).
End Words.

Section Transform.
Context {F : Type} `{Float64 F} `{Libm F}.
Implicit Type self : SFA F.

Definition _transform_case self (X : list F) (supplied_dft : option (list (list F)))
    : result (gmap key Z * list Z) :=
  dfts ← match supplied_dft with
         | None => _mft self X
         | Some d => Ok d
         end;
  transform_rows self dfts.

(** [_transform]: the estimator after the call and the bags.  On an
    empty collection [zip] yields nothing and the assignment of its two
    results raises a [ValueError]. *)
Definition _transform self (X : list (list F))
    : SFA F * result (list (list (gmap key Z))) :=
  let r :=
    rmap (fun '(i, x) =>
            supplied ←
              (if keep_binning_dft self then
                 d ← of_option TypeError (binning_dft self);
                 row ← index d i;
                 Ok (Some row)
               else Ok None);
            _transform_case self x supplied)
         (zip (range (Z.of_nat (length X))) X) in
  match r with
  | Raise e => (self, Raise e)
  | Ok [] => (self, Raise ValueError)
  | Ok transform =>
      let self := if save_words self then set_words self (snd <$> transform) else self in
      (self, Ok [fst <$> transform])
  end.

Definition _transform_words_case self (X : list F)
    : result (list (list Z) * list (list F)) :=
  dfts ← _mft self X;
  words ← rmap (fun dft => _create_word_full dft (word_length self)
                             (alphabet_size self) (breakpoints self)
                             (letter_bits self)) dfts;
  Ok (words, dfts).
End Transform.

(** ** Shortening the words *)

Section Shorten.
Context {F : Type} `{Float64 F}.
Implicit Type self : SFA F.

(** [word >> amount * letter_bits], on a 64 bit integer and on a Python
    integer; a negative shift count is an error. *)
Definition _shorten_word (word amount letter_bits : Z) : result Z :=
  if decide (amount * letter_bits < 0) then Raise ValueError
  else Ok (Z.shiftr word (amount * letter_bits)).

Definition _shorten_word_large self (word amount : Z) : result Z :=
  if decide (amount * letter_bits self < 0) then Raise ValueError
  else Ok (Z.shiftr word (amount * letter_bits self)).

Definition _shorten_words self (word word_len : Z) : result Z :=
  if decide (word_bits self ≤ 64) then
    _shorten_word word (word_length self - word_len) (letter_bits self)
  else _shorten_word_large self word (word_length self - word_len).

Definition _shorten_case self (word_len i : Z) : result (gmap key Z) :=
  saved ← index (words self) i;
  st ←
    foldl (fun acc '(window, word) =>
             st ← acc;
             new_word ← _shorten_words self word word_len;
             window_step self
               (fun j => w ← index saved j; _shorten_words self w word_len)
               st window new_word)
          (Ok loop_init)
          (zip (range (Z.of_nat (length saved))) saved);
  Ok (st_bag st).

Definition _shorten_bags self (word_len : Z) : result (list (list (gmap key Z))) :=
  if negb (save_words self) then Raise ValueError
  else
    let word_len :=
      if decide (word_length self < word_len) then word_length self else word_len in
    dim ← rmap (_shorten_case self word_len)
               (range (Z.of_nat (length (words self))));
    Ok [dim].
End Shorten.

(** ** Reading the letters of a word *)

(** [_get_chars].  The compiled function takes [word] as an [int64]; the
    statements about it are made for words of at most 64 bits. *)
Definition _get_chars (word word_length alphabet_size : Z) : list Z :=
  let letter_bits := floor_log2 alphabet_size in
  let mask := Z.shiftl 1 letter_bits - 1 in
  let '(_, chars) :=
    foldl (fun '(word, chars) _ =>
             let char := Z.land word mask in
             (Z.shiftr word letter_bits, char :: chars))
          (word, []) (range word_length) in
  chars.

Section Letters.
Context {F : Type}.
Implicit Type self : SFA F.

(** [get_words]: the saved words, squeezed to one dimension, read letter
    by letter. *)
Definition get_words self : result (list (list Z)) :=
  match words self with
  | [[_]] => Raise TypeError
  | [row] => Ok ((fun w => _get_chars w (word_length self) (alphabet_size self)) <$> row)
  | rows =>
      if forallb (fun row => bool_decide (length row = 1%nat)) rows then
        Ok ((fun w => _get_chars w (word_length self) (alphabet_size self))
              <$> concat rows)
      else Raise TypeError
  end.

(** The letters read by both loops of [word_list] and of
    [word_list_typed], from the shift [shift] downwards. *)
Definition letters_from self (word shift : Z) : list Z :=
  (fun k => Z.land (Z.shiftr word (shift - k * letter_bits self)) (letter_max self))
    <$> range (word_length self).

(** The results of [word_list]. *)
Inductive decoded : Set :=
| Letters (l : list Z)
| Bigram (first second : list Z)
| Level (d : decoded) (level : Z).

(** [int(word).bit_length()]. *)
Definition bit_length (z : Z) : Z := if decide (z = 0) then 0 else Z.log2 (Z.abs z) + 1.

Definition word_list self (word : Z) : decoded :=
  let word_bits' := word_bits self + level_bits self in
  let letters := letters_from self word (word_bits' - letter_bits self) in
  let letters :=
    if decide (word_bits self + level_bits self < bit_length word) then
      Bigram (letters_from self word (word_bits self + word_bits' - letter_bits self))
             letters
    else Letters letters in
  if decide (1 < levels self) then Level letters (Z.land (Z.shiftr word 0) (level_max self))
  else letters.
End Letters.

(** ** Instances used to run the definitions *)

Module Run.
Local Open Scope float_scope.

(** Partial sums of the cosine and sine series. *)
Fixpoint series_sum (x2 term : float) (k : Z) (n : nat) : float :=
  match n with
  | O => term
  | S n' =>
      term + series_sum x2
               (- (term * x2) / (B64.of_Z ((k + 1) * (k + 2)))) (k + 2) n'
  end.

(** The argument brought into [[-pi, pi]]. *)
Definition two_pi : float := 0x1.921fb54442d18p+2.
Definition reduce (x : float) : float :=
  match B64.round_even (x / two_pi) with
  | Some k => x - B64.of_Z k * two_pi
  | None => x
  end.

Definition cos (x : float) : float :=
  let r := reduce x in series_sum (r * r) 1 0 24.
Definition sin (x : float) : float :=
  let r := reduce x in series_sum (r * r) r 1 24.

(** The square root of binary64, [math.pi], and the series above for the
    cosine and the sine. *)
#[global] Instance libm : Libm float := {|
  fsqrt := PrimFloat.sqrt;
  fcos := cos;
  fsin := sin;
  fpi := 0x1.921fb54442d18p+1
|}.

(** Estimators that split a column once, at its mean, and that cut the
    range of a column into equal bins. *)
Definition stump {F} `{Float64 F} (col : list F) : list F :=
  [fdiv (foldl fadd (of_int 0) col) (of_int (Z.of_nat (length col)))].

#[global] Instance sklearn {F} `{Float64 F} : Sklearn F := {|
  classifier_thresholds := fun _ _ col _ => stump col;
  regressor_thresholds := fun _ _ col _ => stump col;
  bin_edges_ := fun n _ dft =>
    Ok ((fun _ => (fun i => of_int i) <$> range (n + 1))
          <$> default [] (head dft));
  f_classif_order := fun dft _ => range (Z.of_nat (length (default [] (head dft))))
|}.

Definition env0 : env := {| numba_disable_jit := false; cpu_count := 4 |}.
End Run.

(** * Vocabulary of the statements *)

(** The integer whose digits in base [2 ^ letter_bits] are [letters], as
    the encoders build it. *)
Definition pack_with (wrap : Z → Z) (letter_bits : Z) (letters : list Z) : Z :=
  foldl (fun word bp => wrap (Z.lor (Z.shiftl word letter_bits) bp)) 0 letters.

Definition pack := pack_with id.

(** Letters that fit their [letter_bits] bits. *)
Definition fits (letter_bits : Z) (letters : list Z) : Prop :=
  Forall (fun b => 0 ≤ b < 2 ^ letter_bits) letters.

(** Two integers with the same [m] lowest bits. *)
Definition agree (m x y : Z) : Prop :=
  ∀ n, 0 ≤ n < m → Z.testbit x n = Z.testbit y n.

(** The conditions under which [_fit] is specified to fail. *)
Definition listed_error (p : params) (y : option (list Z)) : Prop :=
  alphabet_size p < 2 ∨ word_length p < 1 ∨
  ((binning_method p = "information-gain"%string
    ∨ binning_method p = "information-gain-mae"%string) ∧ y = None) ∨
  binning_method p ∉ binning_methods.

(** An information-gain strategy is asked for and no labels are given. *)
Definition ig_without_labels (p : params) (y : option (list Z)) : bool :=
  (String.eqb (binning_method p) "information-gain"
   || String.eqb (binning_method p) "information-gain-mae")
  && negb (bool_decide (is_Some y)).

(** The bits of a word and of a key, as [_fit] computes them. *)
Definition bits_of (p : params) : Z := word_length p * Z.log2_up (alphabet_size p).
Definition max_bits_of (p : params) : Z :=
  if bigrams p || skip_grams p then bits_of p * 2 else bits_of p.

(** The limits of a typed dictionary. *)
Definition typed_limit (typed : bool) (p : params) : Prop :=
  typed = true ∧ (64 < max_bits_of p ∨ 15 < levels p).

(** The integers of a fitted estimator. *)
Definition widths_of (p : params) (w0 : widths) (rows cols : Z) : widths :=
  {| n_cases := rows;
     n_timepoints := cols;
     letter_bits := Z.log2_up (alphabet_size p);
     letter_max := 2 ^ Z.log2_up (alphabet_size p) - 1;
     word_bits := bits_of p;
     max_bits := max_bits_of p;
     level_bits := if decide (1 < levels p) then Z.log2_up (2 ^ levels p - 1)
                   else level_bits w0;
     level_max := if decide (1 < levels p) then 2 ^ Z.log2_up (2 ^ levels p - 1) - 1
                  else level_max w0 |}.

(** The integers assigned when [_fit] meets a limit of the typed
    dictionary. *)
Definition letter_widths (p : params) (w0 : widths) : widths :=
  {| n_cases := n_cases w0;
     n_timepoints := n_timepoints w0;
     letter_bits := Z.log2_up (alphabet_size p);
     letter_max := 2 ^ Z.log2_up (alphabet_size p) - 1;
     word_bits := bits_of p;
     max_bits := max_bits_of p;
     level_bits := level_bits w0;
     level_max := level_max w0 |}.

Section Vocabulary.
Context {F : Type} `{Float64 F}.
Implicit Type self : SFA F.

(** The bin indices that an encoder packs, in order: the bins of the
    coefficients that fall into one. *)
Definition packed_letters (dft : list F) (word_length alphabet_size : Z)
    (breakpoints : list (list F)) : result (list Z) :=
  bs ← rmap (letter_at dft breakpoints alphabet_size) (range word_length);
  Ok (omap id (bs : list (option Z))).

(** What [_binning] leaves as it is. *)
Definition same_frame self self' : Prop :=
  cfg self' = cfg self ∧ fitted self' = fitted self ∧ words self' = words self
  ∧ breakpoints self' = breakpoints self ∧ _typed_dict self' = _typed_dict self
  ∧ _use_fallback_dft self' = _use_fallback_dft self
  ∧ inverse_sqrt_win_size self' = inverse_sqrt_win_size self.

(** How [_fit] ends once [_binning] has run. *)
Definition finish_fit (r : SFA F * result (list (list F))) : SFA F * result unit :=
  match r with
  | (self, Raise e) => (self, Raise e)
  | (self, Ok bps) => (set_breakpoints self bps, Ok tt)
  end.
End Vocabulary.

Section FittedVocabulary.
Context {F : Type} `{Float64 F} `{Libm F} `{Sklearn F}.
Implicit Type self : SFA F.

(** [self] is the estimator built from [p] and fitted on [X] and [y]. *)
Definition fitted_by (E : env) (p : params) (X : list (list F))
    (y : option (list Z)) self : Prop :=
  ∃ s0, __init__ E p = Ok s0 ∧ _fit E s0 X y = (self, Ok tt).
(** The estimator as [_fit] hands it to [_binning]. *)
Definition prepared (E : env) self (X : list (list F)) : SFA F :=
  set_fitted
    (set__n_jobs self (match check_n_jobs E (n_jobs self) with Ok n => n | _ => 0 end))
    (widths_of self (fitted self) (Z.of_nat (length X))
       (Z.of_nat (length (default [] (head X))))).

(** [_fit] stops in its checks, before it looks at the data. *)
Definition stops_in_checks (E : env) self (y : option (list Z)) : Prop :=
  ∃ self' e,
    (∀ X, _fit E self X y = (self', Raise e))
    ∧ breakpoints self' = breakpoints self
    ∧ words self' = words self
    ∧ binning_dft self' = binning_dft self
    ∧ support self' = support self
    ∧ dft_length self' = dft_length self.

End FittedVocabulary.

Section BagVocabulary.
Context {F : Type} `{Float64 F} `{Libm F}.
Implicit Type self : SFA F.

(** The loop of [_transform_case] and [_shorten_case] on the words of the
    windows of a series. *)
Definition run_windows self (ws : list Z) : result loop_state :=
  foldl (fun acc '(window, word) =>
           st ← acc; window_step self (index ws) st window word)
        (Ok loop_init) (zip (range (Z.of_nat (length ws))) ws).

(** The coefficient rows [_transform] works on for the [i]-th series. *)
Definition rows_of self (i : Z) (x : list F) : result (list (list F)) :=
  if keep_binning_dft self then
    d ← of_option TypeError (binning_dft self);
    index d i
  else _mft self x.

(** Two estimators that build their bags alike. *)
Definition same_bag_config self (s : SFA F) : Prop :=
  remove_repeat_words s = remove_repeat_words self
  ∧ levels s = levels self
  ∧ window_size s = window_size self
  ∧ bigrams s = bigrams self
  ∧ skip_grams s = skip_grams self
  ∧ _typed_dict s = _typed_dict self
  ∧ level_bits s = level_bits self
  ∧ n_timepoints s = n_timepoints self
  ∧ alphabet_size s = alphabet_size self
  ∧ letter_bits s = letter_bits self.

(** Two estimators that form the same keys from the same words: they
    have the same widths, or they count no bigrams and no skip-grams and
    tag the pyramid levels through the same function. *)
Definition same_keys self (s : SFA F) : Prop :=
  (word_bits s = word_bits self ∧ max_bits s = max_bits self)
  ∨ (bigrams self = false ∧ skip_grams self = false
     ∧ (levels self ≤ 1 ∨ _typed_dict self = true
        ∨ (word_bits self + level_bits self ≤ 64
           ↔ word_bits s + level_bits self ≤ 64))).

(** Every coefficient of the row falls into a bin of its letter. *)
Definition all_letters self (dft : list F) : Prop :=
  ∃ ls, packed_letters dft (word_length self) (alphabet_size self) (breakpoints self)
          = Ok ls
        ∧ Z.of_nat (length ls) = word_length self.

(** [s] is an estimator for words of [L] letters that reads the first
    [L] rows of the breakpoints of [self], builds its bag as [self] does,
    and has room for its words. *)
Definition scratch_for self (L : Z) (s : SFA F) : Prop :=
  word_length s = L
  ∧ same_bag_config self s ∧ same_keys self s
  ∧ take (Z.to_nat L) (breakpoints s) = take (Z.to_nat L) (breakpoints self)
  ∧ L * letter_bits self ≤ word_bits s ∧ word_bits s ≠ 64.

(** The widths of [self] are those [_fit] computes. *)
Definition fitted_widths self : Prop :=
  letter_bits self = Z.log2_up (alphabet_size self)
  ∧ word_bits self = word_length self * letter_bits self.
End BagVocabulary.

(** ** Inputs on which the definitions are run *)

Module Ex.
Local Open Scope float_scope.

(** Two series of sixteen points. *)
Definition train : list (list float) :=
  [[1; 2; 3; 4; 5; 6; 7; 8; 9; 10; 11; 12; 13; 14; 15; 16];
   [3; 1; 4; 1; 5; 9; 2; 6; 5; 3; 5; 8; 9; 7; 9; 3]].

(** The defaults with the sizes of a word, an alphabet and a window
    replaced, and the switches of the bag. *)
Definition sized (word_len a w : Z) (typed save numerosity : bool) : params :=
  {| word_length := word_len; alphabet_size := a; window_size := w;
     norm := false; binning_method := "equi-depth"; anova := false;
     bigrams := false; skip_grams := false;
     remove_repeat_words := numerosity; levels := 1; lower_bounding := true;
     lower_bounding_distances := None; save_words := save;
     keep_binning_dft := false; use_fallback_dft := false;
     typed_dict := typed; n_jobs := NJ_int 1 |}.

(** The same with bigrams, and saved words. *)
Definition grams (word_len a w : Z) : params :=
  {| word_length := word_len; alphabet_size := a; window_size := w;
     norm := false; binning_method := "equi-depth"; anova := false;
     bigrams := true; skip_grams := false;
     remove_repeat_words := false; levels := 1; lower_bounding := true;
     lower_bounding_distances := None; save_words := true;
     keep_binning_dft := false; use_fallback_dft := false;
     typed_dict := false; n_jobs := NJ_int 1 |}.

Definition init (p : params) : SFA float := init_with Run.env0 p 1.

(** The estimator after [_fit], whatever the outcome. *)
Definition fit_on (X : list (list float)) (p : params) : SFA float :=
  fst (_fit Run.env0 (init p) X None).
Definition fit (p : params) : SFA float := fit_on train p.

(** A series whose coefficients are all positive, and its opposite. *)
Definition up : list float :=
  [4; 5; 1.375; -1; 0; 0.625; -0.625; -1; 0; -0.25; -1.375; -1; 0; -1.5; -3.375; -1].
Definition down : list float := PrimFloat.opp <$> up.

(** Words of eight letters over 256 of them, one window of sixteen
    points without its mean, and saved words. *)
Definition bytes (numerosity : bool) : params :=
  {| word_length := 8; alphabet_size := 256; window_size := 16;
     norm := true; binning_method := "equi-depth"; anova := false;
     bigrams := false; skip_grams := false;
     remove_repeat_words := numerosity; levels := 1; lower_bounding := true;
     lower_bounding_distances := None; save_words := true;
     keep_binning_dft := false; use_fallback_dft := false;
     typed_dict := false; n_jobs := NJ_int 1 |}.

(** The same for words of one letter. *)
Definition byte (numerosity : bool) : params :=
  {| word_length := 1; alphabet_size := 256; window_size := 16;
     norm := true; binning_method := "equi-depth"; anova := false;
     bigrams := false; skip_grams := false;
     remove_repeat_words := numerosity; levels := 1; lower_bounding := true;
     lower_bounding_distances := None; save_words := true;
     keep_binning_dft := false; use_fallback_dft := false;
     typed_dict := false; n_jobs := NJ_int 1 |}.
End Ex.

(** The estimator after [_transform] on the training series. *)
Definition transformed (p : params) : SFA float := fst (_transform (Ex.fit p) Ex.train).

(** Two fitted estimators, for words of two letters and of one letter over
    four letters, and the first after [_transform] on the training series. *)
Definition short2 : SFA float :=
  Eval vm_compute in Ex.fit (Ex.sized 2 4 8 false true false).
Definition short1 : SFA float :=
  Eval vm_compute in Ex.fit (Ex.sized 1 4 8 false true false).
Definition short2_done : SFA float :=
  Eval vm_compute in fst (_transform short2 Ex.train).

(** The counts of a key in the bags of a result. *)
Definition counts_of (k : key) (r : result (list (list (gmap key Z))))
    : result (list (list (option Z))) :=
  bags ← r; Ok (map (map (fun b : gmap key Z => b !! k)) bags).

(** ** Vocabulary of the properties of the single functions *)

Section WindowVocabulary.
Context {F : Type}.
Implicit Type self : SFA F.

(** The number of windows of a series: [max(1, len(series) - window_size + 1)]. *)
Definition n_windows self (series : list F) : Z :=
  Z.max 1 (Z.of_nat (length series) - window_size self + 1).

(** The length of the running coefficients of [_mft]. *)
Definition mft_length self : Z :=
  dft_length self + (if norm self then 2 else 0) + dft_length self `mod` 2.
End WindowVocabulary.

(** The number of windows whose word is not the word of the window before;
    [prev] stands for the word before the first window. *)
Fixpoint changes (prev : Z) (ws : list Z) : Z :=
  match ws with
  | [] => 0
  | w :: ws' => (if decide (w = prev) then 0 else 1) + changes w ws'
  end.

Section BagCounts.
Context {F : Type}.
Implicit Type self : SFA F.

(** What a counted word adds to a bag: [1], or one for every quadrant of
    every level of the pyramid. *)
Definition word_weight self : Z :=
  if decide (1 < levels self) then 2 ^ levels self - 1 else 1.

(** The windows whose word is counted. *)
Definition counted_windows self (ws : list Z) : Z :=
  if remove_repeat_words self then changes (-1) ws else Z.of_nat (length ws).

(** The bigrams and skip-grams of [n] windows. *)
Definition gram_count self (n : Z) : Z :=
  (if bigrams self then Z.max 0 (n - window_size self) else 0)
  + (if skip_grams self
     then Z.max 0 (n - 2 * window_size self) + Z.max 0 (n - 3 * window_size self)
     else 0).
End BagCounts.

(** An estimator with bigrams, fitted on the training series. *)
Definition grams2 : SFA float := Eval vm_compute in Ex.fit (Ex.grams 2 4 8).

Section BreakpointVocabulary.
Context {F : Type} `{Float64 F}.
Implicit Type self : SFA F.

(** A breakpoint matrix of [word_length] rows of [alphabet_size] entries,
    the last of each being [sys.float_info.max]. *)
Definition closed_rows self (bps : list (list F)) : Prop :=
  length bps = Z.to_nat (word_length self)
  ∧ Forall (fun row => length row = Z.to_nat (alphabet_size self)
                       ∧ last row = Some float_max) bps.

(** No entry of the rows is NaN: every entry equals itself. *)
Definition no_nan (rows : list (list F)) : Prop :=
  Forall (Forall (fun v => feqb v v = true)) rows.
End BreakpointVocabulary.

(** * Properties *)

(** Closed statements are settled by evaluation, one conjunct at a time. *)
Ltac by_computing :=
  repeat match goal with |- _ ∧ _ => split end; vm_compute; reflexivity.

(** ** Lists and results *)

Lemma range_length (n : Z) : length (range n) = Z.to_nat n.
Proof. unfold range. by rewrite length_fmap, length_seq. Qed.

Lemma range_succ (n : Z) : 0 ≤ n → range (n + 1) = range n ++ [n].
Proof.
  intros Hn. unfold range.
  replace (Z.to_nat (n + 1)) with (S (Z.to_nat n)) by lia.
  rewrite seq_S, fmap_app. simpl. do 2 f_equal. lia.
Qed.

Lemma range_nonpos (n : Z) : n ≤ 0 → range n = [].
Proof. intros Hn. unfold range. by replace (Z.to_nat n) with 0%nat by lia. Qed.

Lemma range_lookup (n : Z) (i : nat) :
  (i < Z.to_nat n)%nat → range n !! i = Some (Z.of_nat i).
Proof.
  intros Hi. unfold range. rewrite list_lookup_fmap, lookup_seq_lt by done. done.
Qed.

Lemma elem_of_range (n i : Z) : i ∈ range n ↔ 0 ≤ i < n.
Proof.
  unfold range. rewrite list_elem_of_fmap. split.
  - intros (k & -> & Hk). apply elem_of_seq in Hk. lia.
  - intros Hi. exists (Z.to_nat i). split; [lia|]. apply elem_of_seq. lia.
Qed.

Lemma range2_length (a b : Z) : length (range2 a b) = Z.to_nat (b - a).
Proof. unfold range2. by rewrite length_fmap, length_seq. Qed.

Lemma elem_of_range2 (a b i : Z) : i ∈ range2 a b ↔ a ≤ i < b.
Proof.
  unfold range2. rewrite list_elem_of_fmap. split.
  - intros (k & -> & Hk). apply elem_of_seq in Hk. lia.
  - intros Hi. exists (Z.to_nat (i - a)). split; [lia|]. apply elem_of_seq. lia.
Qed.

Lemma rbind_ok {A B : Type} (m : result A) (k : A → result B) (b : B) :
  m ≫= k = Ok b ↔ ∃ a, m = Ok a ∧ k a = Ok b.
Proof.
  destruct m as [a|e]; simpl; split.
  - intros Hk. by exists a.
  - by intros (a' & [= <-] & Hk).
  - done.
  - by intros (a' & [=] & _).
Qed.

Lemma rmap_length {A B : Type} (f : A → result B) (l : list A) (bs : list B) :
  rmap f l = Ok bs → length bs = length l.
Proof.
  revert bs. induction l as [|a l IH]; intros bs; simpl.
  - by intros [= <-].
  - destruct (f a) as [b|]; simpl; [|done].
    destruct (rmap f l) as [bs'|]; simpl; [|done].
    intros [= <-]. simpl. f_equal. by apply IH.
Qed.

Lemma rmap_ok_all {A B : Type} (f : A → result B) (l : list A) (g : A → B) :
  (∀ a, a ∈ l → f a = Ok (g a)) → rmap f l = Ok (g <$> l).
Proof.
  induction l as [|a l IH]; intros Hf; simpl; [done|].
  rewrite Hf by left. simpl. rewrite IH; [done|].
  intros a' Ha'. apply Hf. by right.
Qed.

Lemma rmap_ext {A B : Type} (f g : A → result B) (l : list A) :
  (∀ a, a ∈ l → f a = g a) → rmap f l = rmap g l.
Proof.
  induction l as [|a l IH]; intros Hf; simpl; [done|].
  rewrite Hf by left. destruct (g a); simpl; [|done].
  rewrite IH; [done|]. intros a' Ha'. apply Hf. by right.
Qed.

Lemma rmap_elem {A B : Type} (f : A → result B) (l : list A) (bs : list B) (b : B) :
  rmap f l = Ok bs → b ∈ bs → ∃ a, a ∈ l ∧ f a = Ok b.
Proof.
  revert bs. induction l as [|a l IH]; intros bs; simpl.
  - intros [= <-] Hb. by apply elem_of_nil in Hb.
  - destruct (f a) as [b'|] eqn:Hfa; simpl; [|done].
    destruct (rmap f l) as [bs'|]; simpl; [|done].
    intros [= <-] Hb. apply elem_of_cons in Hb as [->|Hb].
    + exists a. split; [by left|done].
    + destruct (IH bs' eq_refl Hb) as (a' & Ha' & Hfa'). exists a'. split; [by right|done].
Qed.

Lemma rmap_lookup {A B : Type} (f : A → result B) (l : list A) (bs : list B)
    (i : nat) (a : A) :
  rmap f l = Ok bs → l !! i = Some a → ∃ b, bs !! i = Some b ∧ f a = Ok b.
Proof.
  revert bs i. induction l as [|a' l IH]; intros bs i; simpl; [done|].
  destruct (f a') as [b'|] eqn:Hfa; simpl; [|done].
  destruct (rmap f l) as [bs'|]; simpl; [|done].
  intros [= <-] Hi. destruct i as [|i]; simpl in *.
  - injection Hi as <-. by exists b'.
  - by apply IH.
Qed.

Lemma rmap_app_l {A B : Type} (f : A → result B) (l1 l2 : list A) (bs : list B) :
  rmap f (l1 ++ l2) = Ok bs → rmap f l1 = Ok (take (length l1) bs).
Proof.
  revert bs. induction l1 as [|a l1 IH]; intros bs; simpl; [done|].
  destruct (f a) as [b|]; simpl; [|done].
  destruct (rmap f (l1 ++ l2)) as [bs'|] eqn:Hbs'; simpl; [|done].
  intros [= <-]. by rewrite (IH bs' eq_refl).
Qed.

Lemma range_take (n m : Z) : 0 ≤ m ≤ n → range n = range m ++ range2 m n.
Proof.
  intros Hm. unfold range, range2.
  replace (Z.to_nat n) with (Z.to_nat m + Z.to_nat (n - m))%nat by lia.
  rewrite seq_app, fmap_app. f_equal.
  replace (seq (0 + Z.to_nat m) (Z.to_nat (n - m)))
    with (Nat.add (Z.to_nat m) <$> seq 0 (Z.to_nat (n - m)))
    by (rewrite fmap_add_seq; f_equal; lia).
  rewrite <- list_fmap_compose.
  apply list_fmap_ext. intros _ i _. simpl. lia.
Qed.

Lemma omap_length_le {A B : Type} (f : A → option B) (l : list A) :
  (length (omap f l) ≤ length l)%nat.
Proof. induction l as [|a l IH]; cbn; [done|]. destruct (f a); simpl; lia. Qed.

Lemma omap_id_all {A : Type} (bs : list (option A)) :
  length (omap id bs) = length bs → bs = Some <$> omap id bs.
Proof.
  induction bs as [|[b|] bs IH]; cbn; [done| |].
  - intros Hl. f_equal. apply IH. lia.
  - pose proof (omap_length_le id bs). lia.
Qed.

Lemma omap_id_Some {A : Type} (l : list A) : omap id (Some <$> l) = l.
Proof. induction l as [|a l IH]; cbn; [done|]. by rewrite IH. Qed.

(** A loop that has raised keeps the exception. *)
Lemma foldl_raise {A B : Type} (f : result A → B → result A) (e : error) (l : list B) :
  (∀ b, f (Raise e) b = Raise e) → foldl f (Raise e) l = Raise e.
Proof. intros Hf. induction l as [|b l IH]; simpl; [done|]. by rewrite Hf. Qed.

Lemma index_ok {A : Type} (l : list A) (i : Z) (a : A) :
  index l i = Ok a ↔ 0 ≤ i ∧ l !! Z.to_nat i = Some a.
Proof.
  unfold index. destruct (decide (i < 0)); simpl.
  - split; [done|lia].
  - destruct (l !! Z.to_nat i); simpl; split; try done.
    + intros [= ->]. split; [lia|done].
    + by intros [_ [= ->]].
    + by intros [_ ?].
Qed.

Lemma index_nat {A : Type} (l : list A) (i : nat) (a : A) :
  l !! i = Some a → index l (Z.of_nat i) = Ok a.
Proof. intros Hi. apply index_ok. rewrite Nat2Z.id. split; [lia|done]. Qed.

(** ** Packed letters *)

Lemma pack_snoc (lb : Z) (ls : list Z) (b : Z) :
  pack lb (ls ++ [b]) = Z.lor (Z.shiftl (pack lb ls) lb) b.
Proof. unfold pack, pack_with. by rewrite foldl_app. Qed.

Lemma lor_shiftl_bound (x b lb n : Z) :
  0 ≤ lb → 0 ≤ n → 0 ≤ x < 2 ^ n → 0 ≤ b < 2 ^ lb →
  0 ≤ Z.lor (Z.shiftl x lb) b < 2 ^ (n + lb).
Proof.
  intros Hlb Hn Hx Hb.
  assert (0 ≤ Z.shiftl x lb) by (apply Z.shiftl_nonneg; lia).
  split; [apply Z.lor_nonneg; lia|].
  destruct (decide (Z.lor (Z.shiftl x lb) b = 0)) as [->|Hne].
  { apply Z.pow_pos_nonneg; lia. }
  assert (0 < n + lb) as Hpos.
  { destruct (decide (n + lb = 0)); [|lia].
    assert (lb = 0 ∧ n = 0) as [-> ->] by lia.
    assert (x = 0 ∧ b = 0) as [-> ->] by (simpl in *; lia). done. }
  apply Z.log2_lt_pow2; [pose proof (Z.lor_nonneg (Z.shiftl x lb) b); lia|].
  rewrite Z.log2_lor by lia.
  apply Z.max_lub_lt.
  - destruct (decide (x = 0)) as [->|Hx0].
    { rewrite Z.shiftl_0_l. simpl. lia. }
    rewrite Z.log2_shiftl by lia.
    assert (Z.log2 x < n) by (apply Z.log2_lt_pow2; lia). lia.
  - destruct (decide (b = 0)) as [->|Hb0]; [simpl; lia|].
    assert (Z.log2 b < lb) by (apply Z.log2_lt_pow2; lia). lia.
Qed.

Lemma pack_bound (lb : Z) (ls : list Z) :
  0 ≤ lb → fits lb ls → 0 ≤ pack lb ls < 2 ^ (Z.of_nat (length ls) * lb).
Proof.
  intros Hlb. induction ls as [|b ls IH] using rev_ind; intros Hfit.
  - simpl. unfold pack, pack_with. simpl. lia.
  - apply Forall_app in Hfit as [Hls Hb]. apply Forall_inv in Hb.
    rewrite pack_snoc, length_app. simpl.
    replace (Z.of_nat (length ls + 1) * lb) with (Z.of_nat (length ls) * lb + lb) by lia.
    apply lor_shiftl_bound; [lia|lia|by apply IH|apply Hb].
Qed.

Lemma lor_shiftl_shiftr (x b lb : Z) :
  0 ≤ lb → 0 ≤ b < 2 ^ lb → Z.shiftr (Z.lor (Z.shiftl x lb) b) lb = x.
Proof.
  intros Hlb Hb. rewrite Z.shiftr_lor, Z.shiftr_shiftl_l by lia.
  rewrite Z.sub_diag, Z.shiftl_0_r.
  rewrite (Z.shiftr_div_pow2 b) by lia. rewrite Z.div_small by lia.
  apply Z.lor_0_r.
Qed.

Lemma lor_shiftl_land (x b lb : Z) :
  0 ≤ lb → 0 ≤ b < 2 ^ lb → Z.land (Z.lor (Z.shiftl x lb) b) (Z.ones lb) = b.
Proof.
  intros Hlb Hb. rewrite Z.land_lor_distr_l.
  rewrite !Z.land_ones by lia.
  rewrite Z.shiftl_mul_pow2 by lia. rewrite Z.mod_mul by lia.
  rewrite Z.mod_small by lia. apply Z.lor_0_l.
Qed.

(** Dropping the last letters of a packed word is a shift to the right. *)
Lemma pack_shiftr (lb : Z) (l1 l2 : list Z) :
  0 ≤ lb → fits lb l2 →
  Z.shiftr (pack lb (l1 ++ l2)) (Z.of_nat (length l2) * lb) = pack lb l1.
Proof.
  intros Hlb. induction l2 as [|b l2 IH] using rev_ind; intros Hfit.
  - rewrite app_nil_r. simpl. apply Z.shiftr_0_r.
  - apply Forall_app in Hfit as [Hl2 Hb]. apply Forall_inv in Hb.
    rewrite app_assoc, pack_snoc, length_app. simpl.
    replace (Z.of_nat (length l2 + 1) * lb) with (lb + Z.of_nat (length l2) * lb) by lia.
    rewrite <- Z.shiftr_shiftr by lia.
    rewrite lor_shiftl_shiftr by (done || apply Hb). by apply IH.
Qed.

(** *** Sixty-four bit words *)

Lemma wrap64_range (z : Z) : - 2 ^ 63 ≤ wrap64 z < 2 ^ 63.
Proof. unfold wrap64. pose proof (Z.mod_pos_bound (z + 2 ^ 63) (2 ^ 64)). lia. Qed.

Lemma wrap64_small (z : Z) : - 2 ^ 63 ≤ z < 2 ^ 63 → wrap64 z = z.
Proof. intros Hz. unfold wrap64. rewrite Z.mod_small; lia. Qed.

Lemma wrap64_mod (z : Z) : wrap64 z mod 2 ^ 64 = z mod 2 ^ 64.
Proof.
  unfold wrap64.
  rewrite <- (Zminus_mod_idemp_l ((z + 2 ^ 63) mod 2 ^ 64)).
  rewrite Z.mod_mod by lia. rewrite Zminus_mod_idemp_l. f_equal. lia.
Qed.

Lemma wrap64_testbit (z n : Z) : n < 64 → Z.testbit (wrap64 z) n = Z.testbit z n.
Proof.
  intros Hn. destruct (decide (n < 0)).
  { by rewrite !Z.testbit_neg_r by lia. }
  rewrite <- (Z.mod_pow2_bits_low (wrap64 z) 64 n) by lia.
  rewrite wrap64_mod. apply Z.mod_pow2_bits_low. lia.
Qed.

Lemma wrap64_eq (x y : Z) :
  (∀ n, 0 ≤ n < 64 → Z.testbit x n = Z.testbit y n) → wrap64 x = wrap64 y.
Proof.
  intros Hbits. unfold wrap64. f_equal.
  assert (x mod 2 ^ 64 = y mod 2 ^ 64) as Hmod.
  { apply Z.bits_inj'. intros n Hn. destruct (decide (n < 64)).
    - rewrite !Z.mod_pow2_bits_low by lia. apply Hbits. lia.
    - rewrite !Z.mod_pow2_bits_high by lia. done. }
  rewrite (Zplus_mod x), (Zplus_mod y). by rewrite Hmod.
Qed.

Lemma wrap64_lor_shiftl (x b lb : Z) :
  0 ≤ lb →
  wrap64 (Z.lor (Z.shiftl (wrap64 x) lb) b) = wrap64 (Z.lor (Z.shiftl x lb) b).
Proof.
  intros Hlb. apply wrap64_eq. intros n Hn.
  rewrite !Z.lor_spec, !Z.shiftl_spec by lia.
  by rewrite wrap64_testbit by lia.
Qed.

Lemma pack_with_wrap64 (lb : Z) (ls : list Z) :
  0 ≤ lb → pack_with wrap64 lb ls = wrap64 (pack lb ls).
Proof.
  intros Hlb. induction ls as [|b ls IH] using rev_ind.
  - done.
  - unfold pack, pack_with in *. rewrite !foldl_app. simpl.
    rewrite IH. by rewrite wrap64_lor_shiftl.
Qed.

(** Words of at most 63 bits are not changed by the 64 bit arithmetic. *)
Lemma pack_with_wrap64_small (lb : Z) (ls : list Z) :
  0 ≤ lb → fits lb ls → Z.of_nat (length ls) * lb ≤ 63 →
  pack_with wrap64 lb ls = pack lb ls.
Proof.
  intros Hlb Hfit Hbits. rewrite pack_with_wrap64 by done.
  apply wrap64_small. pose proof (pack_bound lb ls Hlb Hfit) as [? Hlt].
  assert (2 ^ (Z.of_nat (length ls) * lb) ≤ 2 ^ 63) by (apply Z.pow_le_mono_r; lia).
  lia.
Qed.

(** ** The encoders *)

Section Encoders.
Context {F : Type} `{Float64 F}.
Implicit Type self : SFA F.

Lemma first_bin_elem (x : F) (row : list F) (bps : list Z) (b : Z) :
  first_bin x row bps = Ok (Some b) → b ∈ bps.
Proof.
  induction bps as [|bp bps IH]; simpl; [done|].
  destruct (index row bp) as [v|]; simpl; [|done].
  destruct (fleb x v).
  - intros [= ->]. by left.
  - intros Hb. right. by apply IH.
Qed.

Lemma letter_at_range (dft : list F) (bps : list (list F)) (a i b : Z) :
  letter_at dft bps a i = Ok (Some b) → 0 ≤ b < a.
Proof.
  unfold letter_at. destruct (decide (a ≤ 0)); [done|].
  destruct (index dft i); simpl; [|done].
  destruct (index bps i); simpl; [|done].
  intros Hb. apply first_bin_elem in Hb. by apply elem_of_range in Hb.
Qed.

Lemma packed_letters_range (dft : list F) (wl a : Z) (bps : list (list F))
    (ls : list Z) :
  packed_letters dft wl a bps = Ok ls → Forall (fun b => 0 ≤ b < a) ls.
Proof.
  unfold packed_letters. intros Hls. apply rbind_ok in Hls as (bs & Hbs & [= <-]).
  apply Forall_forall. intros b Hb.
  apply list_elem_of_omap in Hb as (o & Ho & Hob). simpl in Hob. subst o.
  destruct (rmap_elem _ _ _ _ Hbs Ho) as (i & _ & Hi).
  by eapply letter_at_range.
Qed.

Lemma create_word_with_fold (wrap : Z → Z) (dft : list F) (a lb : Z)
    (bps : list (list F)) (idx : list Z) (w0 : Z) :
  foldl (fun acc i =>
           word ← acc;
           b ← letter_at dft bps a i;
           match b with
           | Some bp => Ok (wrap (Z.lor (Z.shiftl word lb) bp))
           | None => Ok word
           end) (Ok w0) idx
  = (bs ← rmap (letter_at dft bps a) idx;
     Ok (foldl (fun word bp => wrap (Z.lor (Z.shiftl word lb) bp)) w0 (omap id bs))).
Proof.
  revert w0. induction idx as [|i idx IH]; intros w0; simpl; [done|].
  destruct (letter_at dft bps a i) as [[b|]|e]; simpl.
  - rewrite IH. by destruct (rmap _ idx).
  - rewrite IH. by destruct (rmap _ idx).
  - by apply foldl_raise.
Qed.

(** Every encoder packs the bin indices of the coefficients, first
    letter in the most significant place. *)
Lemma create_word_with_pack (wrap : Z → Z) (dft : list F) (wl a lb : Z)
    (bps : list (list F)) :
  create_word_with wrap dft wl a bps lb
  = (ls ← packed_letters dft wl a bps; Ok (pack_with wrap lb ls)).
Proof.
  unfold create_word_with, packed_letters. rewrite create_word_with_fold.
  by destruct (rmap _ _).
Qed.

(** The letters of a shorter word are the first letters of the longer. *)
Lemma packed_letters_take (dft : list F) (wl a L : Z) (bps : list (list F))
    (ls : list Z) :
  0 ≤ L ≤ wl → packed_letters dft wl a bps = Ok ls →
  Z.of_nat (length ls) = wl →
  packed_letters dft L a bps = Ok (take (Z.to_nat L) ls).
Proof.
  intros HL Hls Hlen. unfold packed_letters in *.
  apply rbind_ok in Hls as (bs & Hbs & [= <-]).
  assert (length bs = Z.to_nat wl) as Hbl.
  { apply rmap_length in Hbs. by rewrite range_length in Hbs. }
  rewrite (range_take wl L) in Hbs by lia.
  apply rmap_app_l in Hbs. rewrite Hbs. simpl. f_equal.
  rewrite range_length.
  pose proof (omap_id_all bs ltac:(lia)) as Hall.
  remember (omap id bs) as ls eqn:Hls. clear Hls.
  by rewrite Hall, <- fmap_take, omap_id_Some.
Qed.
End Encoders.

(** ** Reading letters back *)

Lemma agree_land_ones (m lb x y : Z) :
  0 ≤ lb ≤ m → agree m x y → Z.land x (Z.ones lb) = Z.land y (Z.ones lb).
Proof.
  intros Hlb Hxy. apply Z.bits_inj'. intros n Hn.
  rewrite !Z.land_spec. destruct (decide (n < lb)).
  - rewrite Hxy by lia. done.
  - rewrite Z.ones_spec_high by lia. by rewrite !andb_false_r.
Qed.

Lemma agree_shiftr (m lb x y : Z) :
  0 ≤ lb → agree m x y → agree (m - lb) (Z.shiftr x lb) (Z.shiftr y lb).
Proof.
  intros Hlb Hxy n Hn. rewrite !Z.shiftr_spec by lia. apply Hxy. lia.
Qed.

Lemma agree_wrap64 (x : Z) : agree 64 (wrap64 x) x.
Proof. intros n Hn. apply wrap64_testbit. lia. Qed.

Lemma shiftl_1_ones (lb : Z) : Z.shiftl 1 lb - 1 = Z.ones lb.
Proof. by rewrite Z.ones_equiv, Z.shiftl_1_l, Z.sub_1_r. Qed.

(** The loop of [_get_chars] on a word that agrees, on the bits it reads,
    with the packed letters [ls]. *)
Lemma get_chars_loop (lb : Z) (ls : list Z) :
  0 ≤ lb → fits lb ls →
  ∀ (m : Z) (idx : list Z) (x : Z) (acc : list Z),
    length idx = length ls → Z.of_nat (length ls) * lb ≤ m →
    agree m x (pack lb ls) →
    snd (foldl (fun '(word, chars) (_ : Z) =>
                  (Z.shiftr word lb, Z.land word (Z.ones lb) :: chars))
               (x, acc) idx) = ls ++ acc.
Proof.
  intros Hlb. induction ls as [|b ls IH] using rev_ind; intros Hfit m idx x acc Hlen Hm Hx.
  - destruct idx; [done|]. simpl in Hlen. lia.
  - apply Forall_app in Hfit as [Hls Hb]. apply Forall_inv in Hb.
    rewrite length_app in Hlen, Hm. simpl in Hlen, Hm.
    destruct idx as [|i idx]; [simpl in Hlen; lia|]. simpl.
    rewrite (IH Hls (m - lb) idx).
    + rewrite <- app_assoc. simpl. do 2 f_equal.
      rewrite (agree_land_ones m lb x (pack lb (ls ++ [b]))) by (done || lia).
      rewrite pack_snoc. by apply lor_shiftl_land.
    + simpl in Hlen. lia.
    + lia.
    + replace (pack lb ls) with (Z.shiftr (pack lb (ls ++ [b])) lb).
      * by apply agree_shiftr.
      * rewrite pack_snoc. by apply lor_shiftl_shiftr.
Qed.

(** [_get_chars] reads a packed word back when its own letter width,
    [int(log2(alphabet_size))], is the width the word was packed with. *)
Lemma get_chars_pack (lb m a x : Z) (ls : list Z) :
  0 ≤ lb → fits lb ls → floor_log2 a = lb →
  Z.of_nat (length ls) * lb ≤ m → agree m x (pack lb ls) →
  _get_chars x (Z.of_nat (length ls)) a = ls.
Proof.
  intros Hlb Hfit Ha Hm Hx. unfold _get_chars. rewrite Ha, shiftl_1_ones.
  pose proof (get_chars_loop lb ls Hlb Hfit m
                (range (Z.of_nat (length ls))) x []) as Hloop.
  rewrite range_length, Nat2Z.id, app_nil_r in Hloop.
  specialize (Hloop eq_refl Hm Hx).
  destruct (foldl _ _ _) as [w chars]. done.
Qed.

(** The width of [_fit] holds every letter of the alphabet. *)
Lemma letters_fit (a : Z) (ls : list Z) :
  Forall (fun b => 0 ≤ b < a) ls → fits (Z.log2_up a) ls.
Proof.
  intros Hls. eapply Forall_impl; [exact Hls|]. simpl. intros b Hb.
  split; [lia|]. destruct (decide (a ≤ 1)).
  { pose proof (Z.log2_up_nonneg a).
    pose proof (Z.pow_pos_nonneg 2 (Z.log2_up a) ltac:(lia) ltac:(lia)). lia. }
  pose proof (Z.log2_up_spec a ltac:(lia)). lia.
Qed.

(** For a power of two both widths are the same. *)
Lemma log2_pow2 (k : Z) : 0 ≤ k → floor_log2 (2 ^ k) = k ∧ Z.log2_up (2 ^ k) = k.
Proof.
  intros Hk. unfold floor_log2. split.
  - by apply Z.log2_pow2.
  - by apply Z.log2_up_pow2.
Qed.

Section Decoding.
Context {F : Type} `{Float64 F}.
Implicit Type self : SFA F.

(** [letters_from] on a packed word, from the most significant letter. *)
Lemma letters_from_pack self (ls : list Z) :
  0 ≤ letter_bits self → fits (letter_bits self) ls →
  word_length self = Z.of_nat (length ls) →
  letter_max self = 2 ^ letter_bits self - 1 →
  letters_from self (pack (letter_bits self) ls)
    (word_length self * letter_bits self - letter_bits self) = ls.
Proof.
  intros Hlb Hfit Hwl Hmax. unfold letters_from. rewrite Hwl, Hmax.
  set (lb := letter_bits self) in *.
  apply list_eq. intros k. rewrite list_lookup_fmap.
  destruct (decide (k < length ls)%nat) as [Hk|Hk].
  - rewrite range_lookup by lia. simpl.
    destruct (lookup_lt_is_Some_2 ls k Hk) as [b Hb]. rewrite Hb. f_equal.
    rewrite <- (take_drop (S k) ls) at 1.
    replace (Z.of_nat (length ls) * lb - lb - Z.of_nat k * lb)
      with (Z.of_nat (length (drop (S k) ls)) * lb)
      by (rewrite length_drop;
          replace (Z.of_nat (length ls - S k)) with (Z.of_nat (length ls) - 1 - Z.of_nat k)
            by lia; ring).
    rewrite pack_shiftr; [|done|by apply Forall_drop].
    rewrite (take_S_r _ _ _ Hb), pack_snoc.
    replace (2 ^ lb - 1) with (Z.ones lb) by (rewrite Z.ones_equiv; lia).
    apply lor_shiftl_land; [done|].
    eapply (Forall_lookup_1 _ _ _ _ Hfit Hb).
  - rewrite (lookup_ge_None_2 ls) by lia.
    rewrite lookup_ge_None_2; [done|]. rewrite range_length. lia.
Qed.
End Decoding.

(** ** Fitting *)

Lemma quadrants_sum (n : Z) :
  0 ≤ n → foldl (fun q i => q + 2 ^ i) 0 (range n) = 2 ^ n - 1.
Proof.
  intros Hn. rewrite <- (Z2Nat.id n Hn). generalize (Z.to_nat n). clear.
  induction n as [|n IH]; [done|].
  rewrite Nat2Z.inj_succ, <- Z.add_1_r, range_succ by lia.
  rewrite foldl_app, IH. simpl. rewrite Z.pow_add_r by lia. lia.
Qed.

Lemma is_member_spec (s : string) (l : list string) :
  is_member s l = true ↔ s ∈ l.
Proof.
  unfold is_member. rewrite existsb_exists. split.
  - intros (x & Hx & Heq). apply String.eqb_eq in Heq. subst.
    by apply list_elem_of_In.
  - intros Hs. exists s. split; [by apply list_elem_of_In|by apply String.eqb_refl].
Qed.

Section Fit.
Context {F : Type} `{Float64 F} `{Libm F} `{Sklearn F}.
Implicit Type self : SFA F.

(** [_fit], its checks in the order of the source. *)
Lemma fit_unfold (E : env) self (X : list (list F)) (y : option (list Z)) :
  _fit E self X y =
    match check_n_jobs E (n_jobs self) with
    | Raise e => (self, Raise e)
    | Ok nj =>
      if decide (alphabet_size self < 2) then (set__n_jobs self nj, Raise ValueError)
      else if decide (word_length self < 1) then (set__n_jobs self nj, Raise ValueError)
      else if ig_without_labels self y then (set__n_jobs self nj, Raise ValueError)
      else if negb (is_member (binning_method self) binning_methods)
      then (set__n_jobs self nj, Raise TypeError)
      else if _typed_dict self && bool_decide (64 < max_bits_of self)
      then (set_fitted (set__n_jobs self nj) (letter_widths self (fitted self)),
            Raise ValueError)
      else if _typed_dict self && bool_decide (15 < levels self)
      then (set_fitted (set__n_jobs self nj) (letter_widths self (fitted self)),
            Raise ValueError)
      else finish_fit (_binning (prepared E self X) X y)
    end.
Proof.
  unfold _fit, prepared, finish_fit.
  destruct (check_n_jobs E (n_jobs self)) as [nj|e]; [|done].
  cbn -[is_member binning_methods _binning Z.log2_up Z.pow Z.mul Z.add Z.sub
        String.eqb range].
  repeat (destruct (decide _); [reflexivity|]).
  fold (ig_without_labels self y).
  destruct (ig_without_labels self y); [reflexivity|].
  destruct (negb (is_member _ _)); [reflexivity|].
  fold (bits_of self). fold (max_bits_of self).
  destruct (_typed_dict self && bool_decide (64 < max_bits_of self)); [reflexivity|].
  destruct (_typed_dict self && bool_decide (15 < levels self)); [reflexivity|].
  unfold widths_of.
  destruct (decide (1 < levels self)) as [Hl|Hl].
  - cbn -[_binning Z.log2_up Z.pow Z.mul Z.add Z.sub range].
    rewrite quadrants_sum by lia. reflexivity.
  - reflexivity.
Qed.

Lemma check_n_jobs_ok (E : env) self :
  n_jobs self ≠ NJ_other → ∃ nj, check_n_jobs E (n_jobs self) = Ok nj.
Proof.
  intros Hnj. unfold check_n_jobs.
  destruct (n_jobs self) as [|[| |]| |]; try done; eauto.
Qed.

Lemma listed_error_dec (p : params) (y : option (list Z)) :
  listed_error p y ↔
  alphabet_size p < 2 ∨ word_length p < 1 ∨ ig_without_labels p y = true
  ∨ is_member (binning_method p) binning_methods = false.
Proof.
  unfold listed_error, ig_without_labels.
  rewrite andb_true_iff, orb_true_iff, !String.eqb_eq, negb_true_iff,
    bool_decide_eq_false.
  rewrite <- not_true_iff_false, is_member_spec.
  assert (¬ is_Some y ↔ y = None) as ->; [|done].
  destruct y; split; try done.
  intros Hn. destruct Hn. by eexists.
Qed.
End Fit.

Section FitFrame.
Context {F : Type} `{Float64 F} `{Libm F} `{Sklearn F}.
Implicit Type self : SFA F.

Lemma same_frame_refl self : same_frame self self.
Proof. by repeat split. Qed.

Lemma anova_select_frame self (dft : list (list F)) (y : list Z) self' dft' :
  anova_select self dft y = Ok (self', dft') → same_frame self self'.
Proof.
  unfold anova_select. intros Hsel.
  apply rbind_ok in Hsel as (cols & _ & Hsel).
  apply rbind_ok in Hsel as (sup & _ & Hsel).
  apply rbind_ok in Hsel as (d & _ & Hsel).
  destruct sup as [|s0 sup]; [done|]. injection Hsel as <- <-.
  by repeat split.
Qed.

Lemma binning_frame self (X : list (list F)) (y : option (list Z)) :
  same_frame self (fst (_binning self X y)).
Proof.
  unfold _binning.
  destruct (ceil_div _ _) as [num|]; [|apply same_frame_refl].
  destruct (rmap _ _) as [dft3|]; [|apply same_frame_refl].
  set (s1 := if keep_binning_dft self then set_binning_dft self dft3 else self).
  assert (same_frame self s1) as Hs1.
  { unfold s1. destruct (keep_binning_dft self); by repeat split. }
  destruct y as [labels|]; simpl.
  - destruct (anova s1) eqn:Han.
    + destruct (anova_select s1 (concat dft3) _) as [[s2 dft]|] eqn:Hsel; simpl.
      * apply anova_select_frame in Hsel.
        destruct Hs1 as (?&?&?&?&?&?&?), Hsel as (?&?&?&?&?&?&?).
        repeat split; congruence.
      * done.
    + done.
  - done.
Qed.

(** The integers of a fitted estimator, and what fitting keeps. *)
Lemma fit_ok_widths (E : env) self (X : list (list F)) (y : option (list Z)) self' :
  _fit E self X y = (self', Ok tt) →
  cfg self' = cfg self
  ∧ fitted self' = widths_of self (fitted self) (Z.of_nat (length X))
                     (Z.of_nat (length (default [] (head X))))
  ∧ words self' = words self
  ∧ _typed_dict self' = _typed_dict self
  ∧ 2 ≤ alphabet_size self ∧ 1 ≤ word_length self
  ∧ (_typed_dict self = true → max_bits_of self ≤ 64).
Proof.
  rewrite fit_unfold. intros Hfit.
  destruct (check_n_jobs E (n_jobs self)) as [nj|]; [|done].
  destruct (decide (alphabet_size self < 2)); [done|].
  destruct (decide (word_length self < 1)); [done|].
  destruct (ig_without_labels self y); [done|].
  destruct (negb _); [done|].
  destruct (_typed_dict self && bool_decide (64 < max_bits_of self)) eqn:Ht; [done|].
  destruct (_typed_dict self && bool_decide (15 < levels self)); [done|].
  pose proof (binning_frame (prepared E self X) X y) as Hfr.
  destruct (_binning (prepared E self X) X y) as [s [bps|]]; simpl in *; [|done].
  injection Hfit as <-.
  destruct Hfr as (Hc & Hf & Hw & _ & Htd & _).
  repeat split; try done; try lia.
  intros Htrue. rewrite Htrue in Ht. simpl in Ht.
  apply bool_decide_eq_false in Ht. lia.
Qed.
End FitFrame.

(** ** The checks of [_fit] *)

Section FitChecks.
Context {F : Type} `{Float64 F} `{Libm F} `{Sklearn F}.
Implicit Type self : SFA F.

Lemma typed_limit_dec (typed : bool) (p : params) :
  typed_limit typed p ↔
  typed && bool_decide (64 < max_bits_of p) = true
  ∨ typed && bool_decide (15 < levels p) = true.
Proof.
  unfold typed_limit. rewrite !andb_true_iff, !bool_decide_eq_true. tauto.
Qed.

(** Past its checks [_fit] hands over to [_binning]. *)
Lemma fit_goes_on (E : env) self (X : list (list F)) (y : option (list Z)) :
  n_jobs self ≠ NJ_other → ¬ listed_error self y →
  ¬ typed_limit (_typed_dict self) self →
  _fit E self X y = finish_fit (_binning (prepared E self X) X y).
Proof.
  intros Hnj Hok Htl. rewrite listed_error_dec in Hok.
  rewrite typed_limit_dec in Htl.
  destruct (check_n_jobs_ok E self Hnj) as [nj Hc].
  rewrite fit_unfold, Hc.
  destruct (decide (alphabet_size self < 2)); [tauto|].
  destruct (decide (word_length self < 1)); [tauto|].
  destruct (ig_without_labels self y); [tauto|].
  destruct (is_member (binning_method self) binning_methods); [|tauto].
  destruct (_typed_dict self && bool_decide (64 < max_bits_of self)); [tauto|].
  destruct (_typed_dict self && bool_decide (15 < levels self)); [tauto|].
  done.
Qed.

(** C4, as amended.  [_fit] stops in its checks, with no breakpoints, no
    words and no coefficients assigned and whatever the data, as soon as
    [check_n_jobs] refuses [n_jobs] (a value that is neither [None], nor
    an integer, nor equal to [0]: the comparison with [0] comes first, so
    that [0.0] and [False] pass for one job), or the alphabet has fewer
    than two letters, or the word has no letter, or an information-gain
    strategy comes without labels, or the binning method is unknown, or a
    typed dictionary is asked for more than 64 bits or more than 15
    levels.  In the four cases of the specification nothing but the
    number of jobs is assigned.  In every other case [_fit] goes on to
    [_binning] and ends as [_binning] does. *)
Theorem fit_stops_in_checks (E : env) self (X : list (list F)) (y : option (list Z)) :
  (n_jobs self = NJ_other ∨ listed_error self y
     ∨ typed_limit (_typed_dict self) self → stops_in_checks E self y)
  ∧ (n_jobs self ≠ NJ_other → listed_error self y →
       ∃ nj e, ∀ X', _fit E self X' y = (set__n_jobs self nj, Raise e))
  ∧ (¬ (n_jobs self = NJ_other ∨ listed_error self y
          ∨ typed_limit (_typed_dict self) self) →
       _fit E self X y = finish_fit (_binning (prepared E self X) X y)).
Proof.
  split; [|split].
  - intros Hbad. unfold stops_in_checks.
    destruct (decide (n_jobs self = NJ_other)) as [Hnj|Hnj].
    { exists self, ValueError. repeat split; try done.
      intros X'. rewrite fit_unfold. unfold check_n_jobs. by rewrite Hnj. }
    destruct (check_n_jobs_ok E self Hnj) as [nj Hc].
    assert (listed_error self y ∨ typed_limit (_typed_dict self) self)
      as Hbad' by tauto. clear Hbad.
    rewrite listed_error_dec, typed_limit_dec in Hbad'.
    destruct (decide (alphabet_size self < 2)) as [Ha|Ha].
    { exists (set__n_jobs self nj), ValueError. repeat split; try done.
      intros X'. rewrite fit_unfold, Hc. by destruct (decide _). }
    destruct (decide (word_length self < 1)) as [Hw|Hw].
    { exists (set__n_jobs self nj), ValueError. repeat split; try done.
      intros X'. rewrite fit_unfold, Hc. by repeat destruct (decide _). }
    destruct (ig_without_labels self y) eqn:Hig.
    { exists (set__n_jobs self nj), ValueError. repeat split; try done.
      intros X'. rewrite fit_unfold, Hc, Hig. by repeat destruct (decide _). }
    destruct (is_member (binning_method self) binning_methods) eqn:Hm.
    2:{ exists (set__n_jobs self nj), TypeError. repeat split; try done.
        intros X'. rewrite fit_unfold, Hc, Hig, Hm.
        by repeat destruct (decide _). }
    destruct (_typed_dict self && bool_decide (64 < max_bits_of self)) eqn:Ht.
    { exists (set_fitted (set__n_jobs self nj) (letter_widths self (fitted self))),
        ValueError. repeat split; try done.
      intros X'. rewrite fit_unfold, Hc, Hig, Hm, Ht.
      by repeat destruct (decide _). }
    destruct (_typed_dict self && bool_decide (15 < levels self)) eqn:Hl.
    { exists (set_fitted (set__n_jobs self nj) (letter_widths self (fitted self))),
        ValueError. repeat split; try done.
      intros X'. rewrite fit_unfold, Hc, Hig, Hm, Ht, Hl.
      by repeat destruct (decide _). }
    exfalso. destruct Hbad' as [[?|[?|[?|?]]]|[?|?]]; done.
  - intros Hnj Hbad. destruct (check_n_jobs_ok E self Hnj) as [nj Hc].
    rewrite listed_error_dec in Hbad. exists nj.
    destruct (decide (alphabet_size self < 2)) as [Ha|Ha].
    { exists ValueError. intros X'. rewrite fit_unfold, Hc. by destruct (decide _). }
    destruct (decide (word_length self < 1)) as [Hw|Hw].
    { exists ValueError. intros X'. rewrite fit_unfold, Hc.
      by repeat destruct (decide _). }
    destruct (ig_without_labels self y) eqn:Hig.
    { exists ValueError. intros X'. rewrite fit_unfold, Hc, Hig.
      by repeat destruct (decide _). }
    destruct (is_member (binning_method self) binning_methods) eqn:Hm.
    2:{ exists TypeError. intros X'. rewrite fit_unfold, Hc, Hig, Hm.
        by repeat destruct (decide _). }
    exfalso. destruct Hbad as [?|[?|[?|?]]]; done.
  - intros Hok. apply fit_goes_on; tauto.
Qed.

(** The encoder of a fitted estimator packs the letters it finds when
    the word has another width than 64 bits. *)
Lemma encode_pack self (dft : list F) (ls : list Z) :
  letter_bits self = Z.log2_up (alphabet_size self) →
  word_bits self = word_length self * letter_bits self →
  word_bits self ≠ 64 →
  packed_letters dft (word_length self) (alphabet_size self) (breakpoints self) = Ok ls →
  Z.of_nat (length ls) = word_length self →
  window_word self dft = Ok (pack (letter_bits self) ls).
Proof.
  intros Hlb Hwb H64 Hls Hlen. unfold window_word, _create_word, _create_word_large.
  pose proof (letters_fit _ _ (packed_letters_range _ _ _ _ _ Hls)) as Hfit.
  rewrite <- Hlb in Hfit.
  assert (0 ≤ letter_bits self) by (rewrite Hlb; apply Z.log2_up_nonneg).
  destruct (decide (word_bits self ≤ 64)).
  - rewrite create_word_with_pack, Hls. simpl. f_equal.
    apply pack_with_wrap64_small; [done|done|]. lia.
  - by rewrite create_word_with_pack, Hls.
Qed.
End FitChecks.

Lemma sized_not_listed (word_len a w : Z) (typed save numerosity : bool) :
  2 ≤ a → 1 ≤ word_len →
  ¬ listed_error (Ex.init (Ex.sized word_len a w typed save numerosity)) None.
Proof.
  intros Ha Hw. rewrite listed_error_dec. simpl.
  intros [?|[?|[?|?]]]; (lia || discriminate).
Qed.

(** With the defaults a word of 40 letters over 256 of them is fitted:
    [_fit] raises nothing. *)
Lemma default_fit_accepts_wide_words :
  __init__ Run.env0 (Ex.sized 40 256 12 false false false)
    = Ok (Ex.init (Ex.sized 40 256 12 false false false))
  ∧ snd (_fit Run.env0 (Ex.init (Ex.sized 40 256 12 false false false)) Ex.train None)
    = Ok tt.
Proof. by_computing. Qed.

(** A typed dictionary makes [_fit] fail where none of the four listed
    conditions holds. *)
Lemma typed_dictionary_is_checked_too :
  ¬ listed_error (Ex.init (Ex.sized 40 256 12 true false false)) None
  ∧ snd (_fit Run.env0 (Ex.init (Ex.sized 40 256 12 true false false)) Ex.train None)
    = Raise ValueError.
Proof. split; [apply sized_not_listed; lia|vm_compute; reflexivity]. Qed.

Lemma fit_stops_in_checks_witness :
  stops_in_checks Run.env0 (Ex.init (Ex.sized 40 256 12 true false false)) None
  ∧ (∃ nj e, ∀ X, _fit Run.env0 (Ex.init (Ex.sized 8 1 12 false false false)) X None
                  = (set__n_jobs (Ex.init (Ex.sized 8 1 12 false false false)) nj, Raise e))
  ∧ _fit Run.env0 (Ex.init (Ex.sized 2 4 8 false false false)) Ex.train None
    = finish_fit (_binning (prepared Run.env0 (Ex.init (Ex.sized 2 4 8 false false false))
                              Ex.train) Ex.train None).
Proof.
  split; [|split].
  - apply (fit_stops_in_checks Run.env0 _ Ex.train None).
    right. right. split; [reflexivity|]. left. vm_compute. reflexivity.
  - apply (fit_stops_in_checks Run.env0 _ Ex.train None); [discriminate|].
    left. simpl. lia.
  - apply (fit_stops_in_checks Run.env0 _ Ex.train None).
    intros [?|[Hl|[_ [Hb|Hb]]]].
    + discriminate.
    + revert Hl. apply sized_not_listed; lia.
    + vm_compute in Hb. discriminate.
    + vm_compute in Hb. discriminate.
Defined.

(** ** Decoding the saved words *)

(** C3.  An estimator over three letters, with words of two letters and
    one window for a series, is fitted and run on two series: the letters
    of the two words are [1; 0] and [2; 0], packed with two bits a letter
    into 4 and 8; [get_words] reads both as [0; 0], where [word_list] reads
    the letters that were packed. *)
Theorem get_words_three_letters :
  rmap (fun x => r ← _transform_words_case (transformed (Ex.sized 2 3 16 false true false)) x; Ok (fst r)) Ex.train
    = Ok [[[1; 0]]; [[2; 0]]]
  ∧ letter_bits (transformed (Ex.sized 2 3 16 false true false)) = 2
  ∧ words (transformed (Ex.sized 2 3 16 false true false)) = [[4]; [8]]
  ∧ get_words (transformed (Ex.sized 2 3 16 false true false)) = Ok [[0; 0]; [0; 0]]
  ∧ word_list (transformed (Ex.sized 2 3 16 false true false)) 4 = Letters [1; 0]
  ∧ word_list (transformed (Ex.sized 2 3 16 false true false)) 8 = Letters [2; 0].
Proof. by_computing. Qed.

(** For an alphabet of [2 ^ k] letters [_get_chars] reads back the word of
    [_create_word], also when the word fills all 64 bits. *)
Lemma get_chars_create_word {F : Type} `{Float64 F} (dft : list F) (wl k : Z)
    (bps : list (list F)) (ls : list Z) :
  0 ≤ k → wl * k ≤ 64 →
  packed_letters dft wl (2 ^ k) bps = Ok ls → Z.of_nat (length ls) = wl →
  ∃ w, _create_word dft wl (2 ^ k) bps k = Ok w ∧ _get_chars w wl (2 ^ k) = ls.
Proof.
  intros Hk Hbits Hls Hlen. exists (wrap64 (pack k ls)). split.
  - unfold _create_word. rewrite create_word_with_pack, Hls. simpl.
    by rewrite pack_with_wrap64.
  - rewrite <- Hlen. destruct (log2_pow2 k Hk) as [Hfl _].
    apply (get_chars_pack k 64); try done.
    + by eapply packed_letters_range.
    + lia.
    + apply agree_wrap64.
Qed.

(** ** Shortening: the prerequisite and the clamp *)

(** C7.  Without saved words [_shorten_bags] raises; asked for more
    letters than the words have, it answers as for the full length. *)
Theorem shorten_bags_prerequisite_and_clamp {F : Type} (self : SFA F) (word_len : Z) :
  (save_words self = false → _shorten_bags self word_len = Raise ValueError)
  ∧ (save_words self = true → word_length self < word_len →
       _shorten_bags self word_len = _shorten_bags self (word_length self)).
Proof.
  unfold _shorten_bags. split.
  - by intros ->.
  - intros -> Hlt. simpl.
    destruct (decide (word_length self < word_len)); [|lia].
    by destruct (decide (word_length self < word_length self)); [lia|].
Qed.

Lemma shorten_bags_prerequisite_and_clamp_witness :
  _shorten_bags (Ex.fit (Ex.sized 2 4 8 false false false)) 1 = Raise ValueError
  ∧ _shorten_bags (transformed (Ex.sized 2 4 8 false true false)) 5
    = _shorten_bags (transformed (Ex.sized 2 4 8 false true false)) 2
  ∧ is_ok (_shorten_bags (transformed (Ex.sized 2 4 8 false true false)) 5) = true.
Proof.
  split; [|split].
  - apply (proj1 (shorten_bags_prerequisite_and_clamp
                    (Ex.fit (Ex.sized 2 4 8 false false false)) 1)).
    vm_compute. reflexivity.
  - apply (proj2 (shorten_bags_prerequisite_and_clamp
                    (transformed (Ex.sized 2 4 8 false true false)) 5));
      vm_compute; reflexivity.
  - vm_compute. reflexivity.
Defined.

(** ** The loop over the windows *)

Section Loop.
Context {F : Type} `{Float64 F} `{Libm F}.
Implicit Type self : SFA F.

Lemma foldl_snoc_step {A B : Type} (f : A → B → A) (a : A) (l : list B) (b : B) :
  foldl f a (l ++ [b]) = f (foldl f a l) b.
Proof. by rewrite foldl_app. Qed.

Lemma zip_range_snoc {A : Type} (l : list A) (a : A) :
  zip (range (Z.of_nat (length (l ++ [a])))) (l ++ [a])
  = zip (range (Z.of_nat (length l))) l ++ [(Z.of_nat (length l), a)].
Proof.
  rewrite length_app. simpl.
  replace (Z.of_nat (length l + 1)) with (Z.of_nat (length l) + 1) by lia.
  rewrite range_succ by lia.
  rewrite zip_with_app; [done|]. rewrite range_length. lia.
Qed.

(** [window_step] reads earlier words only at the places it asks for. *)
Lemma window_step_ext self (e1 e2 : Z → result Z) (st : loop_state) (window word : Z) :
  (∀ j, 0 ≤ j → (j = window - window_size self
                 ∨ j = window - 2 * window_size self
                 ∨ j = window - 3 * window_size self) → e1 j = e2 j) →
  window_step self e1 st window word = window_step self e2 st window word.
Proof.
  intros He. unfold window_step.
  destruct (if decide (1 < levels self) then _ else _) as [[bag rw]|]; simpl; [|done].
  assert (∀ b, (if bigrams self && bool_decide (0 ≤ window - window_size self)
                then w ← e1 (window - window_size self);
                     Ok (bag_add b (ngram_key self (_create_bigram_words self word w)) 1)
                else Ok b)
             = (if bigrams self && bool_decide (0 ≤ window - window_size self)
                then w ← e2 (window - window_size self);
                     Ok (bag_add b (ngram_key self (_create_bigram_words self word w)) 1)
                else Ok b)) as Hb.
  { intros b. destruct (bigrams self); simpl; [|done]. case_bool_decide; [|done].
    rewrite He; [done|done|by left]. }
  rewrite Hb. destruct (if bigrams self && _ then _ else _) as [bag'|]; simpl; [|done].
  destruct (skip_grams self); [|done].
  cbn -[Z.mul Z.sub Z.le].
  change (2 + Z.of_nat 0) with 2. change (2 + Z.of_nat 1) with 3.
  destruct (decide (0 ≤ window - 2 * window_size self)) as [H2|H2];
    destruct (decide (0 ≤ window - 3 * window_size self)) as [H3|H3];
    try rewrite (He (window - 2 * window_size self) H2) by (by right; left);
    try rewrite (He (window - 3 * window_size self) H3) by (by right; right);
    reflexivity.
Qed.

(** [window_step] looks at the estimator through the switches and widths
    of the bag only. *)
Lemma window_step_config self (s : SFA F) (e : Z → result Z) (st : loop_state)
    (window word : Z) :
  same_bag_config self s → same_keys self s →
  window_step s e st window word = window_step self e st window word.
Proof.
  intros (Hr & Hl & Hw & Hb & Hs & Ht & Hv & Hn & _ & _) Hk.
  unfold window_step, _add_to_pyramid, _add_to_bag, ngram_key, _create_bigram_words,
    _create_bigram_word_large, _add_level_large.
  rewrite Hr, Hl, Hw, Hb, Hs, Ht, Hv, Hn.
  destruct Hk as [[Hwb Hmb]|(Hb0 & Hs0 & Hp)].
  - by rewrite Hwb, Hmb.
  - rewrite Hb0, Hs0. simpl.
    destruct (decide (1 < levels self)) as [Hlev|]; [|done].
    destruct (remove_repeat_words self && bool_decide (word = st_last_word st)); [done|].
    destruct Hp as [?|[Htd|Hp]]; [lia| |].
    + by rewrite Htd.
    + destruct (_typed_dict self); [done|].
      destruct (decide (word_bits s + level_bits self ≤ 64)),
        (decide (word_bits self + level_bits self ≤ 64)); try done; tauto.
Qed.

Lemma foldl_ext_in {A B : Type} (f g : A → B → A) (a : A) (l : list B) :
  (∀ a' b, b ∈ l → f a' b = g a' b) → foldl f a l = foldl g a l.
Proof.
  revert a. induction l as [|b l IH]; intros a Hfg; simpl; [done|].
  rewrite Hfg by left. apply IH. intros a' b' Hb'. apply Hfg. by right.
Qed.

Lemma elem_of_zip_range {A : Type} (l : list A) (i : Z) (a : A) :
  (i, a) ∈ zip (range (Z.of_nat (length l))) l → 0 ≤ i ∧ l !! Z.to_nat i = Some a.
Proof.
  intros Hin. apply list_elem_of_lookup in Hin as [k Hk].
  apply lookup_zip_with_Some in Hk as (i' & a' & [= <- <-] & Hi & Ha).
  assert (k < Z.to_nat (Z.of_nat (length l)))%nat as Hlt.
  { apply lookup_lt_Some in Ha. lia. }
  rewrite range_lookup in Hi by done. injection Hi as <-.
  rewrite Nat2Z.id. split; [lia|done].
Qed.

(** The loop over a prefix of the words does not look beyond it. *)
Lemma run_windows_prefix self (ws rest : list Z) :
  0 ≤ window_size self →
  foldl (fun acc '(window, word) =>
           st ← acc; window_step self (index (ws ++ rest)) st window word)
        (Ok loop_init) (zip (range (Z.of_nat (length ws))) ws)
  = run_windows self ws.
Proof.
  intros Hw. unfold run_windows. apply foldl_ext_in.
  intros acc [window word] Hin. destruct acc as [st|]; simpl; [|done].
  apply elem_of_zip_range in Hin as [Hw0 Hword].
  apply window_step_ext. intros j Hj Hcase. unfold index.
  destruct (decide (j < 0)); [done|].
  rewrite lookup_app_l; [done|]. apply lookup_lt_Some in Hword. lia.
Qed.

Lemma run_windows_snoc self (ws : list Z) (w : Z) :
  0 ≤ window_size self →
  run_windows self (ws ++ [w])
  = (st ← run_windows self ws;
     window_step self (index (ws ++ [w])) st (Z.of_nat (length ws)) w).
Proof.
  intros Hw. rewrite <- (run_windows_prefix self ws [w] Hw).
  unfold run_windows at 1. by rewrite zip_range_snoc, foldl_snoc_step.
Qed.

Lemma rmap_snoc {A B : Type} (f : A → result B) (l : list A) (a : A) :
  rmap f (l ++ [a]) = (bs ← rmap f l; b ← f a; Ok (bs ++ [b])).
Proof.
  induction l as [|a' l IH]; simpl.
  - by destruct (f a).
  - destruct (f a') as [b'|]; simpl; [|done]. rewrite IH.
    destruct (rmap f l); simpl; [|done]. by destruct (f a).
Qed.

(** [_transform_case] on the rows of a series: the words of the windows,
    then the loop over them. *)
Lemma transform_rows_run self (dfts : list (list F)) (ws : list Z) :
  0 ≤ window_size self → rmap (window_word self) dfts = Ok ws →
  transform_rows self dfts
  = (st ← run_windows self ws; Ok (st_bag st, if save_words self then ws else [])).
Proof.
  intros Hw Henc. unfold transform_rows.
  assert (∀ n, (length dfts ≤ n)%nat →
    foldl (fun acc '(window, dft) =>
             '(st, words) ← acc;
             word_raw ← window_word self dft;
             let words := <[Z.to_nat window := word_raw]> words in
             st ← window_step self (index words) st window word_raw;
             Ok (st, words))
          (Ok (loop_init, replicate n 0))
          (zip (range (Z.of_nat (length dfts))) dfts)
    = (st ← run_windows self ws;
       Ok (st, ws ++ replicate (n - length dfts) 0))) as Hloop.
  { intros n. revert ws Henc.
    induction dfts as [|d dfts IH] using rev_ind; intros ws Henc Hn.
    - injection Henc as <-. simpl. by rewrite Nat.sub_0_r.
    - rewrite rmap_snoc in Henc.
      apply rbind_ok in Henc as (ws1 & Hws1 & Henc).
      apply rbind_ok in Henc as (w & Hw1 & [= <-]).
      rewrite length_app in Hn. simpl in Hn.
      rewrite zip_range_snoc, foldl_snoc_step, (IH ws1 Hws1) by lia.
      rewrite run_windows_snoc by done.
      assert (length ws1 = length dfts) as Hl by (by apply rmap_length in Hws1).
      destruct (run_windows self ws1) as [st|]; simpl; [|done].
      rewrite Hw1. simpl. rewrite Nat2Z.id, <- Hl.
      replace (n - length ws1)%nat with (S (n - length (dfts ++ [d])))
        by (rewrite length_app; simpl; lia).
      rewrite insert_app_r_alt, Nat.sub_diag by done. simpl.
      replace (ws1 ++ w :: replicate (n - length (dfts ++ [d])) 0)
        with ((ws1 ++ [w]) ++ replicate (n - length (dfts ++ [d])) 0)
        by (by rewrite <- app_assoc).
      rewrite (window_step_ext self (index ((ws1 ++ [w]) ++ _)) (index (ws1 ++ [w]))).
      + by destruct (window_step _ _ _ _ _).
      + intros j Hj Hcase. unfold index. destruct (decide (j < 0)); [done|].
        rewrite lookup_app_l; [done|]. rewrite length_app. simpl. lia. }
  specialize (Hloop (length dfts) (le_n _)).
  rewrite Nat.sub_diag, app_nil_r in Hloop.
  etrans; [|by instantiate (1 := '(st, words) ← (st ← run_windows self ws; Ok (st, ws));
               Ok (st_bag st, if save_words self then words else []));
             destruct (run_windows self ws)].
  f_equal. exact Hloop.
Qed.
End Loop.

Section ShortenLoop.
Context {F : Type} `{Float64 F} `{Libm F}.
Implicit Type self : SFA F.

(** [_shorten_case] on the saved words of a series: the shortened words,
    then the loop over them. *)
Lemma shorten_case_run self (word_len i : Z) (saved ws : list Z) :
  index (words self) i = Ok saved →
  rmap (fun w => _shorten_words self w word_len) saved = Ok ws →
  _shorten_case self word_len i = (st ← run_windows self ws; Ok (st_bag st)).
Proof.
  intros Hsaved Hws. unfold _shorten_case. rewrite Hsaved. simpl.
  assert (∀ j, (w ← index saved j; _shorten_words self w word_len) = index ws j)
    as Hearlier.
  { intros j. unfold index. destruct (decide (j < 0)); [done|].
    destruct (saved !! Z.to_nat j) as [w|] eqn:Hj; simpl.
    - destruct (rmap_lookup _ _ _ _ _ Hws Hj) as (b & -> & ->). done.
    - rewrite lookup_ge_None_2; [done|].
      apply rmap_length in Hws. apply lookup_ge_None_1 in Hj. lia. }
  assert (∀ (idx saved' ws' : list Z) (acc : result loop_state),
    rmap (fun w => _shorten_words self w word_len) saved' = Ok ws' →
    foldl (fun acc '(window, word) =>
             st ← acc;
             new_word ← _shorten_words self word word_len;
             window_step self
               (fun j => w ← index saved j; _shorten_words self w word_len)
               st window new_word)
          acc (zip idx saved')
    = foldl (fun acc '(window, word) =>
               st ← acc; window_step self (index ws) st window word)
            acc (zip idx ws')) as Hloop.
  { intros idx saved'. revert idx.
    induction saved' as [|a saved' IH]; intros idx ws' acc Hws'.
    - injection Hws' as <-. by destruct idx.
    - simpl in Hws'. apply rbind_ok in Hws' as (a' & Ha' & Hws').
      apply rbind_ok in Hws' as (ws2 & Hws2 & [= <-]).
      destruct idx as [|k idx]; [done|]. simpl.
      rewrite (IH idx ws2 _ Hws2). f_equal.
      destruct acc as [st|]; simpl; [|done]. rewrite Ha'. simpl.
      apply window_step_ext. intros j _ _. apply Hearlier. }
  rewrite (Hloop _ saved ws _ Hws). unfold run_windows.
  assert (length ws = length saved) as -> by (by apply rmap_length in Hws).
  done.
Qed.
End ShortenLoop.

(** ** Shortening against a transform from scratch *)

Section ShortenScratch.
Context {F : Type} `{Float64 F} `{Libm F}.
Implicit Type self : SFA F.

Lemma run_windows_config self (s : SFA F) (ws : list Z) :
  same_bag_config self s → same_keys self s →
  run_windows s ws = run_windows self ws.
Proof.
  intros Hc Hk. unfold run_windows. apply foldl_ext_in.
  intros acc [window word] _. destruct acc as [st|]; simpl; [|done].
  by apply window_step_config.
Qed.

Lemma letter_at_agree (dft dft' : list F) (bps bps' : list (list F)) (a i : Z) (n : nat) :
  take n dft' = take n dft → take n bps' = take n bps → 0 ≤ i → (Z.to_nat i < n)%nat →
  letter_at dft' bps' a i = letter_at dft bps a i.
Proof.
  intros Hd Hb Hi Hn. unfold letter_at, index.
  destruct (decide (a ≤ 0)); [done|]. destruct (decide (i < 0)); [lia|].
  rewrite <- (lookup_take_lt dft' n), <- (lookup_take_lt bps' n) by done.
  rewrite Hd, Hb. by rewrite !lookup_take_lt by done.
Qed.

Lemma packed_letters_agree (dft dft' : list F) (bps bps' : list (list F)) (a L : Z) :
  take (Z.to_nat L) dft' = take (Z.to_nat L) dft →
  take (Z.to_nat L) bps' = take (Z.to_nat L) bps →
  packed_letters dft' L a bps' = packed_letters dft L a bps.
Proof.
  intros Hd Hb. unfold packed_letters. f_equal. apply rmap_ext.
  intros i Hi. apply elem_of_range in Hi.
  apply (letter_at_agree _ _ _ _ _ _ (Z.to_nat L)); try done; lia.
Qed.

(** The word of a window whose letters are known. *)
Lemma encode_letters self (dft : list F) (ls : list Z) :
  0 ≤ letter_bits self → fits (letter_bits self) ls →
  packed_letters dft (word_length self) (alphabet_size self) (breakpoints self) = Ok ls →
  (word_bits self ≤ 64 → Z.of_nat (length ls) * letter_bits self ≤ 63) →
  window_word self dft = Ok (pack (letter_bits self) ls).
Proof.
  intros Hlb Hfit Hls Hsmall. unfold window_word, _create_word, _create_word_large.
  rewrite !create_word_with_pack, Hls. simpl.
  destruct (decide (word_bits self ≤ 64)); [|done].
  f_equal. apply pack_with_wrap64_small; auto.
Qed.

(** Shortening a packed word keeps its first letters. *)
Lemma shorten_words_pack self (ls : list Z) (L : Z) :
  0 ≤ letter_bits self → fits (letter_bits self) ls →
  Z.of_nat (length ls) = word_length self → 0 ≤ L ≤ word_length self →
  _shorten_words self (pack (letter_bits self) ls) L
  = Ok (pack (letter_bits self) (take (Z.to_nat L) ls)).
Proof.
  intros Hlb Hfit Hlen HL.
  assert (Z.shiftr (pack (letter_bits self) ls)
            ((word_length self - L) * letter_bits self)
          = pack (letter_bits self) (take (Z.to_nat L) ls)) as Hshift.
  { rewrite <- (take_drop (Z.to_nat L) ls) at 1.
    replace (word_length self - L) with (Z.of_nat (length (drop (Z.to_nat L) ls)))
      by (rewrite length_drop; lia).
    apply pack_shiftr; [done|]. by apply Forall_drop. }
  unfold _shorten_words, _shorten_word, _shorten_word_large.
  assert (¬ (word_length self - L) * letter_bits self < 0) by nia.
  destruct (decide (word_bits self ≤ 64));
    (destruct (decide (_ < 0)); [done|]); by rewrite Hshift.
Qed.

(** What the amended claim C1 rests on, for one series: the bag of
    [_shorten_case] is the bag of [_transform_case] by an estimator for
    the shorter words on rows with the same first coefficients. *)
Lemma shorten_case_scratch self (s : SFA F) (L i : Z)
    (rows rows' : list (list F)) (saved : list Z) :
  fitted_widths self → word_bits self ≠ 64 →
  1 ≤ L ≤ word_length self → 0 ≤ window_size self →
  index (words self) i = Ok saved → rmap (window_word self) rows = Ok saved →
  Forall (all_letters self) rows →
  scratch_for self L s →
  Forall2 (fun r r' => take (Z.to_nat L) r' = take (Z.to_nat L) r) rows rows' →
  _shorten_case self L i = (r ← transform_rows s rows'; Ok (fst r)).
Proof.
  intros [Hlb Hwb] H64 HL Hws Hsaved Henc Hall (HwL & Hcfg & Hkeys & Hbps & Hroom & Hs64)
    Hrows.
  assert (0 ≤ letter_bits self) as Hlb0 by (rewrite Hlb; apply Z.log2_up_nonneg).
  destruct Hcfg as (Hr & Hl & Hw & Hb & Hsk & Ht & Hv & Hn & Ha & Hlbs).
  (* the words of the shorter estimator are the shortened saved words *)
  assert (∃ short,
    rmap (fun w => _shorten_words self w L) saved = Ok short
    ∧ rmap (window_word s) rows' = Ok short) as (short & Hshort & Hencs).
  { clear Hsaved. revert rows' saved Henc Hrows.
    induction Hall as [|row rows (ls & Hls & Hlen) _ IH]; intros rows' saved Henc Hrows.
    - injection Henc as <-. apply Forall2_nil_inv_l in Hrows as ->. by exists [].
    - apply Forall2_cons_inv_l in Hrows as (row' & rows'' & Hrow & Hrows & ->).
      simpl in Henc. apply rbind_ok in Henc as (w & Hw1 & Henc).
      apply rbind_ok in Henc as (saved' & Hsaved' & [= <-]).
      destruct (IH rows'' saved' Hsaved' Hrows) as (short' & Hsh & Hen).
      pose proof (letters_fit _ _ (packed_letters_range _ _ _ _ _ Hls)) as Hfit.
      rewrite <- Hlb in Hfit.
      rewrite (encode_letters self row ls) in Hw1; try done.
      2:{ intros Hle. rewrite Hlen, <- Hwb. lia. }
      injection Hw1 as <-.
      exists (pack (letter_bits self) (take (Z.to_nat L) ls) :: short').
      simpl. rewrite shorten_words_pack by (done || lia). simpl.
      rewrite Hsh. simpl. split; [done|].
      rewrite (encode_letters s row' (take (Z.to_nat L) ls)); rewrite ?Hlbs; try done.
      + simpl. by rewrite Hen.
      + by apply Forall_take.
      + rewrite HwL, Ha.
        rewrite (packed_letters_agree row row' (breakpoints self)) by done.
        by apply (packed_letters_take _ (word_length self)); [lia| |].
      + intros Hle. rewrite length_take.
        replace (Z.of_nat (Z.to_nat L `min` length ls)) with L by lia. lia. }
  rewrite (shorten_case_run self L i saved short Hsaved Hshort).
  rewrite (transform_rows_run s rows' short) by (by rewrite ?Hw).
  rewrite (run_windows_config self s) by (by repeat split).
  by destruct (run_windows self short).
Qed.
End ShortenScratch.

Section ShortenBags.
Context {F : Type} `{Float64 F} `{Libm F}.
Implicit Type self : SFA F.

Lemma transform_empty self : _transform self [] = (self, Raise ValueError).
Proof. done. Qed.

Lemma transform_ok_nonempty self self' (X : list (list F))
    (bags : list (list (gmap key Z))) :
  _transform self X = (self', Ok bags) → X ≠ [].
Proof. intros Htr ->. by rewrite transform_empty in Htr. Qed.

Lemma transform_unfold self (X : list (list F)) :
  X ≠ [] →
  _transform self X =
    match rmap (fun '(i, x) => rows ← rows_of self i x; transform_rows self rows)
               (zip (range (Z.of_nat (length X))) X) with
    | Raise e => (self, Raise e)
    | Ok transform =>
        (if save_words self then set_words self (snd <$> transform) else self,
         Ok [fst <$> transform])
    end.
Proof.
  intros HX. unfold _transform.
  rewrite (rmap_ext _ (fun '(i, x) => rows ← rows_of self i x; transform_rows self rows)).
  - destruct (rmap _ _) as [[|t transform]|] eqn:Htf; [|done|done].
    apply rmap_length in Htf. rewrite length_zip_with, range_length in Htf.
    destruct X; [done|]. simpl in Htf. lia.
  - intros [i x] _. unfold rows_of, _transform_case.
    destruct (keep_binning_dft self); simpl.
    + destruct (binning_dft self) as [d|]; simpl; [|done].
      by destruct (index d i).
    + by destruct (_mft self x).
Qed.

Lemma rmap_zip_range {A B C : Type} (g : Z * A → result B) (f : Z → result C)
    (h : B → C) (X : list A) :
  (∀ (i : nat) x, X !! i = Some x →
     f (Z.of_nat i) = (b ← g (Z.of_nat i, x); Ok (h b) : result C)) →
  rmap f (range (Z.of_nat (length X)))
  = (bs ← rmap g (zip (range (Z.of_nat (length X))) X);
     Ok (map h bs) : result (list C)).
Proof.
  induction X as [|x X IH] using rev_ind; intros Hfg; [done|].
  rewrite zip_range_snoc, length_app. simpl.
  replace (Z.of_nat (length X + 1)) with (Z.of_nat (length X) + 1) by lia.
  rewrite range_succ, !rmap_snoc by lia.
  rewrite IH.
  2:{ intros i x' Hi. apply Hfg. by apply lookup_app_l_Some. }
  destruct (rmap g _) as [bs|]; simpl; [|done].
  rewrite (Hfg (length X) x) by (by rewrite lookup_app_r, Nat.sub_diag).
  destruct (g _); simpl; [|done]. by rewrite map_app.
Qed.

Lemma rmap_zip_lookup {A B : Type} (g : Z * A → result B) (X : list A) (bs : list B)
    (i : nat) (x : A) :
  rmap g (zip (range (Z.of_nat (length X))) X) = Ok bs → X !! i = Some x →
  ∃ b, bs !! i = Some b ∧ g (Z.of_nat i, x) = Ok b.
Proof.
  intros Hbs Hx. apply (rmap_lookup _ _ _ i (Z.of_nat i, x) Hbs).
  apply lookup_zip_with_Some. exists (Z.of_nat i), x. split; [done|]. split; [|done].
  apply range_lookup. apply lookup_lt_Some in Hx. lia.
Qed.

(** C1, as amended.  The estimator [self] has transformed the series [X]
    and saved their words; its words are narrower than 64 bits and its
    keys no wider than 64 bits, no breakpoint is NaN and every
    coefficient has fallen into a bin.  Then shortening to [L] letters
    gives the bags of a transform of [X] by any estimator [s] for words
    of [L] letters, with words narrower than 64 bits and keys no wider
    than 64 bits, that reads the first [L] rows of the breakpoints and
    the same first [L] coefficients, and that either keeps the widths of
    [self] (the estimator itself with its word length set to [L]) or
    counts no bigrams and no skip-grams (an estimator fitted from scratch
    for [L] letters). *)
Theorem shorten_bags_from_scratch self self' (s : SFA F) (X : list (list F)) (L : Z)
    (bags : list (list (gmap key Z))) (R R' : list (list (list F))) :
  _transform self X = (self', Ok bags) → save_words self = true →
  fitted_widths self → word_bits self < 64 → max_bits self ≤ 64 →
  word_bits s < 64 → max_bits s ≤ 64 →
  no_nan (breakpoints self) →
  1 ≤ L ≤ word_length self → 0 ≤ window_size self →
  scratch_for self L s →
  rmap (fun '(i, x) => rows_of self i x) (zip (range (Z.of_nat (length X))) X) = Ok R →
  rmap (fun '(i, x) => rows_of s i x) (zip (range (Z.of_nat (length X))) X) = Ok R' →
  Forall (Forall (all_letters self)) R →
  Forall2 (Forall2 (fun r r' => take (Z.to_nat L) r' = take (Z.to_nat L) r)) R R' →
  _shorten_bags self' L = snd (_transform s X).
Proof.
  intros Htr Hsave Hfw Hlt64 _ _ _ _ HL Hws Hscr HR HR' Hall Hagree.
  assert (word_bits self ≠ 64) as H64 by lia.
  pose proof (transform_ok_nonempty _ _ _ _ Htr) as HX.
  rewrite transform_unfold in Htr by done. rewrite Hsave in Htr.
  destruct (rmap _ _) as [transform|] eqn:Htf in Htr; [|done].
  injection Htr as <- <-.
  rewrite transform_unfold by done.
  unfold _shorten_bags. simpl. rewrite Hsave. simpl.
  destruct (decide (word_length self < L)); [lia|].
  assert (length transform = length X) as Hlen.
  { apply rmap_length in Htf. rewrite Htf, length_zip_with, range_length. lia. }
  rewrite length_fmap, Hlen.
  rewrite (rmap_zip_range
             (fun '(i, x) => rows ← rows_of s i x; transform_rows s rows)
             _ fst).
  { destruct (rmap (fun '(i, x) => rows ← rows_of s i x; transform_rows s rows) _)
      as [t|]; simpl; [|done]. by destruct (save_words s). }
  intros i x Hx.
  destruct (rmap_zip_lookup _ _ _ i x Htf Hx) as ([bag saved] & Hti & Hgi).
  destruct (rmap_zip_lookup _ _ _ i x HR Hx) as (rows & HRi & Hrows).
  destruct (rmap_zip_lookup _ _ _ i x HR' Hx) as (rows' & HRi' & Hrows').
  rewrite Hrows in Hgi. simpl in Hgi. rewrite Hrows'. simpl.
  pose proof (Forall_lookup_1 _ _ _ _ Hall HRi) as Hall_i.
  pose proof (Forall2_lookup_lr _ _ _ _ _ _ Hagree HRi HRi') as Hagree_i.
  destruct Hfw as [Hlb Hwb].
  assert (0 ≤ letter_bits self) as Hlb0 by (rewrite Hlb; apply Z.log2_up_nonneg).
  assert (∃ ws, rmap (window_word self) rows = Ok ws) as [ws Henc].
  { clear -Hall_i Hlb Hwb H64 Hlb0. induction Hall_i as [|row rows (ls & Hls & Hl) _ IH].
    - by exists [].
    - destruct IH as [ws Hws]. simpl.
      rewrite (encode_letters self row ls); try done.
      + simpl. rewrite Hws. simpl. by eexists.
      + rewrite Hlb. by eapply letters_fit, packed_letters_range.
      + intros Hle. rewrite Hl, <- Hwb. lia. }
  rewrite (transform_rows_run self rows ws Hws Henc), Hsave in Hgi.
  destruct (run_windows self ws) as [st|] eqn:Hrun; simpl in Hgi; [|done].
  injection Hgi as <- <-.
  apply (shorten_case_scratch (set_words self (snd <$> transform)) s L
           (Z.of_nat i) rows rows' ws); try done.
  apply index_nat. simpl. by rewrite list_lookup_fmap, Hti.
Qed.
End ShortenBags.

(** ** Numerosity reduction and the first window *)

Section Numerosity.
Context {F : Type} `{Float64 F} `{Libm F}.
Implicit Type self : SFA F.

Lemma packed_letters_length (dft : list F) (wl a : Z) (bps : list (list F))
    (ls : list Z) :
  packed_letters dft wl a bps = Ok ls → (length ls ≤ Z.to_nat wl)%nat.
Proof.
  unfold packed_letters. intros Hls. apply rbind_ok in Hls as (bs & Hbs & [= <-]).
  apply rmap_length in Hbs. rewrite range_length in Hbs.
  pose proof (omap_length_le id bs). lia.
Qed.

(** Words of another width than 64 bits are not negative, so that none is
    the value [-1] with which [last_word] starts. *)
Lemma encode_nonneg self (dft : list F) (w : Z) :
  fitted_widths self → 0 ≤ word_length self → word_bits self ≠ 64 →
  window_word self dft = Ok w → 0 ≤ w.
Proof.
  intros [Hlb Hwb] Hwl H64 Henc.
  assert (0 ≤ letter_bits self) as Hlb0 by (rewrite Hlb; apply Z.log2_up_nonneg).
  unfold window_word, _create_word, _create_word_large in Henc.
  rewrite !create_word_with_pack in Henc.
  destruct (packed_letters _ _ _ _) as [ls|] eqn:Hls; [|by destruct (decide _)].
  pose proof (letters_fit _ _ (packed_letters_range _ _ _ _ _ Hls)) as Hfit.
  rewrite <- Hlb in Hfit.
  pose proof (pack_bound _ _ Hlb0 Hfit) as [Hpos _].
  apply packed_letters_length in Hls.
  destruct (decide (word_bits self ≤ 64)); simpl in Henc; injection Henc as <-.
  - rewrite pack_with_wrap64_small; [done|done|done|].
    assert (Z.of_nat (length ls) * letter_bits self
            ≤ word_length self * letter_bits self) by nia. lia.
  - done.
Qed.

(** The loop on [n] windows with the same word [w], without pyramid,
    bigrams or skip-grams, when [w] is not [-1]. *)
Lemma run_windows_constant self (n : nat) (w : Z) :
  levels self ≤ 1 → bigrams self = false → skip_grams self = false →
  0 ≤ window_size self → w ≠ -1 →
  run_windows self (replicate (S n) w)
  = Ok {| st_bag := {[KInt w := if remove_repeat_words self then 1
                                 else Z.of_nat (S n)]};
          st_last_word := w;
          st_repeat_words := if remove_repeat_words self then Z.of_nat n else 0 |}.
Proof.
  intros Hlev Hbi Hsk Hws Hw.
  assert (∀ st window,
    window_step self (index (replicate (S n) w)) st window w
    = Ok (let '(bag, rw) := _add_to_bag self (st_bag st) w (st_last_word st) in
          {| st_bag := bag;
             st_last_word := if rw then st_last_word st else w;
             st_repeat_words := if rw then st_repeat_words st + 1 else 0 |})) as Hstep.
  { intros st window. unfold window_step.
    destruct (decide (1 < levels self)); [lia|]. simpl.
    destruct (_add_to_bag _ _ _ _) as [bag rw]. simpl.
    by rewrite Hbi, Hsk. }
  induction n as [|n IH].
  - unfold run_windows. simpl. unfold window_step.
    destruct (decide (1 < levels self)); [lia|]. simpl.
    unfold _add_to_bag. rewrite bool_decide_eq_false_2 by done.
    rewrite andb_false_r. simpl. rewrite Hbi, Hsk. simpl.
    unfold bag_add. rewrite lookup_empty. simpl. rewrite insert_empty.
    by destruct (remove_repeat_words self).
  - replace (replicate (S (S n)) w) with (replicate (S n) w ++ [w])
      by (by rewrite <- replicate_S_end).
    rewrite run_windows_snoc by done.
    rewrite IH.
    2:{ intros st window. unfold window_step.
        destruct (decide (1 < levels self)); [lia|]. simpl.
        destruct (_add_to_bag _ _ _ _) as [bag rw]. simpl.
        by rewrite Hbi, Hsk. }
    simpl. unfold window_step.
    destruct (decide (1 < levels self)); [lia|]. cbn -[replicate Z.of_nat].
    unfold _add_to_bag. cbn -[replicate Z.of_nat].
    rewrite bool_decide_eq_true_2 by done. rewrite andb_true_r.
    rewrite Hbi, Hsk.
    destruct (remove_repeat_words self); cbn -[replicate Z.of_nat].
    + do 2 f_equal. lia.
    + unfold bag_add. rewrite lookup_singleton_eq. cbn -[replicate Z.of_nat].
      rewrite insert_singleton_eq. do 3 f_equal. lia.
Qed.

Lemma total_count_singleton (k : key) (v : Z) : total_count {[k := v]} = v.
Proof.
  unfold total_count. rewrite map_fold_singleton. lia.
Qed.

(** What holds of claim C8 and of claim C9: when all the windows of a
    series have the same word, and this word is not [-1] (as with every
    width but 64 bits), the bag counts the word once under numerosity
    reduction and once for every window without it. *)
Lemma constant_series_counts self (dfts : list (list F)) (w : Z) :
  levels self ≤ 1 → bigrams self = false → skip_grams self = false →
  0 ≤ window_size self → dfts ≠ [] →
  Forall (fun dft => window_word self dft = Ok w) dfts → w ≠ -1 →
  ∃ bag ws, transform_rows self dfts = Ok (bag, ws)
    ∧ bag = {[KInt w := if remove_repeat_words self then 1
                        else Z.of_nat (length dfts)]}
    ∧ total_count bag
      = if remove_repeat_words self then 1 else Z.of_nat (length dfts).
Proof.
  intros Hlev Hbi Hsk Hws Hne Hall Hw.
  assert (rmap (window_word self) dfts = Ok (replicate (length dfts) w)) as Henc.
  { clear Hne. induction Hall as [|d dfts Hd _ IH]; [done|].
    simpl. by rewrite Hd, IH. }
  rewrite (transform_rows_run self dfts _ Hws Henc).
  destruct dfts as [|d dfts]; [done|]. simpl length.
  rewrite run_windows_constant by done. simpl.
  eexists _, _. split; [done|]. split; [done|].
  apply total_count_singleton.
Qed.
End Numerosity.

(** Two inputs on which shortening and a transform from scratch differ.
    With bigrams, words of two letters over four shortened to one letter:
    the bigram of the words 1 and 3 is counted under the key
    [(1 << 4) | 3 = 19] by [_shorten_bags], which shifts by the width of the
    fitted words, and under [(1 << 2) | 3 = 7] by the estimator fitted for
    one letter.  With words of 64 bits: the saved word is [-1], its
    shortening [-1 >> 56 = -1], and the word from scratch 255. *)
Lemma shortening_differs_from_scratch :
  (breakpoints (Ex.fit (Ex.grams 1 4 8)) = take 1 (breakpoints (Ex.fit (Ex.grams 2 4 8)))
   ∧ counts_of (KInt 19) (_shorten_bags (transformed (Ex.grams 2 4 8)) 1)
     = Ok [[Some 1; None]]
   ∧ counts_of (KInt 19) (snd (_transform (Ex.fit (Ex.grams 1 4 8)) Ex.train))
     = Ok [[None; None]]
   ∧ _shorten_bags (transformed (Ex.grams 2 4 8)) 1
     ≠ snd (_transform (Ex.fit (Ex.grams 1 4 8)) Ex.train))
  ∧ (breakpoints (Ex.fit_on [Ex.down] (Ex.byte false))
     = take 1 (breakpoints (Ex.fit_on [Ex.down] (Ex.bytes false)))
     ∧ counts_of (KInt (-1))
         (_shorten_bags (fst (_transform (Ex.fit_on [Ex.down] (Ex.bytes false)) [Ex.up])) 1)
       = Ok [[Some 1]]
     ∧ counts_of (KInt (-1))
         (snd (_transform (Ex.fit_on [Ex.down] (Ex.byte false)) [Ex.up]))
       = Ok [[None]]).
Proof.
  assert (counts_of (KInt 19) (_shorten_bags (transformed (Ex.grams 2 4 8)) 1)
          = Ok [[Some 1; None]]) as H1 by (vm_compute; reflexivity).
  assert (counts_of (KInt 19) (snd (_transform (Ex.fit (Ex.grams 1 4 8)) Ex.train))
          = Ok [[None; None]]) as H2 by (vm_compute; reflexivity).
  repeat match goal with |- _ ∧ _ => split end;
    try match goal with |- _ = _ => vm_compute; reflexivity end.
  intros Heq.
  pose proof (eq_trans (eq_sym H1) (eq_trans (f_equal (counts_of (KInt 19)) Heq) H2))
    as Hno.
  discriminate Hno.
Qed.

Lemma short_estimators :
  short2 = Ex.fit (Ex.sized 2 4 8 false true false)
  ∧ short1 = Ex.fit (Ex.sized 1 4 8 false true false)
  ∧ snd (_fit Run.env0 (Ex.init (Ex.sized 1 4 8 false true false)) Ex.train None) = Ok tt
  ∧ short2_done = fst (_transform short2 Ex.train).
Proof. by_computing. Qed.

Lemma shorten_bags_from_scratch_witness :
  _shorten_bags short2_done 1 = snd (_transform short1 Ex.train).
Proof.
  eapply (shorten_bags_from_scratch short2 short2_done short1 Ex.train 1).
  - vm_compute. reflexivity.
  - reflexivity.
  - split; reflexivity.
  - reflexivity.
  - vm_compute. discriminate.
  - reflexivity.
  - vm_compute. discriminate.
  - vm_compute. repeat constructor.
  - simpl. lia.
  - simpl. lia.
  - split; [reflexivity|]. split; [by repeat split|]. split.
    { right. split; [reflexivity|]. split; [reflexivity|]. left. simpl. lia. }
    split; [reflexivity|]. split; [simpl; lia|discriminate].
  - vm_compute. reflexivity.
  - vm_compute. reflexivity.
  - repeat constructor; (eexists; split; vm_compute; reflexivity).
  - repeat constructor.
Defined.

(** ** The word [-1] *)

(** C9.  Words of eight letters over 256 letters fill 64 bits.  The
    estimator is fitted on the series [Ex.down] and transforms [Ex.up],
    every coefficient of which lies above every threshold: the eight
    letters are 255 and the word, a signed 64 bit integer, is [-1], the
    value [last_word] starts with.  Under numerosity reduction the one
    window of the series is taken for a repetition and the bag is empty. *)
Theorem first_window_suppressed :
  snd (_fit Run.env0 (Ex.init (Ex.bytes true)) [Ex.down] None) = Ok tt
  ∧ word_bits (Ex.fit_on [Ex.down] (Ex.bytes true)) = 64
  ∧ (_mft (Ex.fit_on [Ex.down] (Ex.bytes true)) Ex.up
       ≫= rmap (fun dft => _create_word_full dft 8 256
                             (breakpoints (Ex.fit_on [Ex.down] (Ex.bytes true))) 8))
    = Ok [[255; 255; 255; 255; 255; 255; 255; 255]]
  ∧ (_mft (Ex.fit_on [Ex.down] (Ex.bytes true)) Ex.up
       ≫= rmap (window_word (Ex.fit_on [Ex.down] (Ex.bytes true)))) = Ok [-1]
  ∧ _transform_case (Ex.fit_on [Ex.down] (Ex.bytes true)) Ex.up None = Ok (∅, [-1]).
Proof. by_computing. Qed.

(** C8.  On the same input all the windows of the series (there is one)
    have the same word: the bag has the total count 0 under numerosity
    reduction, where the claim has 1, and the total count 1, the number of
    windows, without it. *)
Theorem constant_series_total_count :
  (_mft (Ex.fit_on [Ex.down] (Ex.bytes true)) Ex.up
     ≫= rmap (window_word (Ex.fit_on [Ex.down] (Ex.bytes true)))) = Ok [-1]
  ∧ (r ← _transform_case (Ex.fit_on [Ex.down] (Ex.bytes true)) Ex.up None;
     Ok (total_count (fst r))) = Ok 0
  ∧ (r ← _transform_case (Ex.fit_on [Ex.down] (Ex.bytes false)) Ex.up None;
     Ok (total_count (fst r))) = Ok 1.
Proof. by_computing. Qed.

(** * The sliding Fourier transform *)

Lemma range2_snoc (a b : Z) : a ≤ b → range2 a (b + 1) = range2 a b ++ [b].
Proof.
  intros Hab. unfold range2.
  replace (Z.to_nat (b + 1 - a)) with (S (Z.to_nat (b - a))) by lia.
  rewrite seq_S, fmap_app. simpl. do 2 f_equal. lia.
Qed.

Lemma range2_empty (a b : Z) : b ≤ a → range2 a b = [].
Proof. intros Hab. unfold range2. by replace (Z.to_nat (b - a)) with 0%nat by lia. Qed.

Lemma py_slice_prefix_length {A : Type} (l : list A) (b : Z) :
  0 ≤ b → length (py_slice l 0 b) = Z.to_nat (Z.min (Z.of_nat (length l)) b).
Proof.
  intros Hb. unfold py_slice, slice_bound.
  destruct (decide (0 < 0)); [lia|]. destruct (decide (b < 0)); [lia|].
  rewrite length_take, length_drop. lia.
Qed.

Section SlidingTransform.
Context {F : Type} `{Float64 F} `{Libm F}.
Implicit Type self : SFA F.

Lemma np_zeros_ok (n : Z) :
  0 ≤ n → np_zeros n = Ok (replicate (Z.to_nat n) fzero).
Proof. intros Hn. unfold np_zeros. by destruct (decide (n < 0)); [lia|]. Qed.

Lemma flatten_pairs_length (ps : list (F * F)) :
  length (flatten_pairs ps) = (2 * length ps)%nat.
Proof.
  unfold flatten_pairs. induction ps as [|[re im] ps IH]; [done|].
  cbn. cbn in IH. rewrite IH. lia.
Qed.

Lemma flip_odd_length (a : list F) : length (flip_odd a) = length a.
Proof.
  assert (∀ n (a : list F), (length a ≤ n)%nat → length (flip_odd a) = length a)
    as Hn; [|by apply (Hn (length a))].
  clear a. intros n. induction n as [|n IH]; intros [|re [|im a]] Hlen;
    simpl in *; try done; try lia.
  rewrite IH; [done|lia].
Qed.

Lemma assign_same (n : nat) (rhs : list F) :
  length rhs = n → assign n rhs = Ok rhs.
Proof. intros Hn. unfold assign. by destruct (decide _). Qed.

(** [_get_phis] returns [length_] values for every window size but [0]. *)
Lemma get_phis_ok (window_size length_ : Z) :
  window_size ≠ 0 → 0 ≤ length_ →
  ∃ phis, _get_phis window_size length_ = Ok phis
          ∧ length phis = Z.to_nat length_.
Proof.
  intros Hws Hlen. unfold _get_phis. rewrite np_zeros_ok by done. simpl.
  destruct (decide (window_size = 0)); [done|].
  eexists. split; [done|].
  rewrite length_app, length_replicate, flatten_pairs_length, length_fmap,
    range_length.
  pose proof (Z.quot_pos length_ 2 Hlen ltac:(lia)).
  assert (2 * Z.quot length_ 2 ≤ length_).
  { rewrite Z.quot_div_nonneg by lia. apply Z.mul_div_le. lia. }
  lia.
Qed.

(** The standard deviations of the windows: a value for each of the
    [end_] windows, none of them at or below [1e-8] unless it is the
    floor [1]. *)
Lemma calc_incremental_mean_std_ok (series : list F) (end_ window_size : Z) :
  1 ≤ window_size → 1 ≤ end_ →
  (end_ = 1 ∨ end_ + window_size - 1 ≤ Z.of_nat (length series)) →
  ∃ stds, _calc_incremental_mean_std series end_ window_size = Ok stds
          ∧ length stds = Z.to_nat end_
          ∧ Forall (fun s => fltb tiny s = true ∨ s = fone) stds.
Proof.
  intros Hws Hend Hlen. unfold _calc_incremental_mean_std.
  destruct (decide (window_size ≤ 0)); [lia|].
  assert (∀ s, fltb tiny (floor_std s) = true ∨ floor_std s = fone) as Hfloor.
  { intros s. unfold floor_std. destruct (fltb tiny s) eqn:Hs; [by left|by right]. }
  match goal with
  | |- context [foldl ?f (Ok (?a, ?b, [?c])) _] =>
      assert (∀ k : nat, (k = 0%nat ∨ Z.of_nat k + window_size ≤ Z.of_nat (length series)) →
                ∃ ss qs stds,
                  foldl f (Ok (a, b, [c])) (range2 1 (1 + Z.of_nat k))
                  = Ok (ss, qs, stds)
                  ∧ length stds = S k
                  ∧ Forall (fun s => fltb tiny s = true ∨ s = fone) stds) as Hloop
  end.
  { intros k. induction k as [|k IH]; intros Hk.
    - rewrite range2_empty by lia. simpl. do 3 eexists. split; [done|].
      split; [done|]. by apply Forall_singleton.
    - destruct IH as (ss & qs & stds & Hfold & Hlenk & Hall); [lia|].
      replace (1 + Z.of_nat (S k)) with ((1 + Z.of_nat k) + 1) by lia.
      rewrite range2_snoc by lia. rewrite foldl_app, Hfold. simpl.
      destruct (lookup_lt_is_Some_2 series (Z.to_nat (1 + Z.of_nat k + window_size - 1)))
        as [x_in Hin]; [lia|].
      destruct (lookup_lt_is_Some_2 series (Z.to_nat (1 + Z.of_nat k - 1)))
        as [x_out Hout]; [lia|].
      apply index_nat in Hin, Hout. rewrite Z2Nat.id in Hin, Hout by lia.
      do 3 eexists. split; [rewrite Hin; simpl; rewrite Hout; simpl; reflexivity|].
      split.
      + rewrite length_app. simpl. lia.
      + apply Forall_app. split; [done|]. by apply Forall_singleton. }
  destruct (Hloop (Z.to_nat (end_ - 1))) as (ss & qs & stds & Hfold & Hlenk & Hall);
    [lia|].
  replace (1 + Z.of_nat (Z.to_nat (end_ - 1))) with end_ in Hfold by lia.
  rewrite Hfold. simpl. exists stds. split; [done|]. split; [lia|done].
Qed.

(** The direct transform returns [dft_length] values when the first pair
    is cut, and [dft_length] values after the offset of the norm
    otherwise. *)
Lemma discrete_fourier_transform_ok (series : list F) (dft_length : Z)
    (norm : bool) (inv : F) (lb anf cut : bool) :
  0 ≤ dft_length →
  ∃ dft, _discrete_fourier_transform series dft_length norm inv lb anf cut = Ok dft
         ∧ length dft
           = Z.to_nat (if cut then dft_length
                       else (if norm then 2 else 0) + dft_length).
Proof.
  intros Hlen. unfold _discrete_fourier_transform.
  set (start := if norm then 2 else 0).
  assert (start = 0 ∨ start = 2) as Hstart by (unfold start; destruct norm; lia).
  set (c := if cut then Z.quot start 2 else 0).
  set (start' := if cut then start else 0).
  assert (0 ≤ start + dft_length - start') as Hz by (unfold start'; destruct cut; lia).
  rewrite np_zeros_ok by done. simpl.
  set (pairs := flatten_pairs _).
  assert (length (pairs ++ drop (length pairs) (replicate (Z.to_nat (start + dft_length - start')) (fzero (F:=F))))
          = Z.to_nat (start + dft_length - start')) as Hdft.
  { rewrite length_app, length_drop, length_replicate. unfold pairs.
    rewrite flatten_pairs_length, length_fmap, range2_length.
    assert (2 * (Z.quot (start + dft_length) 2 - c) ≤ start + dft_length - start').
    { rewrite Z.quot_div_nonneg by lia.
      pose proof (Z.mul_div_le (start + dft_length) 2 ltac:(lia)).
      unfold c, start'. destruct cut; [|lia].
      destruct Hstart as [-> | ->]; [rewrite Z.quot_0_l by lia; lia|].
      change (Z.quot 2 2) with 1. lia. }
    lia. }
  assert (Z.to_nat (start + dft_length - start')
          = Z.to_nat (if cut then dft_length else start + dft_length)) as <-.
  { unfold start'. destruct cut; f_equal; lia. }
  destruct anf.
  - eexists. split; [done|]. rewrite length_fmap.
    destruct lb; [rewrite flip_odd_length|]; done.
  - eexists. split; done.
Qed.

(** One rotation keeps the number of running coefficients. *)
Lemma mft_rotate_ok (mft_data phis : list F) (x_in x_out : F) (n : nat) :
  length mft_data = (2 * n)%nat → (2 * n ≤ length phis)%nat →
  ∃ out, mft_rotate mft_data phis x_in x_out = Ok out
         ∧ length out = (2 * n)%nat.
Proof.
  revert mft_data phis. induction n as [|n IH]; intros mft_data phis Hd Hp.
  - destruct mft_data; [|done]. by exists [].
  - destruct mft_data as [|re [|im mft_data]]; simpl in Hd; try lia.
    destruct phis as [|p0 [|p1 phis]]; simpl in Hp; try lia.
    destruct (IH mft_data phis) as (out & Hout & Hlen); [lia|lia|].
    simpl. rewrite Hout. simpl. eexists. split; [done|]. simpl. lia.
Qed.

(** [_iterate_mft] adds one row for each of the windows after the first. *)
Lemma iterate_mft_rows (series mft_data phis : list F) (window_size : Z)
    (stds first_row : list F) (rows : Z) (inv : F) (transformed : list (list F)) :
  _iterate_mft series mft_data phis window_size stds first_row rows inv
  = Ok transformed →
  length transformed = Z.to_nat (Z.max 1 rows).
Proof.
  unfold _iterate_mft.
  match goal with
  | |- context [foldl ?f (Ok (mft_data, [first_row])) _] =>
      assert (∀ (k : nat) d t,
                foldl f (Ok (mft_data, [first_row])) (range2 1 (1 + Z.of_nat k))
                = Ok (d, t) → length t = S k) as Hloop
  end.
  { intros k. induction k as [|k IH]; intros d t.
    - rewrite range2_empty by lia. simpl. by intros [= _ <-].
    - replace (1 + Z.of_nat (S k)) with ((1 + Z.of_nat k) + 1) by lia.
      rewrite range2_snoc by lia. rewrite foldl_app. simpl.
      match goal with
      | |- context [foldl ?f ?a ?l] => destruct (foldl f a l) as [[d' t']|] eqn:Hfold
      end; simpl; [|done].
      specialize (IH _ _ eq_refl).
      intros Hstep.
      apply rbind_ok in Hstep as (x_in & _ & Hstep).
      apply rbind_ok in Hstep as (x_out & _ & Hstep).
      apply rbind_ok in Hstep as (d'' & _ & Hstep).
      apply rbind_ok in Hstep as (std & _ & Hstep).
      apply rbind_ok in Hstep as (row & _ & [= _ <-]).
      rewrite length_app. simpl. lia. }
  intros Hit. apply rbind_ok in Hit as ([d t] & Hfold & [= <-]).
  destruct (decide (1 ≤ rows)).
  - replace rows with (1 + Z.of_nat (Z.to_nat (rows - 1))) in Hfold by lia.
    apply Hloop in Hfold. lia.
  - rewrite range2_empty in Hfold by lia. simpl in Hfold.
    injection Hfold as _ <-. simpl. lia.
Qed.

Lemma iterate_mft_ok (series mft_data phis : list F) (window_size : Z)
    (stds first_row : list F) (rows : Z) (inv : F) (n : nat) :
  1 ≤ window_size → 1 ≤ rows →
  (rows = 1 ∨ rows + window_size - 1 ≤ Z.of_nat (length series)) →
  length mft_data = (2 * n)%nat → (2 * n ≤ length phis)%nat →
  length first_row = (2 * n)%nat → length stds = Z.to_nat rows →
  ∃ transformed,
    _iterate_mft series mft_data phis window_size stds first_row rows inv
    = Ok transformed
    ∧ Forall (fun row => length row = (2 * n)%nat) transformed.
Proof.
  intros Hws Hrows Hlen Hd Hp Hfirst Hstds. unfold _iterate_mft.
  match goal with
  | |- context [foldl ?f (Ok (mft_data, [first_row])) _] =>
      assert (∀ k : nat, Z.of_nat k < rows →
                ∃ d t,
                  foldl f (Ok (mft_data, [first_row])) (range2 1 (1 + Z.of_nat k))
                  = Ok (d, t)
                  ∧ length d = (2 * n)%nat
                  ∧ Forall (fun row => length row = (2 * n)%nat) t) as Hloop
  end.
  { intros k. induction k as [|k IH]; intros Hk.
    - rewrite range2_empty by lia. simpl. do 2 eexists. split; [done|].
      split; [done|]. by apply Forall_singleton.
    - destruct IH as (d & t & Hfold & Hdk & Hall); [lia|].
      replace (1 + Z.of_nat (S k)) with ((1 + Z.of_nat k) + 1) by lia.
      rewrite range2_snoc by lia. rewrite foldl_app, Hfold. simpl.
      destruct (lookup_lt_is_Some_2 series (Z.to_nat (1 + Z.of_nat k + window_size - 1)))
        as [x_in Hin]; [lia|].
      destruct (lookup_lt_is_Some_2 series (Z.to_nat (1 + Z.of_nat k - 1)))
        as [x_out Hout]; [lia|].
      destruct (lookup_lt_is_Some_2 stds (Z.to_nat (1 + Z.of_nat k)))
        as [std Hstd]; [lia|].
      apply index_nat in Hin, Hout, Hstd.
      rewrite Z2Nat.id in Hin, Hout, Hstd by lia.
      destruct (mft_rotate_ok d phis x_in x_out n Hdk Hp) as (d' & Hrot & Hd').
      do 2 eexists. split.
      { rewrite Hin; simpl; rewrite Hout; simpl; rewrite Hrot; simpl.
        rewrite Hstd; simpl.
        rewrite assign_same by (rewrite length_fmap; lia). reflexivity. }
      split; [done|].
      apply Forall_app. split; [done|].
      apply Forall_singleton. rewrite length_fmap. done. }
  destruct (Hloop (Z.to_nat (rows - 1))) as (d & t & Hfold & _ & Hall); [lia|].
  replace (1 + Z.of_nat (Z.to_nat (rows - 1))) with rows in Hfold by lia.
  rewrite Hfold. simpl. by exists t.
Qed.
Lemma assign_raise (n : nat) (rhs : list F) :
  length rhs ≠ n → length rhs ≠ 1%nat → assign n rhs = Raise ValueError.
Proof.
  intros Hn H1. unfold assign. destruct (decide _); [done|].
  by destruct rhs as [|x [|y rhs]].
Qed.

(** Whenever [_mft] returns, in either mode, it returns one row of
    coefficients for each window of the series. *)
Lemma mft_rows_length self (series : list F) (rows : list (list F)) :
  _mft self series = Ok rows →
  length rows = Z.to_nat (n_windows self series).
Proof.
  unfold _mft, n_windows. intros Hmft.
  apply rbind_ok in Hmft as (phis & _ & Hmft).
  apply rbind_ok in Hmft as (stds & _ & Hmft).
  apply rbind_ok in Hmft as (zeros & _ & Hmft).
  apply rbind_ok in Hmft as (mft_data & _ & Hmft).
  apply rbind_ok in Hmft as (std0 & _ & Hmft).
  apply rbind_ok in Hmft as (first_row & _ & Hmft).
  apply rbind_ok in Hmft as (transformed & Hit & Hmft).
  apply iterate_mft_rows in Hit.
  assert (length rows = length transformed) as ->; [|lia].
  destruct (anova self).
  - apply rmap_length in Hmft. rewrite Hmft, length_fmap.
    destruct (lower_bounding self); [by rewrite length_fmap|done].
  - injection Hmft as <-. rewrite length_fmap.
    destruct (lower_bounding self); [by rewrite length_fmap|done].
Qed.

(** X1.  [transform_mft] returns one row for each series, the
    coefficients of its first window, whatever the number of windows; on
    an empty collection it raises [IndexError]. *)
Theorem transform_mft_first_windows self (X : list (list F))
    (out : list (list F)) :
  transform_mft self X = Ok out →
  X ≠ []
  ∧ Forall2 (fun series row =>
               ∃ rows, _mft self series = Ok rows
                       ∧ length rows = Z.to_nat (n_windows self series)
                       ∧ rows !! 0%nat = Some row) X out.
Proof.
  unfold transform_mft. intros Hout.
  apply rbind_ok in Hout as (transform & Htr & Hout).
  split; [by intros ->; injection Htr as <-|].
  assert (∃ words, rmap (fun rows : list (list F) => index rows 0) transform
                   = Ok words ∧ words = out) as (words & Hwords & ->).
  { destruct transform; [done|].
    apply rbind_ok in Hout as (words & Hwords & Hout).
    exists words. split; [done|]. by destruct (forallb _ _); [injection Hout|]. }
  clear Hout. revert transform out Htr Hwords.
  induction X as [|series X IH]; intros transform out Htr Hwords; simpl in Htr.
  - injection Htr as <-. injection Hwords as <-. constructor.
  - apply rbind_ok in Htr as (rows & Hrows & Htr).
    apply rbind_ok in Htr as (rest & Hrest & [= <-]). simpl in Hwords.
    apply rbind_ok in Hwords as (row & Hrow & Hwords).
    apply rbind_ok in Hwords as (more & Hmore & [= <-]).
    constructor; [|by eapply IH].
    exists rows. split; [done|]. split; [by apply mft_rows_length|].
    by apply index_ok in Hrow as [_ Hrow].
Qed.

(** With the direct transform as the seed ([_use_fallback_dft]) and
    without the selection of coefficients, [_mft] returns for every
    series, also an empty one and one shorter than the window: a row
    for each window, each of [dft_length] coefficients. *)
Lemma mft_fallback_ok self (series : list F) :
  1 ≤ window_size self → 0 ≤ dft_length self → dft_length self `mod` 2 = 0 →
  _use_fallback_dft self = true → anova self = false →
  ∃ rows, _mft self series = Ok rows
          ∧ length rows = Z.to_nat (n_windows self series)
          ∧ Forall (fun row => length row = Z.to_nat (dft_length self)) rows.
Proof.
  intros Hws Hdft Heven Hfb Han.
  assert (∃ rows, _mft self series = Ok rows
                  ∧ Forall (fun row => length row = Z.to_nat (dft_length self)) rows)
    as (rows & Hrows & Hall);
    [|exists rows; split; [done|]; split; [by apply mft_rows_length|done]].
  unfold _mft. rewrite Heven, Z.add_0_r, Hfb, Han.
  set (off := if norm self then 2 else 0).
  assert (off = 0 ∨ off = 2) as Hoff by (unfold off; destruct (norm self); lia).
  set (end_ := Z.max 1 _).
  assert (end_ = 1 ∨ end_ + window_size self - 1 ≤ Z.of_nat (length series))
    as Hend by lia.
  assert (∃ n : nat, Z.to_nat (dft_length self + off) = (2 * n)%nat) as [n Hn].
  { exists (Z.to_nat ((dft_length self + off) / 2)).
    assert ((dft_length self + off) `mod` 2 = 0).
    { rewrite Z.add_mod, Heven by lia. by destruct Hoff as [-> | ->]. }
    pose proof (Z.div_mod (dft_length self + off) 2 ltac:(lia)).
    assert (0 ≤ (dft_length self + off) / 2) by (apply Z.div_pos; lia). lia. }
  destruct (get_phis_ok (window_size self) (dft_length self + off))
    as (phis & -> & Hphis); [lia|lia|]. simpl.
  destruct (calc_incremental_mean_std_ok series end_ (window_size self))
    as (stds & -> & Hstds & _); [lia|lia|done|]. simpl.
  rewrite np_zeros_ok by lia. simpl.
  destruct (discrete_fourier_transform_ok (py_slice series 0 (window_size self))
              (dft_length self) (norm self) (inverse_sqrt_win_size self)
              (or_opt (lower_bounding self) (lower_bounding_distances self))
              false false) as (mft_data & -> & Hdata); [done|]. simpl.
  fold off in Hdata. rewrite (Z.add_comm off) in Hdata.
  destruct (lookup_lt_is_Some_2 stds 0) as [std0 Hstd0]; [lia|].
  apply (index_nat stds 0) in Hstd0. change (Z.of_nat 0) with 0 in Hstd0.
  rewrite Hstd0. simpl.
  rewrite length_replicate.
  rewrite assign_same by (by rewrite length_fmap). simpl.
  destruct (iterate_mft_ok series mft_data phis (window_size self) stds
              ((fun x => fdiv (fmul x (inverse_sqrt_win_size self)) std0) <$> mft_data)
              end_ (inverse_sqrt_win_size self) n)
    as (transformed & -> & Hall);
    [lia|lia|done|lia|lia|rewrite length_fmap; lia|done|]. simpl.
  eexists. split; [done|].
  apply Forall_fmap.
  assert (Forall (fun row : list F => length row = (2 * n)%nat)
            (if lower_bounding self then flip_odd <$> transformed else transformed))
    as Hall'.
  { destruct (lower_bounding self); [|done].
    apply Forall_fmap. eapply Forall_impl; [exact Hall|].
    intros row Hrow. simpl. by rewrite flip_odd_length. }
  eapply Forall_impl; [exact Hall'|].
  intros row Hrow. simpl. rewrite length_drop, Hrow. lia.
Qed.

(** X3.  With the seed taken from [np.fft.rfft], [_mft] raises a
    [ValueError] on a series that is empty, or that is shorter than the
    window and yields fewer terms, [len // 2 + 1] of them, than the
    running coefficients have pairs (a single term is broadcast). *)
Theorem mft_short_series_raises self (series : list F) :
  1 ≤ window_size self → 0 ≤ dft_length self → dft_length self `mod` 2 = 0 →
  _use_fallback_dft self = false →
  (let m := Z.min (Z.of_nat (length series)) (window_size self) in
   m = 0 ∨ (2 ≤ m ∧ m / 2 + 1 < mft_length self / 2)) →
  _mft self series = Raise ValueError.
Proof.
  intros Hws Hdft Heven Hfb Hshort.
  unfold mft_length in Hshort. unfold _mft.
  rewrite Heven, Z.add_0_r in *. rewrite Hfb.
  set (off := if norm self then 2 else 0) in *.
  assert (off = 0 ∨ off = 2) as Hoff by (unfold off; destruct (norm self); lia).
  set (end_ := Z.max 1 _).
  assert (end_ = 1 ∨ end_ + window_size self - 1 ≤ Z.of_nat (length series))
    as Hend by lia.
  destruct (get_phis_ok (window_size self) (dft_length self + off))
    as (phis & -> & Hphis); [lia|lia|]. simpl.
  destruct (calc_incremental_mean_std_ok series end_ (window_size self))
    as (stds & -> & Hstds & _); [lia|lia|done|]. simpl.
  rewrite np_zeros_ok by lia. simpl.
  pose proof (py_slice_prefix_length series (window_size self) ltac:(lia)) as Hwin.
  unfold rfft_seed, np_fft_rfft.
  destruct (py_slice series 0 (window_size self)) as [|x window] eqn:Hslice;
    [done|].
  rewrite <- Hslice. simpl. rewrite np_zeros_ok by lia. simpl.
  destruct Hshort as [Hm | [Hm Hfew]]; [simpl in Hwin; lia|].
  rewrite (assign_raise
             (Z.to_nat (dft_length self + off - Z.quot (dft_length self + off) 2)));
    [reflexivity| |].
  - rewrite length_take, length_fmap, length_fmap, range_length.
    rewrite Hslice, Hwin.
    assert ((dft_length self + off) `mod` 2 = 0).
    { rewrite Z.add_mod, Heven by lia. by destruct Hoff as [-> | ->]. }
    pose proof (Z.div_mod (dft_length self + off) 2 ltac:(lia)).
    rewrite Z.quot_div_nonneg by lia.
    assert (0 ≤ Z.min (Z.of_nat (length series)) (window_size self) / 2)
      by (apply Z.div_pos; lia).
    rewrite Z2Nat.id by lia. lia.
  - rewrite length_take, length_fmap, length_fmap, range_length.
    rewrite Hslice, Hwin.
    rewrite Z.quot_div_nonneg by lia.
    assert (1 ≤ Z.min (Z.of_nat (length series)) (window_size self) / 2)
      by (apply Z.div_le_lower_bound; lia).
    rewrite Z2Nat.id by lia. lia.
Qed.
End SlidingTransform.

Lemma transform_mft_first_windows_witness :
  ∃ out, transform_mft short2 [Ex.up; Ex.down] = Ok out ∧ length out = 2%nat.
Proof.
  eexists. split.
  - vm_compute. reflexivity.
  - refine (eq_sym (Forall2_length _ _ _
              (proj2 (transform_mft_first_windows short2 [Ex.up; Ex.down] _ _)))).
    vm_compute. reflexivity.
Defined.

Lemma mft_short_series_raises_witness :
  _mft (Ex.init (Ex.sized 8 4 12 false false false)) [1; 2; 3; 4; 5]%float
  = Raise ValueError.
Proof.
  apply (mft_short_series_raises (Ex.init (Ex.sized 8 4 12 false false false))
           [1; 2; 3; 4; 5]%float); try reflexivity; try (vm_compute; discriminate).
  right. vm_compute. split; [discriminate|reflexivity].
Defined.

(** * Letters, words and keys *)

Section Letter.
Context {F : Type} `{Float64 F}.
Implicit Type self : SFA F.

Lemma first_bin_split (x : F) (row : list F) (bps : list Z) (b : Z) :
  first_bin x row bps = Ok (Some b) →
  ∃ l1 l2, bps = l1 ++ b :: l2
           ∧ (∃ v, index row b = Ok v ∧ fleb x v = true)
           ∧ Forall (fun b' => ∃ v', index row b' = Ok v' ∧ fleb x v' = false) l1.
Proof.
  induction bps as [|bp bps IH]; simpl; [done|].
  destruct (index row bp) as [v|] eqn:Hv; simpl; [|done].
  destruct (fleb x v) eqn:Hle.
  - intros [= ->]. exists [], bps. split; [done|]. split; [by exists v|constructor].
  - intros Hb. destruct (IH Hb) as (l1 & l2 & -> & Hhit & Hmiss).
    exists (bp :: l1), l2. split; [done|]. split; [done|].
    constructor; [by exists v|done].
Qed.

Lemma first_bin_none (x : F) (row : list F) (bps : list Z) :
  first_bin x row bps = Ok None →
  Forall (fun b' => ∃ v', index row b' = Ok v' ∧ fleb x v' = false) bps.
Proof.
  induction bps as [|bp bps IH]; simpl; [constructor|].
  destruct (index row bp) as [v|] eqn:Hv; simpl; [|done].
  destruct (fleb x v) eqn:Hle; [done|].
  intros Hb. constructor; [by exists v|by apply IH].
Qed.

Lemma range_split (a b : Z) (l1 l2 : list Z) :
  range a = l1 ++ b :: l2 → 0 ≤ b < a ∧ l1 = range b.
Proof.
  intros Hr.
  assert (range a !! length l1 = Some b) as Hb
    by (by rewrite Hr, lookup_app_r, Nat.sub_diag by done).
  pose proof (lookup_lt_Some _ _ _ Hb) as Hlt. rewrite range_length in Hlt.
  rewrite range_lookup in Hb by done. injection Hb as <-.
  split; [lia|].
  rewrite (range_take a (Z.of_nat (length l1))) in Hr by lia.
  apply app_inj_1 in Hr as [Hr _]; [done|].
  by rewrite range_length, Nat2Z.id.
Qed.

(** X4.  The letter of a coefficient is the first bin whose breakpoint
    is at least the coefficient: the comparison succeeds at the letter
    and fails at every bin below it; a coefficient gets no letter only
    when it is above every breakpoint of its row. *)
Theorem letter_is_first_bin (dft : list F) (breakpoints : list (list F))
    (a i : Z) (letter : option Z) :
  0 < a →
  letter_at dft breakpoints a i = Ok letter →
  ∃ x row,
    index dft i = Ok x ∧ index breakpoints i = Ok row
    ∧ match letter with
      | Some b =>
          0 ≤ b < a
          ∧ (∃ v, index row b = Ok v ∧ fleb x v = true)
          ∧ ∀ b', 0 ≤ b' < b → ∃ v', index row b' = Ok v' ∧ fleb x v' = false
      | None =>
          ∀ b', 0 ≤ b' < a → ∃ v', index row b' = Ok v' ∧ fleb x v' = false
      end.
Proof.
  intros Ha. unfold letter_at. destruct (decide (a ≤ 0)); [lia|].
  intros Hl. apply rbind_ok in Hl as (x & Hx & Hl).
  apply rbind_ok in Hl as (row & Hrow & Hl).
  exists x, row. split; [done|]. split; [done|].
  destruct letter as [b|].
  - apply first_bin_split in Hl as (l1 & l2 & Hr & Hhit & Hmiss).
    apply range_split in Hr as [Hb ->].
    split; [done|]. split; [done|].
    intros b' Hb'. rewrite Forall_forall in Hmiss. apply Hmiss.
    by apply elem_of_range.
  - apply first_bin_none in Hl. rewrite Forall_forall in Hl.
    intros b' Hb'. apply Hl. by apply elem_of_range.
Qed.

Lemma rmap_default {A : Type} (f : A → result (option Z)) (l : list A) (ls : list Z) :
  rmap f l = Ok (Some <$> ls) →
  rmap (fun i => b ← f i; Ok (default 0 b)) l = Ok ls.
Proof.
  revert ls. induction l as [|a l IH]; intros ls; simpl.
  - intros [= Hls]. by destruct ls.
  - intros Hl. apply rbind_ok in Hl as (b & Hb & Hl).
    apply rbind_ok in Hl as (bs & Hbs & [= Hls]).
    destruct ls as [|c ls]; [done|]. injection Hls as -> ->.
    rewrite Hb. simpl. rewrite (IH ls Hbs). done.
Qed.

Lemma letters_packed (dft : list F) (wl a : Z) (bps : list (list F)) (ls : list Z) :
  rmap (letter_at dft bps a) (range wl) = Ok (Some <$> ls) →
  packed_letters dft wl a bps = Ok ls
  ∧ length ls = Z.to_nat wl
  ∧ Forall (fun b => 0 ≤ b < a) ls.
Proof.
  intros Hl.
  assert (packed_letters dft wl a bps = Ok ls) as Hp.
  { unfold packed_letters. rewrite Hl. simpl. by rewrite omap_id_Some. }
  split; [done|]. split; [|by eapply packed_letters_range].
  apply rmap_length in Hl. by rewrite length_fmap, range_length in Hl.
Qed.

Lemma fits_le (a lb : Z) (ls : list Z) :
  a ≤ 2 ^ lb → Forall (fun b => 0 ≤ b < a) ls → fits lb ls.
Proof.
  intros Ha Hls. eapply Forall_impl; [exact Hls|]. simpl. intros b Hb. lia.
Qed.

(** X5.  When every coefficient has a letter and the word is narrower
    than 64 bits, [_create_word_full] returns the letters and
    [_create_word] the integer that holds them, the first letter in its
    most significant place; the word is not negative and stays below
    [2 ^ (word_length * letter_bits)]. *)
Theorem create_word_packs_full (dft : list F) (wl a lb : Z)
    (bps : list (list F)) (ls : list Z) :
  0 ≤ wl → 0 ≤ lb → a ≤ 2 ^ lb → a ≤ 2 ^ 31 → wl * lb ≤ 63 →
  rmap (letter_at dft bps a) (range wl) = Ok (Some <$> ls) →
  _create_word_full dft wl a bps lb = Ok ls
  ∧ _create_word dft wl a bps lb = Ok (pack lb ls)
  ∧ 0 ≤ pack lb ls < 2 ^ (wl * lb).
Proof.
  intros Hwl Hlb Ha _ Hbits Hl.
  destruct (letters_packed _ _ _ _ _ Hl) as (Hp & Hlen & Hrange).
  pose proof (fits_le a lb ls Ha Hrange) as Hfit.
  assert (Z.of_nat (length ls) = wl) as Hlen' by lia.
  split; [by apply rmap_default|]. split.
  - unfold _create_word. rewrite create_word_with_pack, Hp. simpl.
    by rewrite pack_with_wrap64_small by (done || lia).
  - rewrite <- Hlen'. by apply pack_bound.
Qed.

(** X6.  For an alphabet of [2 ^ k] letters, [k] at most 32,
    [_get_chars] reads back the letters of the word of [_create_word],
    also when the word fills all 64 bits and is negative. *)
Theorem get_chars_reads_word (dft : list F) (wl k : Z)
    (bps : list (list F)) (ls : list Z) :
  0 ≤ wl → 0 ≤ k ≤ 32 → wl * k ≤ 64 →
  rmap (letter_at dft bps (2 ^ k)) (range wl) = Ok (Some <$> ls) →
  ∃ w, _create_word dft wl (2 ^ k) bps k = Ok w
       ∧ _get_chars w wl (2 ^ k) = ls.
Proof.
  intros Hwl Hk Hbits Hl.
  destruct (letters_packed _ _ _ _ _ Hl) as (Hp & Hlen & _).
  apply get_chars_create_word; [lia|done|done|lia].
Qed.
End Letter.

Lemma bit_length_bound (z n : Z) : 0 ≤ n → 0 ≤ z < 2 ^ n → bit_length z ≤ n.
Proof.
  intros Hn Hz. unfold bit_length. destruct (decide (z = 0)); [lia|].
  rewrite Z.abs_eq by lia.
  assert (Z.log2 z < n) by (apply Z.log2_lt_pow2; lia). lia.
Qed.

Lemma bit_length_above (z n : Z) : 0 ≤ n → 2 ^ n ≤ z → n < bit_length z.
Proof.
  intros Hn Hz. unfold bit_length.
  assert (0 < 2 ^ n) by (apply Z.pow_pos_nonneg; lia).
  destruct (decide (z = 0)); [lia|].
  rewrite Z.abs_eq by lia.
  assert (n ≤ Z.log2 z) by (apply Z.log2_le_pow2; lia). lia.
Qed.

Section Keys.
Context {F : Type} `{Float64 F} `{Libm F} `{Sklearn F}.
Implicit Type self : SFA F.

(** The widths of an estimator that was built and fitted. *)
Lemma fitted_by_widths (E : env) (p : params) (X : list (list F))
    (y : option (list Z)) self :
  fitted_by E p X y self →
  cfg self = p
  ∧ 2 ≤ alphabet_size self ∧ 1 ≤ word_length self
  ∧ letter_bits self = Z.log2_up (alphabet_size self)
  ∧ 1 ≤ letter_bits self
  ∧ alphabet_size self ≤ 2 ^ letter_bits self
  ∧ letter_max self = 2 ^ letter_bits self - 1
  ∧ word_bits self = word_length self * letter_bits self
  ∧ max_bits self = (if bigrams self || skip_grams self
                     then word_bits self * 2 else word_bits self)
  ∧ (levels self ≤ 1 → level_bits self = 0).
Proof.
  intros (s0 & Hinit & Hfit). unfold __init__ in Hinit.
  apply rbind_ok in Hinit as (inv & _ & [= <-]).
  apply fit_ok_widths in Hfit as (Hcfg & Hw & _ & _ & Ha & Hwl & _).
  simpl in Hcfg. unfold alphabet_size, word_length, bigrams, skip_grams, levels.
  unfold letter_bits, letter_max, word_bits, max_bits, level_bits.
  rewrite Hw, Hcfg. simpl. unfold max_bits_of, bits_of.
  fold (alphabet_size p) (word_length p) (bigrams p) (skip_grams p) (levels p).
  simpl in Ha, Hwl.
  assert (1 ≤ Z.log2_up (alphabet_size p)).
  { change 1 with (Z.log2_up 2). apply Z.log2_up_le_mono. lia. }
  pose proof (Z.log2_up_spec (alphabet_size p) ltac:(lia)).
  repeat split; try done; try lia.
  intros Hlev. destruct (decide (1 < levels p)); [lia|done].
Qed.

(** X7.  After [__init__] and [_fit] without pyramid levels, for every
    alphabet size, [word_list] reads back the letters of the word of a
    window, whatever the width of the word except exactly 64 bits. *)
Theorem word_list_reads_word (E : env) (p : params) (X : list (list F))
    (y : option (list Z)) self (dft : list F) (ls : list Z) (w : Z) :
  fitted_by E p X y self → levels p ≤ 1 → word_bits self ≠ 64 →
  rmap (letter_at dft (breakpoints self) (alphabet_size self))
       (range (word_length self)) = Ok (Some <$> ls) →
  window_word self dft = Ok w →
  w = pack (letter_bits self) ls ∧ word_list self w = Letters ls.
Proof.
  intros Hfit Hlev H64 Hl Hw.
  destruct (fitted_by_widths _ _ _ _ _ Hfit)
    as (Hcfg & Ha & Hwl & _ & Hlb & Hfits & Hmax & Hwb & _ & Hvb).
  rewrite <- Hcfg in Hlev. specialize (Hvb Hlev).
  destruct (letters_packed _ _ _ _ _ Hl) as (Hp & Hlen & Hrange).
  pose proof (fits_le _ _ ls Hfits Hrange) as Hfit'.
  assert (Z.of_nat (length ls) = word_length self) as Hlen' by lia.
  rewrite (encode_letters self dft ls) in Hw; [|lia|done|done|].
  2:{ intros Hsmall. rewrite Hlen', <- Hwb. lia. }
  injection Hw as <-. split; [done|].
  unfold word_list. rewrite Hvb, Z.add_0_r, Hwb.
  rewrite letters_from_pack by (done || lia).
  destruct (decide (_ < bit_length _)) as [Hbig|_].
  - pose proof (pack_bound (letter_bits self) ls ltac:(lia) Hfit') as Hb.
    rewrite Hlen' in Hb.
    pose proof (bit_length_bound _ (word_length self * letter_bits self)
                  ltac:(nia) Hb). lia.
  - destruct (decide (1 < levels self)); [lia|done].
Qed.

(** X8.  A bigram key narrower than 64 bits holds both words: the
    earlier word above the [word_bits] lowest bits and the word of the
    window in them, so that different pairs have different keys; the key
    is the key of the word of the window alone exactly when the earlier
    word is [0]. *)
Theorem bigram_word_reads_back self (word_raw word : Z) :
  0 ≤ word_bits self → max_bits self = word_bits self * 2 →
  max_bits self < 64 →
  0 ≤ word_raw < 2 ^ word_bits self → 0 ≤ word < 2 ^ word_bits self →
  let gram := _create_bigram_words self word_raw word in
  Z.shiftr gram (word_bits self) = word
  ∧ Z.land gram (Z.ones (word_bits self)) = word_raw
  ∧ 0 ≤ gram < 2 ^ max_bits self
  ∧ (gram = word_raw ↔ word = 0).
Proof.
  intros Hwb Hmb H64 Hraw Hword gram.
  pose proof (lor_shiftl_bound word word_raw (word_bits self) (word_bits self)
                Hwb Hwb Hword Hraw) as Hbound.
  replace (word_bits self + word_bits self) with (max_bits self) in Hbound by lia.
  assert (gram = Z.lor (Z.shiftl word (word_bits self)) word_raw) as Hgram.
  { unfold gram, _create_bigram_words, _create_bigram_word, _create_bigram_word_large.
    destruct (decide (max_bits self ≤ 64)); [|lia].
    apply wrap64_small.
    assert (2 ^ max_bits self ≤ 2 ^ 63) by (apply Z.pow_le_mono_r; lia). lia. }
  rewrite Hgram. split; [by apply lor_shiftl_shiftr|].
  split; [by apply lor_shiftl_land|]. split; [done|].
  split.
  - intros Heq.
    pose proof (lor_shiftl_shiftr word word_raw (word_bits self) Hwb Hraw) as Hs.
    rewrite Heq in Hs. rewrite <- Hs.
    destruct (decide (word_raw = 0)) as [->|]; [apply Z.shiftr_0_l|].
    apply Z.shiftr_eq_0; [lia|]. apply Z.log2_lt_pow2; lia.
  - intros ->. by rewrite Z.shiftl_0_l, Z.lor_0_l.
Qed.
End Keys.

Lemma letter_is_first_bin_witness :
  ∃ x row,
    index [1.5]%float 0 = Ok x ∧ index [[1; 2; B64.max]]%float 0 = Ok row
    ∧ 0 ≤ 1 < 3
    ∧ (∃ v, index row 1 = Ok v ∧ fleb x v = true)
    ∧ ∀ b', 0 ≤ b' < 1 → ∃ v', index row b' = Ok v' ∧ fleb x v' = false.
Proof.
  apply (letter_is_first_bin [1.5]%float [[1; 2; B64.max]]%float 3 0 (Some 1)).
  - lia.
  - vm_compute. reflexivity.
Defined.

Lemma create_word_packs_full_witness :
  _create_word_full [1.5; 0.5]%float 2 3 [[1; 2; B64.max]; [1; 2; B64.max]]%float 2
  = Ok [1; 0]
  ∧ _create_word [1.5; 0.5]%float 2 3 [[1; 2; B64.max]; [1; 2; B64.max]]%float 2
    = Ok (pack 2 [1; 0])
  ∧ 0 ≤ pack 2 [1; 0] < 2 ^ (2 * 2).
Proof.
  apply (create_word_packs_full [1.5; 0.5]%float 2 3 2
           [[1; 2; B64.max]; [1; 2; B64.max]]%float [1; 0]);
    try lia; vm_compute; (reflexivity || discriminate).
Defined.

Lemma get_chars_reads_word_witness :
  ∃ w, _create_word [1.5; 0.5]%float 2 (2 ^ 1) [[1; B64.max]; [1; B64.max]]%float 1
       = Ok w
       ∧ _get_chars w 2 (2 ^ 1) = [1; 0].
Proof.
  apply (get_chars_reads_word [1.5; 0.5]%float 2 1
           [[1; B64.max]; [1; B64.max]]%float [1; 0]);
    try lia. vm_compute. reflexivity.
Defined.

Lemma word_list_reads_word_witness :
  6 = pack (letter_bits (Ex.fit (Ex.sized 2 3 16 false true false))) [1; 2]
  ∧ word_list (Ex.fit (Ex.sized 2 3 16 false true false)) 6 = Letters [1; 2].
Proof.
  apply (word_list_reads_word Run.env0 (Ex.sized 2 3 16 false true false)
           Ex.train None (Ex.fit (Ex.sized 2 3 16 false true false))
           [29.625; 5]%float [1; 2] 6).
  - exists (Ex.init (Ex.sized 2 3 16 false true false)).
    split; vm_compute; reflexivity.
  - vm_compute. discriminate.
  - vm_compute. discriminate.
  - vm_compute. reflexivity.
  - vm_compute. reflexivity.
Defined.

Lemma bigram_word_reads_back_witness :
  Z.shiftr (_create_bigram_words grams2 5 9)
           (word_bits grams2) = 9
  ∧ Z.land (_create_bigram_words grams2 5 9)
           (Z.ones (word_bits grams2)) = 5
  ∧ 0 ≤ _create_bigram_words grams2 5 9
      < 2 ^ max_bits grams2
  ∧ (_create_bigram_words grams2 5 9 = 5 ↔ 9 = 0).
Proof.
  apply (bigram_word_reads_back grams2 5 9);
    vm_compute; try reflexivity; try discriminate; split; (reflexivity || discriminate).
Defined.

(** * The counts of a bag *)

Lemma total_count_bag_add (bag : gmap key Z) (k : key) (v : Z) :
  total_count (bag_add bag k v) = total_count bag + v.
Proof.
  unfold total_count, bag_add.
  destruct (bag !! k) as [d|] eqn:Hk; simpl.
  - rewrite <- insert_delete_eq.
    rewrite map_fold_insert_L; [|intros; lia|apply lookup_delete_eq].
    rewrite (map_fold_delete_L _ _ k d bag); [cbv beta; lia|intros; lia|done].
  - rewrite map_fold_insert_L; [cbv beta; lia|intros; lia|done].
Qed.

Lemma changes_snoc (prev : Z) (ws : list Z) (w : Z) :
  changes prev (ws ++ [w])
  = changes prev ws + (if decide (w = default prev (last ws)) then 0 else 1).
Proof.
  revert prev. induction ws as [|a ws IH]; intros prev; [simpl; lia|].
  change ((a :: ws) ++ [w]) with (a :: (ws ++ [w])). cbn [changes].
  rewrite IH, last_cons. destruct (last ws); simpl; lia.
Qed.

Lemma changes_bounds (prev : Z) (ws : list Z) :
  0 ≤ changes prev ws ≤ Z.of_nat (length ws).
Proof.
  revert prev. induction ws as [|a ws IH]; intros prev; simpl; [lia|].
  specialize (IH a). destruct (decide (a = prev)); lia.
Qed.

Section BagTotals.
Context {F : Type} `{Float64 F} `{Libm F}.
Implicit Type self : SFA F.

(** The levels of the pyramid add a count for every quadrant. *)
Lemma add_to_pyramid_total self (bag bag' : gmap key Z) (word last_word window_ind : Z)
    (rw : bool) :
  0 ≤ levels self →
  _add_to_pyramid self bag word last_word window_ind = Ok (bag', rw) →
  rw = (remove_repeat_words self && bool_decide (word = last_word))
  ∧ total_count bag'
    = total_count bag + (if rw then 0 else 2 ^ levels self - 1).
Proof.
  intros Hlev. unfold _add_to_pyramid.
  destruct (remove_repeat_words self && bool_decide (word = last_word)).
  { intros [= <- <-]. split; [done|lia]. }
  intros Hp. apply rbind_ok in Hp as ([b s] & Hfold & [= <- <-]).
  split; [done|].
  revert b s Hfold. rewrite <- (Z2Nat.id (levels self)) by done.
  generalize (Z.to_nat (levels self)). intros n.
  induction n as [|n IH]; intros b s.
  - simpl. intros [= <- <-]. lia.
  - rewrite Nat2Z.inj_succ, <- Z.add_1_r, range_succ, foldl_app by lia. simpl.
    match goal with
    | |- context [foldl ?f ?a ?l] => destruct (foldl f a l) as [[b0 s0]|] eqn:Hfold
    end; simpl; [|done].
    specialize (IH _ _ eq_refl). intros Hstep.
    apply rbind_ok in Hstep as ([k q] & Hlevel & [= <- <-]).
    rewrite total_count_bag_add, IH.
    assert (q = 2 ^ Z.of_nat n) as ->.
    { unfold _add_level_typed, _add_level, _add_level_large, quadrant_of in Hlevel.
      destruct (_typed_dict self);
        [|destruct (decide (word_bits self + level_bits self ≤ 64))];
        (apply rbind_ok in Hlevel as ([q0 nq] & Hq & [= _ <-]);
         apply rbind_ok in Hq as (d & _ & Hq);
         apply rbind_ok in Hq as (d' & _ & [= _ <-]); done). }
    rewrite Z.pow_add_r by lia. lia.
Qed.

(** What one window adds to the bag. *)
Lemma window_step_total self (e : Z → result Z) (st st' : loop_state)
    (window word : Z) :
  window_step self e st window word = Ok st' →
  let rw := remove_repeat_words self && bool_decide (word = st_last_word st) in
  st_last_word st' = (if rw then st_last_word st else word)
  ∧ total_count (st_bag st')
    = total_count (st_bag st)
      + (if rw then 0 else word_weight self)
      + (if bigrams self && bool_decide (0 ≤ window - window_size self) then 1 else 0)
      + (if skip_grams self
         then (if decide (0 ≤ window - 2 * window_size self) then 1 else 0)
              + (if decide (0 ≤ window - 3 * window_size self) then 1 else 0)
         else 0).
Proof.
  unfold window_step, word_weight. intros Hstep.
  apply rbind_ok in Hstep as ([bag rw'] & Hadd & Hstep).
  assert (rw' = (remove_repeat_words self && bool_decide (word = st_last_word st))
          ∧ total_count bag
            = total_count (st_bag st)
              + (if rw' then 0
                 else if decide (1 < levels self) then 2 ^ levels self - 1 else 1))
    as [Hrw Hbag].
  { destruct (decide (1 < levels self)).
    - by apply add_to_pyramid_total in Hadd; [|lia].
    - unfold _add_to_bag in Hadd.
      destruct (remove_repeat_words self && bool_decide (word = st_last_word st));
        injection Hadd as <- <-; [split; [done|lia]|].
      by rewrite total_count_bag_add. }
  apply rbind_ok in Hstep as (bag1 & Hbi & Hstep).
  apply rbind_ok in Hstep as (bag2 & Hsk & [= <-]). simpl.
  rewrite <- Hrw. split; [done|].
  assert (total_count bag1
          = total_count bag
            + (if bigrams self && bool_decide (0 ≤ window - window_size self)
               then 1 else 0)) as Hb1.
  { destruct (bigrams self && bool_decide (0 ≤ window - window_size self)).
    - apply rbind_ok in Hbi as (w & _ & [= <-]). by rewrite total_count_bag_add.
    - injection Hbi as <-. lia. }
  assert (total_count bag2
          = total_count bag1
            + (if skip_grams self
               then (if decide (0 ≤ window - 2 * window_size self) then 1 else 0)
                    + (if decide (0 ≤ window - 3 * window_size self) then 1 else 0)
               else 0)) as Hb2.
  { destruct (skip_grams self); [|injection Hsk as <-; lia].
    change (range2 2 4) with [2; 3] in Hsk. cbn [foldl] in Hsk.
    apply rbind_ok in Hsk as (b' & Hb' & Hsk).
    apply rbind_ok in Hb' as (b0 & [= <-] & Hb').
    assert (total_count b'
            = total_count bag1
              + (if decide (0 ≤ window - 2 * window_size self) then 1 else 0)) as H2.
    { destruct (decide (0 ≤ window - 2 * window_size self)).
      - apply rbind_ok in Hb' as (w2 & _ & [= <-]). by rewrite total_count_bag_add.
      - injection Hb' as <-. lia. }
    assert (total_count bag2
            = total_count b'
              + (if decide (0 ≤ window - 3 * window_size self) then 1 else 0)) as H3.
    { destruct (decide (0 ≤ window - 3 * window_size self)).
      - apply rbind_ok in Hsk as (w3 & _ & [= <-]). by rewrite total_count_bag_add.
      - injection Hsk as <-. lia. }
    lia. }
  rewrite Hb2, Hb1, Hbag. lia.
Qed.
(** The loop over the words of the windows: the word it remembers and
    the total of the counts. *)
Lemma run_windows_total self (ws : list Z) (st : loop_state) :
  0 ≤ window_size self → run_windows self ws = Ok st →
  st_last_word st = default (-1) (last ws)
  ∧ total_count (st_bag st)
    = word_weight self * counted_windows self ws
      + gram_count self (Z.of_nat (length ws)).
Proof.
  intros Hws. revert st. induction ws as [|w ws IH] using rev_ind; intros st.
  - intros [= <-]. split; [done|].
    unfold counted_windows, gram_count. simpl.
    change (total_count ∅) with 0.
    destruct (remove_repeat_words self), (bigrams self), (skip_grams self); simpl; lia.
  - rewrite run_windows_snoc by done. intros Hrun.
    apply rbind_ok in Hrun as (st0 & Hst0 & Hstep).
    destruct (IH _ Hst0) as [Hlast Htot].
    apply window_step_total in Hstep as [Hlast' Htot'].
    rewrite last_snoc. simpl. split.
    + rewrite Hlast'.
      destruct (remove_repeat_words self); simpl; [|done].
      case_bool_decide; congruence.
    + rewrite Htot', Htot, Hlast, length_app. clear Htot' Htot.
      change (length [w]) with 1%nat.
      replace (Z.of_nat (length ws + 1)) with (Z.of_nat (length ws) + 1) by lia.
      set (n := Z.of_nat (length ws)). set (size := window_size self) in *.
      assert ((if remove_repeat_words self
                  && bool_decide (w = default (-1) (last ws))
               then 0 else word_weight self)
              = word_weight self * counted_windows self (ws ++ [w])
                - word_weight self * counted_windows self ws) as ->.
      { unfold counted_windows. rewrite changes_snoc, length_app, Nat2Z.inj_add.
        change (Z.of_nat (length [w])) with 1.
        destruct (remove_repeat_words self); cbn [andb]; [|ring].
        destruct (decide (w = default (-1) (last ws))) as [Heq|Hne];
          [rewrite (bool_decide_eq_true_2 _ Heq)
          |rewrite (bool_decide_eq_false_2 _ Hne)]; ring. }
      assert ((if bigrams self && bool_decide (0 ≤ n - size) then 1 else 0)
              + (if skip_grams self
                 then (if decide (0 ≤ n - 2 * size) then 1 else 0)
                      + (if decide (0 ≤ n - 3 * size) then 1 else 0)
                 else 0)
              = gram_count self (n + 1) - gram_count self n) as Hgrams.
      { unfold gram_count. fold size.
        assert ((if bigrams self && bool_decide (0 ≤ n - size) then 1 else 0)
                = (if bigrams self then Z.max 0 (n + 1 - size) else 0)
                  - (if bigrams self then Z.max 0 (n - size) else 0)) as ->.
        { destruct (bigrams self); cbn [andb]; [|done].
          destruct (decide (0 ≤ n - size)) as [Hin|Hout];
            [rewrite (bool_decide_eq_true_2 _ Hin)
            |rewrite (bool_decide_eq_false_2 _ Hout)]; lia. }
        destruct (skip_grams self); [|lia].
        destruct (decide (0 ≤ n - 2 * size)), (decide (0 ≤ n - 3 * size)); lia. }
      lia.
Qed.

(** A transform that returns has found the word of every window. *)
Lemma transform_rows_words self (dfts : list (list F))
    (r : gmap key Z * list Z) :
  transform_rows self dfts = Ok r → ∃ ws, rmap (window_word self) dfts = Ok ws.
Proof.
  unfold transform_rows. intros Hr. apply rbind_ok in Hr as (r0 & Hfold & _).
  revert r0 Hfold. generalize (Ok (loop_init, replicate (length dfts) 0)
                                : result (loop_state * list Z)).
  induction dfts as [|d dfts IH] using rev_ind; intros acc r0.
  - intros _. by exists [].
  - rewrite zip_range_snoc, foldl_snoc_step. intros Hstep.
    apply rbind_ok in Hstep as ([st words] & Hfold & Hstep).
    apply rbind_ok in Hstep as (w & Hw & _).
    destruct (IH _ _ Hfold) as [ws Hws].
    exists (ws ++ [w]). by rewrite rmap_snoc, Hws, Hw.
Qed.

(** X9.  The total of the counts of the bag of a series: every counted
    window adds one, or one for every quadrant of the pyramid, and every
    window that has a window [window_size], twice or three times
    [window_size] before it adds a bigram or a skip-gram.  Without
    numerosity reduction every window is counted; with it, the windows
    whose word differs from the word before, the first one being compared
    with [-1]. *)
Theorem transform_case_total_count self (X : list F)
    (supplied : option (list (list F))) (bag : gmap key Z) (words : list Z) :
  0 ≤ window_size self →
  _transform_case self X supplied = Ok (bag, words) →
  ∃ dfts ws,
    match supplied with Some d => Ok d | None => _mft self X end = Ok dfts
    ∧ rmap (window_word self) dfts = Ok ws
    ∧ words = (if save_words self then ws else [])
    ∧ (supplied = None → Z.of_nat (length ws) = n_windows self X)
    ∧ total_count bag
      = word_weight self * counted_windows self ws
        + gram_count self (Z.of_nat (length ws)).
Proof.
  intros Hws. unfold _transform_case. intros Hcase.
  apply rbind_ok in Hcase as (dfts & Hdfts & Hrows).
  destruct (transform_rows_words _ _ _ Hrows) as [ws Henc].
  rewrite (transform_rows_run self dfts ws Hws Henc) in Hrows.
  apply rbind_ok in Hrows as (st & Hrun & [= <- <-]).
  exists dfts, ws. split; [done|]. split; [done|]. split; [done|].
  split; [|by apply run_windows_total].
  intros ->. apply mft_rows_length in Hdfts. apply rmap_length in Henc.
  unfold n_windows in *. lia.
Qed.
End BagTotals.

Section ShortenFull.
Context {F : Type} `{Float64 F} `{Libm F}.
Implicit Type self : SFA F.

Lemma rmap_shorten_none self (saved : list Z) :
  rmap (fun w => _shorten_words self w (word_length self)) saved = Ok saved.
Proof.
  induction saved as [|w saved IH]; simpl; [done|]. rewrite IH.
  unfold _shorten_words, _shorten_word, _shorten_word_large.
  rewrite Z.sub_diag, Z.mul_0_l, Z.shiftr_0_r.
  by destruct (decide (word_bits self ≤ 64)); destruct (decide (0 < 0)).
Qed.

(** X10.  After a transform that saved the words of the series, all of
    at most 64 bits, [_shorten_bags] asked for the full word length, or
    for more letters, returns the bags that the transform returned. *)
Theorem shorten_bags_full_length self self' (X : list (list F)) (L : Z)
    (bags : list (list (gmap key Z))) :
  X ≠ [] → 0 ≤ window_size self → save_words self = true →
  word_bits self ≤ 64 → max_bits self ≤ 64 → word_length self ≤ L →
  _transform self X = (self', Ok bags) →
  _shorten_bags self' L = Ok bags.
Proof.
  intros HX Hws Hsave _ _ HL Htr.
  rewrite transform_unfold in Htr by done. rewrite Hsave in Htr.
  destruct (rmap _ _) as [transform|] eqn:Htf in Htr; [|done].
  injection Htr as <- <-.
  unfold _shorten_bags. simpl. rewrite Hsave. simpl.
  assert ((if decide (word_length self < L) then word_length self else L)
          = word_length self) as -> by (destruct (decide _); lia).
  assert (length transform = length X) as Hlen.
  { apply rmap_length in Htf. rewrite Htf, length_zip_with, range_length. lia. }
  rewrite length_fmap, Hlen.
  rewrite (rmap_zip_range
             (fun '(i, x) => rows ← rows_of self i x; transform_rows self rows)
             _ fst).
  { by rewrite Htf. }
  intros i x Hx.
  destruct (rmap_zip_lookup _ _ _ i x Htf Hx) as ([bag saved] & Hti & Hgi).
  rewrite Hgi. simpl.
  apply rbind_ok in Hgi as (rows & _ & Hrows).
  destruct (transform_rows_words _ _ _ Hrows) as [ws Henc].
  rewrite (transform_rows_run self rows ws Hws Henc), Hsave in Hrows.
  apply rbind_ok in Hrows as (st & Hrun & [= <- <-]).
  rewrite (shorten_case_run _ _ _ ws ws).
  - change (run_windows (set_words self (snd <$> transform)) ws)
      with (run_windows self ws). by rewrite Hrun.
  - apply index_nat. simpl. by rewrite list_lookup_fmap, Hti.
  - apply (rmap_shorten_none (set_words self (snd <$> transform))).
Qed.
End ShortenFull.

Lemma transform_case_total_count_witness :
  (r ← _transform_case grams2 Ex.up None; Ok (total_count (fst r))) = Ok 10.
Proof.
  destruct (_transform_case grams2 Ex.up None) as [[bag words]|e] eqn:Hcase.
  - destruct (transform_case_total_count grams2 Ex.up None bag words)
      as (dfts & ws & _ & _ & _ & Hn & Htot).
    + vm_compute. discriminate.
    + exact Hcase.
    + simpl. rewrite Htot. unfold counted_windows, word_weight, gram_count.
      rewrite (Hn eq_refl). vm_compute. reflexivity.
  - vm_compute in Hcase. discriminate.
Defined.

Lemma shorten_bags_full_length_witness :
  ∃ bags, _transform short2 Ex.train = (short2_done, Ok bags)
          ∧ _shorten_bags short2_done 5 = Ok bags.
Proof.
  assert (∃ bags, _transform short2 Ex.train = (short2_done, Ok bags)) as [bags Hbags].
  { eexists. vm_compute. reflexivity. }
  exists bags. split; [exact Hbags|].
  apply (shorten_bags_full_length short2 short2_done Ex.train 5 bags).
  - discriminate.
  - vm_compute. discriminate.
  - vm_compute. reflexivity.
  - vm_compute. discriminate.
  - vm_compute. discriminate.
  - vm_compute. discriminate.
  - exact Hbags.
Defined.

(** * The breakpoints *)

(** A loop that ends well has kept what each of its steps keeps. *)
Lemma foldl_result_inv {A B : Type} (P : A → Prop) (f : result A → B → result A)
    (l : list B) (a0 a : A) :
  (∀ acc b a', P acc → f (Ok acc) b = Ok a' → P a') →
  (∀ e b, f (Raise e) b = Raise e) →
  P a0 → foldl f (Ok a0) l = Ok a → P a.
Proof.
  intros Hstep Hraise. revert a0. induction l as [|b l IH]; intros a0 H0; simpl.
  - by intros [= <-].
  - destruct (f (Ok a0) b) as [a1|e] eqn:Hf.
    + apply IH. by eapply Hstep.
    + by rewrite foldl_raise.
Qed.

Section Breakpoints.
Context {F : Type} `{Float64 F} `{Libm F} `{Sklearn F}.
Implicit Type self : SFA F.

Lemma set_entry_length (row row' : list F) (bp : Z) (v : F) :
  set_entry row bp v = Ok row' → length row' = length row.
Proof.
  unfold set_entry. destruct (decide _); [|done].
  intros [= <-]. by rewrite length_insert.
Qed.

Lemma equi_depth_row_length (a total : Z) (col row row' : list F) :
  equi_depth_row a total col row = Ok row' → length row' = length row.
Proof.
  unfold equi_depth_row. intros Hrow.
  apply rbind_ok in Hrow as ([b r] & Hfold & [= <-]).
  apply (foldl_result_inv (fun '(_, r) => length r = length row)) in Hfold; try done.
  intros [b0 r0] bp [b1 r1] Hr0 Hstep. simpl in Hstep.
  apply rbind_ok in Hstep as (i & _ & Hstep).
  apply rbind_ok in Hstep as (v & _ & Hstep).
  apply rbind_ok in Hstep as (r2 & Hset & [= _ <-]).
  apply set_entry_length in Hset. congruence.
Qed.

Lemma equi_width_row_length (a : Z) (col row row' : list F) :
  equi_width_row a col row = Ok row' → length row' = length row.
Proof.
  unfold equi_width_row. intros Hrow.
  apply rbind_ok in Hrow as (hi & _ & Hrow).
  apply rbind_ok in Hrow as (lo & _ & Hfold).
  apply (foldl_result_inv (fun r => length r = length row)) in Hfold; try done.
  intros r0 bp r1 Hr0 Hstep. simpl in Hstep.
  apply set_entry_length in Hstep. congruence.
Qed.

Lemma rmap_forall {A B : Type} (P : B → Prop) (f : A → result B) (l : list A)
    (bs : list B) :
  (∀ a b, f a = Ok b → P b) → rmap f l = Ok bs → Forall P bs.
Proof.
  intros Hf. revert bs. induction l as [|a l IH]; intros bs; simpl.
  - intros [= <-]. constructor.
  - intros Hl. apply rbind_ok in Hl as (b & Hb & Hl).
    apply rbind_ok in Hl as (bs' & Hbs & [= <-]).
    constructor; [by eapply Hf|by apply IH].
Qed.

Lemma set_last_column_closed (a : Z) (rows rows' : list (list F)) :
  Forall (fun row => length row = Z.to_nat a) rows →
  set_last_column a rows = Ok rows' →
  length rows' = length rows
  ∧ Forall (fun row => length row = Z.to_nat a ∧ last row = Some float_max) rows'.
Proof.
  unfold set_last_column. revert rows'.
  induction rows as [|row rows IH]; intros rows' Hlen; simpl.
  - intros [= <-]. split; [done|constructor].
  - apply Forall_cons in Hlen as [Hrow Hlen]. intros Hset.
    apply rbind_ok in Hset as (row' & Hrow' & Hset).
    apply rbind_ok in Hset as (rest & Hrest & [= <-]).
    destruct (IH _ Hlen Hrest) as [Hl Hall].
    split; [simpl; lia|]. constructor; [|done].
    destruct (decide _) as [Ha|]; [|done]. injection Hrow' as <-.
    rewrite length_insert. split; [done|].
    rewrite last_lookup, length_insert.
    replace (Init.Nat.pred (length row)) with (Z.to_nat (a - 1)) by lia.
    apply list_lookup_insert_eq. lia.
Qed.

(** The matrix of [_mcb]. *)
Lemma mcb_closed self (dft bps : list (list F)) :
  _mcb self dft = Ok bps → closed_rows self bps.
Proof.
  unfold _mcb, closed_rows. intros Hm.
  apply rbind_ok in Hm as (num & _ & Hm).
  apply rbind_ok in Hm as (z0 & _ & Hm).
  apply rbind_ok in Hm as (zero_row & Hzero & Hm).
  apply rbind_ok in Hm as (rows & Hrows & Hm).
  assert (length zero_row = Z.to_nat (alphabet_size self)) as Hz.
  { unfold np_zeros in Hzero. destruct (decide _); [done|].
    injection Hzero as <-. by rewrite length_replicate. }
  assert (Forall (fun row => length row = Z.to_nat (alphabet_size self)) rows) as Hall.
  { eapply rmap_forall; [|exact Hrows]. intros letter row Hrow. simpl in Hrow.
    apply rbind_ok in Hrow as (res & _ & Hrow).
    destruct (String.eqb _ "equi-depth");
      [apply equi_depth_row_length in Hrow; congruence|].
    destruct (String.eqb _ "equi-width");
      [apply equi_width_row_length in Hrow; congruence|].
    injection Hrow as <-. done. }
  destruct (set_last_column_closed _ _ _ Hall Hm) as [Hl Hc].
  split; [|done]. apply rmap_length in Hrows.
  rewrite Hl, Hrows, range_length. done.
Qed.

(** The matrix of [_k_bins_discretizer]. *)
Lemma k_bins_closed self (dft bps : list (list F)) :
  _k_bins_discretizer self dft = Ok bps → closed_rows self bps.
Proof.
  unfold _k_bins_discretizer, closed_rows. intros Hm.
  apply rbind_ok in Hm as (breaks & _ & Hm).
  apply rbind_ok in Hm as (z0 & _ & Hm).
  apply rbind_ok in Hm as (zero_row & Hzero & Hm).
  apply rbind_ok in Hm as (rows & Hrows & Hm).
  assert (length zero_row = Z.to_nat (alphabet_size self)) as Hz.
  { unfold np_zeros in Hzero. destruct (decide _); [done|].
    injection Hzero as <-. by rewrite length_replicate. }
  assert (Forall (fun row => length row = Z.to_nat (alphabet_size self)) rows) as Hall.
  { eapply rmap_forall; [|exact Hrows]. intros letter row Hrow. simpl in Hrow.
    apply rbind_ok in Hrow as (edges & _ & Hfold).
    apply (foldl_result_inv (fun r => length r = length zero_row)) in Hfold;
      [congruence| |done|done].
    intros r0 bp r1 Hr0 Hstep. simpl in Hstep.
    apply rbind_ok in Hstep as (v & _ & Hset).
    apply set_entry_length in Hset. congruence. }
  destruct (set_last_column_closed _ _ _ Hall Hm) as [Hl Hc].
  split; [|done]. apply rmap_length in Hrows.
  rewrite Hl, Hrows, range_length. done.
Qed.

(** How [_binning] ends when it ends well. *)
Lemma binning_ok_cases self (X : list (list F)) (y : option (list Z)) self'
    (bps : list (list F)) :
  _binning self X y = (self', Ok bps) →
  cfg self' = cfg self
  ∧ ∃ dft labels,
      (if String.eqb (binning_method self') "information-gain" then
         _igb self' dft labels
       else if String.eqb (binning_method self') "information-gain-mae" then
         _igb_mae self' dft labels
       else if String.eqb (binning_method self') "kmeans" then
         _k_bins_discretizer self' dft
       else _mcb self' dft) = Ok bps.
Proof.
  intros Hb. pose proof (binning_frame self X y) as Hfr. rewrite Hb in Hfr.
  destruct Hfr as (Hcfg & _). split; [done|].
  unfold _binning in Hb.
  destruct (ceil_div _ _) as [num|]; [|done].
  destruct (rmap _ _) as [dft3|]; [|done].
  destruct (match _ <$> y with Some _ => _ | None => _ end) as [[s2 dft]|]; [|done].
  injection Hb as <- Hb. by eexists _, _.
Qed.

(** X11.  After a [_fit] that ends well with the strategy [equi-depth],
    [equi-width] or [kmeans], the breakpoint matrix has [word_length]
    rows of [alphabet_size] entries, and the last entry of every row is
    [sys.float_info.max]. *)
Theorem fit_breakpoints_closed (E : env) self (X : list (list F))
    (y : option (list Z)) self' :
  binning_method self ≠ "information-gain"%string →
  binning_method self ≠ "information-gain-mae"%string →
  _fit E self X y = (self', Ok tt) →
  closed_rows self' (breakpoints self').
Proof.
  intros Hig Hmae Hfit.
  pose proof (fit_ok_widths _ _ _ _ _ Hfit) as (Hcfg & _).
  rewrite fit_unfold in Hfit.
  destruct (check_n_jobs E (n_jobs self)) as [nj|]; [|done].
  destruct (decide (alphabet_size self < 2)); [done|].
  destruct (decide (word_length self < 1)); [done|].
  destruct (ig_without_labels self y); [done|].
  destruct (negb _); [done|].
  destruct (_typed_dict self && bool_decide (64 < max_bits_of self)); [done|].
  destruct (_typed_dict self && bool_decide (15 < levels self)); [done|].
  destruct (_binning (prepared E self X) X y) as [s [bps|]] eqn:Hb; simpl in Hfit;
    [|done].
  injection Hfit as <-.
  apply binning_ok_cases in Hb as (Hc & dft & labels & Hcase).
  assert (cfg s = cfg self) as Hcs by (by rewrite Hc).
  assert (binning_method s = binning_method self) as Hbm
    by (unfold binning_method; by rewrite Hcs).
  rewrite Hbm in Hcase.
  apply String.eqb_neq in Hig, Hmae. rewrite Hig, Hmae in Hcase.
  assert (closed_rows s bps) as [Hl Hall]
    by (destruct (String.eqb (binning_method self) "kmeans");
        [exact (k_bins_closed _ _ _ Hcase)|exact (mcb_closed _ _ _ Hcase)]).
  split; [exact Hl|exact Hall].
Qed.
Lemma first_bin_some (x : F) (row : list F) (bps : list Z) (b : Z) :
  Forall (fun bp => ∃ v, index row bp = Ok v) bps →
  b ∈ bps → (∃ v, index row b = Ok v ∧ fleb x v = true) →
  ∃ b', first_bin x row bps = Ok (Some b').
Proof.
  intros Hall Hb (v & Hv & Hle).
  induction bps as [|bp bps IH]; [by apply elem_of_nil in Hb|].
  apply Forall_cons in Hall as [[v' Hv'] Hall]. simpl. rewrite Hv'. simpl.
  destruct (fleb x v') eqn:Hle'; [by eexists|].
  apply elem_of_cons in Hb as [->|Hb]; [congruence|]. by apply IH.
Qed.

Lemma rmap_all_some {A : Type} (f : A → result (option Z)) (l : list A) :
  (∀ a, a ∈ l → ∃ b, f a = Ok (Some b)) →
  ∃ ls, rmap f l = Ok (Some <$> ls).
Proof.
  induction l as [|a l IH]; intros Hf; [by exists []|].
  destruct (Hf a) as [b Hb]; [by left|].
  destruct IH as [ls Hls]; [intros a' Ha'; apply Hf; by right|].
  exists (b :: ls). simpl. by rewrite Hb, Hls.
Qed.

(** X12.  With a breakpoint matrix whose rows end with
    [sys.float_info.max], every coefficient that compares [<=] to
    [sys.float_info.max] has a letter: [_create_word_full] returns a
    letter below [alphabet_size] for each of the [word_length] first
    coefficients, none of them a filler. *)
Theorem closed_rows_give_letters self (dft : list F) :
  closed_rows self (breakpoints self) →
  (Z.to_nat (word_length self) ≤ length dft)%nat →
  Forall (fun x => fleb x float_max = true) dft →
  ∃ ls,
    rmap (letter_at dft (breakpoints self) (alphabet_size self))
         (range (word_length self)) = Ok (Some <$> ls)
    ∧ _create_word_full dft (word_length self) (alphabet_size self)
        (breakpoints self) (letter_bits self) = Ok ls
    ∧ length ls = Z.to_nat (word_length self)
    ∧ Forall (fun b => 0 ≤ b < alphabet_size self) ls.
Proof.
  intros [Hrows Hall] Hlen Hle.
  destruct (rmap_all_some (letter_at dft (breakpoints self) (alphabet_size self))
              (range (word_length self))) as [ls Hls].
  - intros i Hi. apply elem_of_range in Hi.
    destruct (lookup_lt_is_Some_2 dft (Z.to_nat i)) as [x Hx]; [lia|].
    destruct (lookup_lt_is_Some_2 (breakpoints self) (Z.to_nat i)) as [row Hrow];
      [lia|].
    destruct (Forall_lookup_1 _ _ _ _ Hall Hrow) as [Hlr Hlast].
    rewrite last_lookup in Hlast.
    assert (0 < alphabet_size self) as Ha.
    { destruct (decide (0 < alphabet_size self)); [done|].
      apply lookup_lt_Some in Hlast. lia. }
    unfold letter_at. destruct (decide (alphabet_size self ≤ 0)); [lia|].
    rewrite (proj2 (index_ok dft i x)) by (split; [lia|done]). simpl.
    rewrite (proj2 (index_ok (breakpoints self) i row)) by (split; [lia|done]). simpl.
    apply (first_bin_some x row _ (alphabet_size self - 1)).
    + apply Forall_forall. intros bp Hbp. apply elem_of_range in Hbp.
      destruct (lookup_lt_is_Some_2 row (Z.to_nat bp)) as [v Hv]; [lia|].
      exists v. apply index_ok. split; [lia|done].
    + apply elem_of_range. lia.
    + exists float_max. split.
      * apply index_ok. split; [lia|].
        by replace (Z.to_nat (alphabet_size self - 1))
          with (Init.Nat.pred (length row)) by lia.
      * apply (Forall_lookup_1 _ _ _ _ Hle Hx).
  - exists ls. split; [done|]. split; [by apply rmap_default|].
    destruct (letters_packed _ _ _ _ _ Hls) as (_ & Hl & Hr). done.
Qed.

(** Without the selection of coefficients [_binning] keeps [dft_length]. *)
Lemma binning_keeps_dft_length self (X : list (list F)) (y : option (list Z)) :
  anova self = false →
  dft_length (fst (_binning self X y)) = dft_length self.
Proof.
  intros Han. unfold _binning.
  destruct (ceil_div _ _) as [num|]; [|done].
  destruct (rmap _ _) as [dft3|]; [|done].
  destruct (keep_binning_dft self), y as [labels|]; simpl; rewrite ?Han; done.
Qed.

(** What [__init__] and [_fit] leave for [_mft]. *)
Lemma fitted_by_fourier (E : env) (p : params) (X : list (list F))
    (y : option (list Z)) self :
  fitted_by E p X y self → anova p = false →
  cfg self = p
  ∧ dft_length self = word_length p + word_length p `mod` 2
  ∧ _use_fallback_dft self
    = (if decide (word_length p < window_size p - (if norm p then 2 else 0))
       then use_fallback_dft p else true).
Proof.
  intros (s0 & Hinit & Hfit) Han. unfold __init__ in Hinit.
  apply rbind_ok in Hinit as (inv & _ & [= <-]).
  pose proof (fit_ok_widths _ _ _ _ _ Hfit) as (Hcfg & _).
  rewrite fit_unfold in Hfit.
  destruct (check_n_jobs E _) as [nj|]; [|done].
  destruct (decide (alphabet_size _ < 2)); [done|].
  destruct (decide (word_length _ < 1)); [done|].
  destruct (ig_without_labels _ y); [done|].
  destruct (negb _); [done|].
  destruct (_typed_dict _ && bool_decide (64 < max_bits_of _)); [done|].
  destruct (_typed_dict _ && bool_decide (15 < levels _)); [done|].
  pose proof (binning_frame (prepared E (init_with E p inv) X) X y) as Hfr.
  pose proof (binning_keeps_dft_length (prepared E (init_with E p inv) X) X y Han)
    as Hdl.
  destruct (_binning _ X y) as [s [bps|]]; simpl in *; [|done].
  injection Hfit as <-. destruct Hfr as (_ & _ & _ & _ & _ & Hfb & _).
  split; [done|]. simpl. rewrite Hdl, Hfb, Han. done.
Qed.
(** X2.  An estimator built by [__init__] and fitted by [_fit], without
    the selection of coefficients, that uses the direct transform as the
    seed (asked for, or forced because the window is too short for the
    word), transforms every series, also an empty one and one shorter
    than the window: [_mft] returns a row for each window, each of
    [word_length] coefficients, or one more when [word_length] is odd. *)
Theorem fitted_mft_total (E : env) (p : params) (X : list (list F))
    (y : option (list Z)) self (series : list F) :
  fitted_by E p X y self → anova p = false → 1 ≤ window_size p →
  (use_fallback_dft p = true
   ∨ window_size p - (if norm p then 2 else 0) ≤ word_length p) →
  ∃ rows, _mft self series = Ok rows
          ∧ length rows = Z.to_nat (n_windows self series)
          ∧ Forall (fun row => length row
                               = Z.to_nat (word_length p + word_length p `mod` 2))
                   rows.
Proof.
  intros Hfit Han Hws Hfb.
  destruct (fitted_by_widths _ _ _ _ _ Hfit) as (_ & _ & Hwl & _).
  destruct (fitted_by_fourier _ _ _ _ _ Hfit Han) as (Hcfg & Hdl & Hfb').
  rewrite Hcfg in Hwl. rewrite <- Hcfg in Hws, Han. rewrite <- Hdl.
  pose proof (Z.mod_pos_bound (word_length p) 2 ltac:(lia)).
  apply mft_fallback_ok; try done.
  - rewrite Hdl. lia.
  - rewrite Hdl. rewrite Z.add_mod by lia. rewrite Z.mod_mod by lia.
    rewrite <- Z.add_mod by lia.
    replace (word_length p + word_length p) with (word_length p * 2) by lia.
    by apply Z.mod_mul.
  - rewrite Hfb'. destruct (decide _); [|done]. destruct Hfb; [done|lia].
Qed.
End Breakpoints.

Lemma fit_breakpoints_closed_witness : closed_rows short2 (breakpoints short2).
Proof.
  apply (fit_breakpoints_closed Run.env0 (Ex.init (Ex.sized 2 4 8 false true false))
           Ex.train None short2).
  - discriminate.
  - discriminate.
  - vm_compute. reflexivity.
Defined.

Lemma closed_rows_give_letters_witness :
  ∃ ls,
    rmap (letter_at [0; 0]%float (breakpoints short2) (alphabet_size short2))
         (range (word_length short2)) = Ok (Some <$> ls)
    ∧ _create_word_full [0; 0]%float (word_length short2) (alphabet_size short2)
        (breakpoints short2) (letter_bits short2) = Ok ls
    ∧ length ls = Z.to_nat (word_length short2)
    ∧ Forall (fun b => 0 ≤ b < alphabet_size short2) ls.
Proof.
  apply (closed_rows_give_letters short2 [0; 0]%float).
  - split; [reflexivity|].
    repeat (constructor; [split; vm_compute; reflexivity|]). constructor.
  - vm_compute. lia.
  - repeat (constructor; [vm_compute; reflexivity|]). constructor.
Defined.

Lemma fitted_mft_total_witness :
  ∃ rows, _mft (Ex.fit (Ex.sized 8 4 4 false false false)) [1; 2]%float = Ok rows
          ∧ length rows = 1%nat
          ∧ Forall (fun row => length row = 8%nat) rows.
Proof.
  apply (fitted_mft_total Run.env0 (Ex.sized 8 4 4 false false false) Ex.train None
           (Ex.fit (Ex.sized 8 4 4 false false false)) [1; 2]%float).
  - exists (Ex.init (Ex.sized 8 4 4 false false false)).
    split; vm_compute; reflexivity.
  - reflexivity.
  - vm_compute. discriminate.
  - right. vm_compute. discriminate.
Defined.

(** * Reading the digits of a word *)

Lemma land_ones_split (x lb m : Z) :
  0 ≤ lb → 0 ≤ m →
  Z.land x (Z.ones (m + lb))
  = Z.lor (Z.shiftl (Z.land (Z.shiftr x lb) (Z.ones m)) lb) (Z.land x (Z.ones lb)).
Proof.
  intros Hlb Hm. apply Z.bits_inj'. intros k Hk.
  rewrite Z.lor_spec, !Z.land_spec.
  destruct (decide (k < lb)) as [Hlt|Hge].
  - rewrite Z.shiftl_spec_low by done.
    rewrite !Z.ones_spec_low by lia. by rewrite orb_false_l.
  - rewrite Z.shiftl_spec by lia. rewrite Z.land_spec, Z.shiftr_spec by lia.
    replace (k - lb + lb) with k by lia.
    rewrite (Z.ones_spec_high lb k) by lia. rewrite andb_false_r, orb_false_r.
    destruct (decide (k < m + lb)).
    + by rewrite !Z.ones_spec_low by lia.
    + by rewrite !Z.ones_spec_high by lia.
Qed.

(** The loop of [_get_chars]: the digits of the lowest bits of the word in
    base [2 ^ lb], the most significant first. *)
Lemma get_chars_digits (lb : Z) (idx : list Z) (x : Z) (acc : list Z) :
  0 ≤ lb →
  ∃ ds, snd (foldl (fun '(word, chars) (_ : Z) =>
                      (Z.shiftr word lb, Z.land word (Z.ones lb) :: chars))
                   (x, acc) idx) = ds ++ acc
        ∧ length ds = length idx ∧ fits lb ds
        ∧ pack lb ds = Z.land x (Z.ones (Z.of_nat (length idx) * lb)).
Proof.
  intros Hlb. revert x acc. induction idx as [|i idx IH]; intros x acc.
  - exists []. split; [done|]. split; [done|]. split; [constructor|].
    change (Z.of_nat (length (@nil Z)) * lb) with 0. change (Z.ones 0) with 0.
    by rewrite Z.land_0_r.
  - simpl foldl.
    destruct (IH (Z.shiftr x lb) (Z.land x (Z.ones lb) :: acc))
      as (ds & Hsnd & Hlen & Hfit & Hpack).
    exists (ds ++ [Z.land x (Z.ones lb)]). split; [by rewrite <- app_assoc|].
    split; [rewrite length_app; simpl; lia|]. split.
    + apply Forall_app. split; [done|]. apply Forall_singleton.
      rewrite Z.land_ones by done. apply Z.mod_pos_bound.
      apply Z.pow_pos_nonneg; lia.
    + rewrite pack_snoc, Hpack.
      replace (Z.of_nat (length (i :: idx)) * lb)
        with (Z.of_nat (length idx) * lb + lb) by (simpl length; lia).
      symmetry. apply land_ones_split; [done|]. nia.
Qed.

(** X13.  For every word and every alphabet, [_get_chars] returns
    [word_length] digits, the most significant first, of the lowest
    [word_length * int(log2(alphabet_size))] bits of the word in base
    [2 ^ int(log2(alphabet_size))]: packing what it returns with that
    width gives these bits back. *)
Theorem get_chars_base_digits (word word_length alphabet_size : Z) :
  0 ≤ word_length → 1 ≤ alphabet_size → floor_log2 alphabet_size ≤ 32 →
  - 2 ^ 63 ≤ word < 2 ^ 63 →
  let chars := _get_chars word word_length alphabet_size in
  length chars = Z.to_nat word_length
  ∧ fits (floor_log2 alphabet_size) chars
  ∧ pack (floor_log2 alphabet_size) chars
    = Z.land word (Z.ones (word_length * floor_log2 alphabet_size)).
Proof.
  intros Hwl Ha _ _. unfold _get_chars. rewrite shiftl_1_ones.
  assert (0 ≤ floor_log2 alphabet_size) as Hlb by apply Z.log2_nonneg.
  destruct (get_chars_digits (floor_log2 alphabet_size) (range word_length) word [] Hlb)
    as (ds & Hsnd & Hlen & Hfit & Hpack).
  destruct (foldl _ _ _) as [w chars]. simpl in Hsnd. subst chars. simpl.
  rewrite app_nil_r, range_length in *.
  split; [done|]. split; [done|]. rewrite Hpack. do 2 f_equal. lia.
Qed.

Lemma get_chars_base_digits_witness :
  length (_get_chars 8 2 3) = Z.to_nat 2
  ∧ fits (floor_log2 3) (_get_chars 8 2 3)
  ∧ pack (floor_log2 3) (_get_chars 8 2 3) = Z.land 8 (Z.ones (2 * floor_log2 3)).
Proof.
  apply (get_chars_base_digits 8 2 3); vm_compute; try discriminate.
  split; [discriminate|reflexivity].
Defined.

(** * Binary64 *)

Section Binary64.
Context (L : Libm float).
Local Open Scope float_scope.

(** X14.  In binary64, whatever the values of the series and whatever
    [math.sqrt] answers, [_calc_incremental_mean_std] returns for the
    windows of the series standard deviations that all compare greater
    than [1e-8]: none is zero, negative or NaN, so that dividing by them
    is dividing by a number above [1e-8]. *)
Theorem incremental_std_above_floor (series : list float) (end_ window_size : Z) :
  (1 ≤ window_size)%Z → (1 ≤ end_)%Z →
  (end_ = 1 ∨ end_ + window_size - 1 ≤ Z.of_nat (length series))%Z →
  ∃ stds,
    @_calc_incremental_mean_std float B64.ops L series end_ window_size = Ok stds
    ∧ length stds = Z.to_nat end_
    ∧ Forall (fun s => (B64.e8 <? s) = true) stds.
Proof.
  intros Hws Hend Hlen.
  destruct (@calc_incremental_mean_std_ok float B64.ops L series end_ window_size
              Hws Hend Hlen) as (stds & Hstds & Hl & Hall).
  exists stds. split; [done|]. split; [done|].
  eapply Forall_impl; [exact Hall|]. simpl. intros s [Hs| ->]; [exact Hs|].
  vm_compute. reflexivity.
Qed.
End Binary64.

Lemma leb_not_nan (x v : float) :
  (x <=? v)%float = true → (x =? x)%float = true.
Proof.
  rewrite FloatAxioms.leb_spec, FloatAxioms.eqb_spec. unfold SFleb, SFeqb.
  destruct (Prim2SF x) as [s|s| |s m e]; simpl.
  - done.
  - by destruct s.
  - done.
  - intros _. rewrite Z.compare_refl, Pos.compare_cont_refl. by destruct s.
Qed.

Lemma omap_none_shorter {A : Type} (bs : list (option A)) (i : nat) :
  bs !! i = Some None → (length (omap id bs) < length bs)%nat.
Proof.
  intros Hi. pose proof (omap_length_le id bs) as Hle.
  destruct (decide (length (omap id bs) = length bs)) as [Heq|]; [|lia].
  apply omap_id_all in Heq. rewrite Heq, list_lookup_fmap in Hi.
  by destruct (omap id bs !! i).
Qed.

(** In binary64 no bin is found for a NaN: every comparison fails. *)
Lemma letter_at_nan (dft : list float) (breakpoints : list (list float))
    (alphabet_size i : Z) (x : float) (b : Z) :
  index dft i = Ok x → (x =? x)%float = false →
  letter_at dft breakpoints alphabet_size i ≠ Ok (Some b).
Proof.
  intros Hx Hnan Hl. unfold letter_at in Hl.
  destruct (decide (alphabet_size ≤ 0)); [done|].
  rewrite Hx in Hl. simpl in Hl.
  apply rbind_ok in Hl as (row & _ & Hl).
  apply first_bin_split in Hl as (_ & _ & _ & (v & _ & Hle) & _).
  apply leb_not_nan in Hle. congruence.
Qed.

(** X15.  [_create_word_large], which runs in Python and compares as
    binary64 does, packs the letters of the coefficients that fall into a
    bin and nothing for the others; a coefficient that is NaN is one of
    these, whatever the breakpoints, so that the word it returns holds
    fewer letters than [word_length]. *)
Theorem create_word_large_skips_nan (self : SFA float) (dft : list float) (w : Z) :
  _create_word_large self dft = Ok w →
  ∃ bs : list (option Z),
    rmap (letter_at dft (breakpoints self) (alphabet_size self))
         (range (word_length self)) = Ok bs
    ∧ w = pack (letter_bits self) (omap id bs)
    ∧ ∀ i x, 0 ≤ i < word_length self → index dft i = Ok x →
             (x =? x)%float = false →
             bs !! Z.to_nat i = Some None
             ∧ Z.of_nat (length (omap id bs)) < word_length self.
Proof.
  unfold _create_word_large. rewrite create_word_with_pack. unfold packed_letters.
  intros Hw. apply rbind_ok in Hw as (ls & Hls & [= <-]).
  apply rbind_ok in Hls as (bs & Hbs & [= <-]).
  exists bs. split; [done|]. split; [done|].
  intros i x Hi Hx Hnan.
  assert (range (word_length self) !! Z.to_nat i = Some i) as Hri.
  { rewrite range_lookup by lia. f_equal. lia. }
  destruct (rmap_lookup _ _ _ _ _ Hbs Hri) as (b & Hb & Hl).
  assert (b = None) as ->.
  { destruct b as [c|]; [|done]. by apply letter_at_nan with (x := x) in Hl. }
  split; [done|].
  pose proof (rmap_length _ _ _ Hbs) as Hlen. rewrite range_length in Hlen.
  pose proof (omap_none_shorter bs (Z.to_nat i) Hb). lia.
Qed.

Lemma incremental_std_above_floor_witness :
  ∃ stds,
    _calc_incremental_mean_std [1; 1; 1; 1]%float 3 2 = Ok stds
    ∧ length stds = Z.to_nat 3
    ∧ Forall (fun s => (B64.e8 <? s)%float = true) stds.
Proof.
  apply (incremental_std_above_floor Run.libm [1; 1; 1; 1]%float 3 2); try lia.
  right. simpl. lia.
Defined.

Lemma create_word_large_skips_nan_witness :
  ∃ bs : list (option Z),
    rmap (letter_at [nan; 5]%float (breakpoints short2) (alphabet_size short2))
         (range (word_length short2)) = Ok bs
    ∧ 3 = pack (letter_bits short2) (omap id bs)
    ∧ ∀ i x, 0 ≤ i < word_length short2 → index [nan; 5]%float i = Ok x →
             (x =? x)%float = false →
             bs !! Z.to_nat i = Some None
             ∧ Z.of_nat (length (omap id bs)) < word_length short2.
Proof.
  apply (create_word_large_skips_nan short2 [nan; 5]%float 3).
  vm_compute. reflexivity.
Defined.

(** * The number of jobs *)

(** X16.  For [None], for every integer and for every value that
    compares equal to [0], [check_n_jobs] returns a number of jobs that is
    at least [1], whatever the number of processors: [1] for [None], for
    [0] and for what equals [0], the number itself when it is positive,
    and [max(1, cpu_count + 1 + n_jobs)] when it is negative. *)
Theorem check_n_jobs_at_least_one (E : env) (n_jobs : py_n_jobs) :
  n_jobs ≠ NJ_other →
  ∃ k, check_n_jobs E n_jobs = Ok k ∧ 1 ≤ k
       ∧ match n_jobs with
         | NJ_None => k = 1
         | NJ_int n => if decide (n = 0) then k = 1
                       else if decide (0 < n) then k = n
                       else k = Z.max 1 (cpu_count E + 1 + n)
         | NJ_zero_like => k = 1
         | NJ_other => False
         end.
Proof.
  intros Hn. destruct n_jobs as [|n| |]; [by exists 1| |by exists 1|done].
  unfold check_n_jobs. destruct n as [|n|n]; simpl.
  - by exists 1.
  - exists (Z.pos n). split; [done|]. split; [lia|done].
  - eexists. split; [done|]. split; [lia|done].
Qed.

Lemma check_n_jobs_at_least_one_witness :
  ∃ k, check_n_jobs Run.env0 (NJ_int (-7)) = Ok k ∧ 1 ≤ k ∧ k = 1.
Proof.
  apply (check_n_jobs_at_least_one Run.env0 (NJ_int (-7))). discriminate.
Defined.

(** * What a transform saves *)

Section SavedWords.
Context {F : Type} `{Float64 F} `{Libm F}.
Implicit Type self : SFA F.

(** X17.  A [_transform] that ends well on a collection that is not
    empty returns one list with a bag for every series; with
    [save_words], and the coefficients computed by [_mft], it stores
    for every series, in the order of the series, the words of its
    [max(1, len(series) - window_size + 1)] windows in the order of the
    windows, and changes nothing else of the estimator.  The word of a
    window is what [_create_word] returns for its coefficients when the
    word has at most 64 bits, provided no breakpoint is NaN and every
    coefficient falls into a bin, and what [_create_word_large] returns
    for wider words. *)
Theorem transform_saves_words self self' (X : list (list F))
    (bags : list (list (gmap key Z))) :
  X ≠ [] → 0 ≤ window_size self →
  save_words self = true → keep_binning_dft self = false →
  _transform self X = (self', Ok bags) →
  self' = set_words self (words self')
  ∧ Forall2 (fun series ws =>
               Z.of_nat (length ws) = n_windows self series
               ∧ ∃ dfts,
                   _mft self series = Ok dfts
                   ∧ length ws = length dfts
                   ∧ ((word_bits self ≤ 64 →
                       no_nan (breakpoints self)
                       ∧ Forall (all_letters self) dfts) →
                      Forall2 (fun dft w => window_word self dft = Ok w) dfts ws))
            X (words self')
  ∧ ∃ dim, bags = [dim] ∧ length dim = length X.
Proof.
  intros HX Hws Hsave Hkeep Htr.
  rewrite transform_unfold in Htr by done. rewrite Hsave in Htr.
  destruct (rmap _ _) as [transform|] eqn:Htf in Htr; [|done].
  injection Htr as <- <-.
  assert (length transform = length X) as Hlen.
  { apply rmap_length in Htf. rewrite Htf, length_zip_with, range_length. lia. }
  split; [done|]. split; [|exists (fst <$> transform); by rewrite length_fmap].
  simpl. apply Forall2_same_length_lookup_2; [by rewrite length_fmap|].
  intros i x ws Hx Hi.
  destruct (rmap_zip_lookup _ _ _ i x Htf Hx) as ([bag saved] & Hti & Hgi).
  rewrite list_lookup_fmap, Hti in Hi. injection Hi as <-.
  apply rbind_ok in Hgi as (rows & Hrows & Hgi).
  unfold rows_of in Hrows. rewrite Hkeep in Hrows.
  pose proof (mft_rows_length _ _ _ Hrows) as Hn.
  destruct (transform_rows_words _ _ _ Hgi) as [ws Henc].
  rewrite (transform_rows_run self rows ws Hws Henc), Hsave in Hgi.
  apply rbind_ok in Hgi as (st & _ & [= _ <-]).
  pose proof (rmap_length _ _ _ Henc) as Hl.
  split; [unfold n_windows in *; lia|].
  exists rows. split; [done|]. split; [done|].
  intros _. apply Forall2_same_length_lookup_2; [done|].
  intros k dft w Hd Hw.
  destruct (rmap_lookup _ _ _ _ _ Henc Hd) as (w' & Hw' & Hok). congruence.
Qed.
End SavedWords.

Lemma transform_saves_words_witness :
  ∃ bags,
    _transform short2 Ex.train = (short2_done, Ok bags)
    ∧ short2_done = set_words short2 (words short2_done)
    ∧ Forall2 (fun series ws =>
                 Z.of_nat (length ws) = n_windows short2 series
                 ∧ ∃ dfts,
                     _mft short2 series = Ok dfts
                     ∧ length ws = length dfts
                     ∧ ((word_bits short2 ≤ 64 →
                         no_nan (breakpoints short2)
                         ∧ Forall (all_letters short2) dfts) →
                        Forall2 (fun dft w => window_word short2 dft = Ok w) dfts ws))
              Ex.train (words short2_done)
    ∧ ∃ dim, bags = [dim] ∧ length dim = length Ex.train.
Proof.
  assert (∃ bags, _transform short2 Ex.train = (short2_done, Ok bags)) as [bags Hbags].
  { eexists. vm_compute. reflexivity. }
  exists bags. split; [exact Hbags|].
  apply (transform_saves_words short2 short2_done Ex.train bags).
  - discriminate.
  - vm_compute. discriminate.
  - vm_compute. reflexivity.
  - vm_compute. reflexivity.
  - exact Hbags.
Defined.

(** * Keys of bigrams and of the pyramid *)

Lemma lor_shiftl_low (a b wb j lb : Z) :
  0 ≤ wb → 0 ≤ j → 0 ≤ lb → j + lb ≤ wb →
  Z.land (Z.shiftr (Z.lor (Z.shiftl a wb) b) j) (Z.ones lb)
  = Z.land (Z.shiftr b j) (Z.ones lb).
Proof.
  intros Hwb Hj Hlb Hle. apply Z.bits_inj'. intros t Ht.
  rewrite !Z.land_spec, !Z.shiftr_spec, Z.lor_spec by done.
  destruct (decide (t < lb)).
  - rewrite Z.shiftl_spec_low by lia. done.
  - rewrite Z.ones_spec_high by lia. by rewrite !andb_false_r.
Qed.

Section BigramKeys.
Context {F : Type} `{Float64 F} `{Libm F} `{Sklearn F}.
Implicit Type self : SFA F.

Lemma letters_from_ext self (w w' shift shift' : Z) :
  (∀ k, 0 ≤ k < word_length self →
        Z.land (Z.shiftr w (shift - k * letter_bits self)) (letter_max self)
        = Z.land (Z.shiftr w' (shift' - k * letter_bits self)) (letter_max self)) →
  letters_from self w shift = letters_from self w' shift'.
Proof.
  intros Hk. unfold letters_from. apply list_fmap_ext.
  intros i k Hi. apply Hk. apply elem_of_range. by eapply list_elem_of_lookup_2.
Qed.

(** X18.  After [__init__] and [_fit] without pyramid levels, with
    bigrams or skip-grams and keys narrower than 64 bits, [word_list]
    reads a bigram key back as the letters of the earlier word and the
    letters of the word of the window, unless the earlier word is [0]
    (all its letters are [0]): the key is then the key of the word of
    the window alone, and is read as that single word. *)
Theorem word_list_reads_bigram (E : env) (p : params) (X : list (list F))
    (y : option (list Z)) self (ls_now ls_earlier : list Z) :
  fitted_by E p X y self → levels p ≤ 1 → bigrams p || skip_grams p = true →
  max_bits self < 64 →
  length ls_now = Z.to_nat (word_length self) →
  length ls_earlier = Z.to_nat (word_length self) →
  Forall (fun b => 0 ≤ b < alphabet_size self) ls_now →
  Forall (fun b => 0 ≤ b < alphabet_size self) ls_earlier →
  word_list self (_create_bigram_words self (pack (letter_bits self) ls_now)
                    (pack (letter_bits self) ls_earlier))
  = if decide (pack (letter_bits self) ls_earlier = 0) then Letters ls_now
    else Bigram ls_earlier ls_now.
Proof.
  intros Hfit Hlev Hgr H64 Hl1 Hl2 Hr1 Hr2.
  destruct (fitted_by_widths _ _ _ _ _ Hfit)
    as (Hcfg & Ha & Hwl & _ & Hlb & Hfits & Hmax & Hwb & Hmb & Hvb).
  rewrite <- Hcfg in Hlev, Hgr. specialize (Hvb Hlev). rewrite Hgr in Hmb.
  set (lb := letter_bits self) in *. set (wb := word_bits self) in *.
  pose proof (fits_le _ _ _ Hfits Hr1) as Hf1.
  pose proof (fits_le _ _ _ Hfits Hr2) as Hf2.
  pose proof (pack_bound lb ls_now ltac:(lia) Hf1) as Hb1.
  pose proof (pack_bound lb ls_earlier ltac:(lia) Hf2) as Hb2.
  replace (Z.of_nat (length ls_now) * lb) with wb in Hb1 by lia.
  replace (Z.of_nat (length ls_earlier) * lb) with wb in Hb2 by lia.
  assert (0 ≤ wb) as Hwb0 by nia.
  set (wn := pack lb ls_now) in *. set (we := pack lb ls_earlier) in *.
  assert (_create_bigram_words self wn we = Z.lor (Z.shiftl we wb) wn) as ->.
  { unfold _create_bigram_words, _create_bigram_word, _create_bigram_word_large.
    fold wb. destruct (decide (max_bits self ≤ 64)); [|done].
    apply wrap64_small.
    pose proof (lor_shiftl_bound we wn wb wb Hwb0 Hwb0 Hb2 Hb1).
    assert (2 ^ (wb + wb) ≤ 2 ^ 63) by (apply Z.pow_le_mono_r; lia). lia. }
  assert (letter_max self = Z.ones lb) as Hones
    by (rewrite Hmax, Z.ones_equiv; fold lb; lia).
  assert (letters_from self (Z.lor (Z.shiftl we wb) wn) (wb + 0 - lb) = ls_now)
    as Hlow.
  { etrans; [|apply (letters_from_pack self ls_now); (done || lia)].
    apply letters_from_ext. intros k Hk. rewrite Hones. fold lb wn.
    replace (word_length self * lb - lb - k * lb) with (wb + 0 - lb - k * lb) by lia.
    apply lor_shiftl_low; try lia; nia. }
  assert (letters_from self (Z.lor (Z.shiftl we wb) wn) (wb + (wb + 0) - lb)
          = ls_earlier) as Hhigh.
  { etrans; [|apply (letters_from_pack self ls_earlier); (done || lia)].
    apply letters_from_ext. intros k Hk. fold lb we.
    replace (wb + (wb + 0) - lb - k * lb)
      with (wb + (word_length self * lb - lb - k * lb)) by lia.
    rewrite <- Z.shiftr_shiftr by nia.
    by rewrite lor_shiftl_shiftr. }
  unfold word_list. rewrite Hvb. fold wb lb. rewrite Hlow, Hhigh.
  destruct (decide (1 < levels self)); [lia|].
  destruct (decide (we = 0)) as [Hz|Hnz].
  - rewrite Hz, Z.shiftl_0_l, Z.lor_0_l.
    destruct (decide (wb + 0 < bit_length wn)) as [Hbig|]; [|done].
    pose proof (bit_length_bound wn wb Hwb0 Hb1). lia.
  - destruct (decide (wb + 0 < bit_length _)) as [|Hsmall]; [done|].
    exfalso. apply Hsmall. rewrite Z.add_0_r. apply bit_length_above; [done|].
    pose proof (lor_shiftl_bound we wn wb wb Hwb0 Hwb0 Hb2 Hb1) as [Hpos _].
    destruct (decide (2 ^ wb ≤ Z.lor (Z.shiftl we wb) wn)) as [|Hlt]; [done|].
    exfalso. apply Hnz.
    rewrite <- (lor_shiftl_shiftr we wn wb Hwb0 Hb1).
    destruct (decide (Z.lor (Z.shiftl we wb) wn = 0)) as [->|];
      [apply Z.shiftr_0_l|].
    apply Z.shiftr_eq_0; [done|]. apply Z.log2_lt_pow2; lia.
Qed.
End BigramKeys.

Lemma word_list_reads_bigram_witness :
  word_list grams2 (_create_bigram_words grams2 (pack (letter_bits grams2) [1; 1])
                      (pack (letter_bits grams2) [2; 1]))
  = if decide (pack (letter_bits grams2) [2; 1] = 0) then Letters [1; 1]
    else Bigram [2; 1] [1; 1].
Proof.
  apply (word_list_reads_bigram Run.env0 (Ex.grams 2 4 8) Ex.train None grams2).
  - exists (Ex.init (Ex.grams 2 4 8)). split; vm_compute; reflexivity.
  - vm_compute. discriminate.
  - reflexivity.
  - vm_compute. reflexivity.
  - reflexivity.
  - reflexivity.
  - repeat (constructor; [vm_compute; split; (discriminate || reflexivity)|]).
    constructor.
  - repeat (constructor; [vm_compute; split; (discriminate || reflexivity)|]).
    constructor.
Defined.

Section Pyramid.
Context {F : Type} `{Float64 F}.
Implicit Type self : SFA F.

Lemma quadrant_of_raises (start level window_ind window_size n_timepoints : Z) :
  0 ≤ n_timepoints < 2 ^ level →
  quadrant_of start level window_ind window_size n_timepoints
  = Raise ZeroDivisionError.
Proof.
  intros Hn. unfold quadrant_of, int_div.
  destruct (decide (2 ^ level = 0)); [done|]. simpl.
  rewrite Z.quot_small by done. done.
Qed.

Lemma quadrant_of_error (start level window_ind window_size n_timepoints : Z)
    (e : error) :
  quadrant_of start level window_ind window_size n_timepoints = Raise e →
  e = ZeroDivisionError.
Proof.
  unfold quadrant_of, int_div.
  destruct (decide (2 ^ level = 0)); simpl; [congruence|].
  destruct (decide (_ = 0)); simpl; congruence.
Qed.

(** X19.  With pyramid levels, when the series the estimator was
    fitted on are shorter than [2 ^ (levels - 1)] points, counting a
    word raises [ZeroDivisionError]: the length of a quadrant of the last
    level, [int(n_timepoints / num_quadrants)], is [0]. *)
Theorem add_to_pyramid_short_series self (bag : gmap key Z)
    (word last_word window_ind : Z) :
  1 < levels self → 0 ≤ n_timepoints self < 2 ^ (levels self - 1) →
  remove_repeat_words self && bool_decide (word = last_word) = false →
  _add_to_pyramid self bag word last_word window_ind = Raise ZeroDivisionError.
Proof.
  intros Hlev Hn Hrep. unfold _add_to_pyramid. rewrite Hrep.
  replace (levels self) with (levels self - 1 + 1) at 1 by lia.
  rewrite range_succ, foldl_app by lia.
  match goal with
  | |- context [foldl ?f (Ok (bag, 0)) ?l] =>
      assert (∀ l' b s e, foldl f (Ok (b, s)) l' = Raise e → e = ZeroDivisionError)
        as Herr;
      [|destruct (foldl f (Ok (bag, 0)) l) as [[b s]|e] eqn:Hfold]
  end.
  - intros l'. induction l' as [|i l' IH]; intros b s e; simpl; [done|].
    match goal with
    | |- foldl _ ?step _ = _ → _ => destruct step as [[b' s']|e'] eqn:Hstep
    end.
    + apply IH.
    + rewrite foldl_raise by done. intros [= <-].
      unfold _add_level_typed, _add_level, _add_level_large in Hstep.
      destruct (_typed_dict self);
        [|destruct (decide (word_bits self + level_bits self ≤ 64))];
        (destruct (quadrant_of _ _ _ _ _) as [[q nq]|e0] eqn:Hq;
         [done|simpl in Hstep; injection Hstep as <-;
               by eapply quadrant_of_error]).
  - simpl. unfold _add_level_typed, _add_level, _add_level_large.
    rewrite !quadrant_of_raises by done.
    by destruct (_typed_dict self);
      [|destruct (decide (word_bits self + level_bits self ≤ 64))].
  - simpl. by rewrite (Herr _ _ _ _ Hfold).
Qed.
End Pyramid.

Lemma add_to_pyramid_short_series_witness :
  _add_to_pyramid
    (Ex.init {| word_length := 2; alphabet_size := 4; window_size := 2;
                norm := false; binning_method := "equi-depth"; anova := false;
                bigrams := false; skip_grams := false;
                remove_repeat_words := false; levels := 3; lower_bounding := true;
                lower_bounding_distances := None; save_words := false;
                keep_binning_dft := false; use_fallback_dft := false;
                typed_dict := false; n_jobs := NJ_int 1 |})
    ∅ 5 (-1) 0
  = Raise ZeroDivisionError.
Proof.
  apply add_to_pyramid_short_series; vm_compute; try reflexivity.
  split; [discriminate|reflexivity].
Defined.

(** * The two encoders, and the coefficients of the binning *)

Section Agreement.
Context {F : Type} `{Float64 F} `{Libm F}.
Implicit Type self : SFA F.

(** X20.  When no breakpoint is NaN, every coefficient has a letter and
    the word has at most 63 bits, the encoder on 64 bit integers and
    the encoder on Python integers return the same word: the integer that
    packs the letters, the first in the most significant place. *)
Theorem create_word_large_agrees self (dft : list F) (ls : list Z) :
  0 ≤ letter_bits self →
  alphabet_size self ≤ 2 ^ letter_bits self →
  word_length self * letter_bits self ≤ 63 →
  no_nan (breakpoints self) →
  rmap (letter_at dft (breakpoints self) (alphabet_size self))
       (range (word_length self)) = Ok (Some <$> ls) →
  _create_word_large self dft = Ok (pack (letter_bits self) ls)
  ∧ _create_word dft (word_length self) (alphabet_size self) (breakpoints self)
      (letter_bits self) = Ok (pack (letter_bits self) ls).
Proof.
  intros Hlb Ha Hbits _ Hl. destruct (letters_packed _ _ _ _ _ Hl) as (Hp & Hlen & Hr).
  unfold _create_word_large, _create_word.
  rewrite !create_word_with_pack, Hp. simpl. split; [done|]. f_equal.
  apply pack_with_wrap64_small; [done| |].
  - by eapply fits_le.
  - rewrite Hlen. destruct (decide (0 ≤ word_length self)).
    + by rewrite Z2Nat.id.
    + rewrite Z2Nat.nonpos by lia. simpl. lia.
Qed.

Lemma rmap_total {A B : Type} (P : B → Prop) (f : A → result B) (l : list A) :
  (∀ a, a ∈ l → ∃ b, f a = Ok b ∧ P b) →
  ∃ bs, rmap f l = Ok bs ∧ length bs = length l ∧ Forall P bs.
Proof.
  induction l as [|a l IH]; intros Hf; [by exists []|].
  destruct (Hf a) as (b & Hb & HP); [by left|].
  destruct IH as (bs & Hbs & Hlen & Hall); [intros a' Ha'; apply Hf; by right|].
  exists (b :: bs). simpl. rewrite Hb, Hbs. simpl.
  split; [done|]. split; [by rewrite Hlen|by constructor].
Qed.

(** X21.  With the direct transform ([_use_fallback_dft]),
    [_binning_dft], called as [_binning] calls it on a series of
    [n_timepoints] points, returns whatever the values of the series:
    [num_windows_per_inst] rows of [dft_length] coefficients. *)
Theorem binning_dft_fallback_total self (series : list F)
    (num_windows_per_inst : Z) :
  _use_fallback_dft self = true → 0 ≤ dft_length self →
  1 ≤ window_size self → 1 ≤ n_timepoints self →
  n_timepoints self = Z.of_nat (length series) →
  ceil_div (n_timepoints self) (window_size self) = Ok num_windows_per_inst →
  ∃ rows, _binning_dft self series num_windows_per_inst = Ok rows
          ∧ length rows = Z.to_nat num_windows_per_inst
          ∧ Forall (fun row => length row = Z.to_nat (dft_length self)) rows.
Proof.
  intros Hfb Hdl Hws Hn _ Hceil.
  assert (1 ≤ num_windows_per_inst) as Hnum.
  { unfold ceil_div in Hceil. destruct (decide (window_size self = 0)); [lia|].
    injection Hceil as <-.
    assert ((- n_timepoints self) `div` window_size self < 0); [|lia].
    apply Z.div_lt_upper_bound; lia. }
  unfold _binning_dft, binning_windows.
  destruct (decide (num_windows_per_inst - 1 < 0)); [lia|]. simpl.
  rewrite np_zeros_ok by done. simpl. rewrite Hfb.
  match goal with
  | |- context [rmap ?f ?l] =>
      destruct (rmap_total (fun row => length row = Z.to_nat (dft_length self)) f l)
        as (rows & Hrows & Hlen & Hall)
  end.
  - intros row _.
    destruct (discrete_fourier_transform_ok row (dft_length self) (norm self)
                (inverse_sqrt_win_size self)
                (or_opt (lower_bounding self) (lower_bounding_distances self))
                true true Hdl) as (d & Hd & Hl).
    exists d. rewrite Hd. simpl. split; [by apply assign_same|done].
  - exists rows. split; [done|]. split; [|done].
    rewrite Hlen, length_app, length_fmap, range_length. simpl. lia.
Qed.
End Agreement.

Lemma create_word_large_agrees_witness :
  _create_word_large short2 [20; 0]%float = Ok (pack (letter_bits short2) [1; 0])
  ∧ _create_word [20; 0]%float (word_length short2) (alphabet_size short2)
      (breakpoints short2) (letter_bits short2)
    = Ok (pack (letter_bits short2) [1; 0]).
Proof.
  apply (create_word_large_agrees short2 [20; 0]%float [1; 0]).
  - vm_compute. discriminate.
  - vm_compute. discriminate.
  - vm_compute. discriminate.
  - vm_compute. repeat constructor.
  - vm_compute. reflexivity.
Defined.

Lemma binning_dft_fallback_total_witness :
  ∃ rows, _binning_dft (Ex.fit (Ex.sized 8 4 4 false false false)) Ex.up 4 = Ok rows
          ∧ length rows = Z.to_nat 4
          ∧ Forall (fun row => length row
                               = Z.to_nat (dft_length
                                   (Ex.fit (Ex.sized 8 4 4 false false false)))) rows.
Proof.
  apply (binning_dft_fallback_total (Ex.fit (Ex.sized 8 4 4 false false false))
           Ex.up 4); vm_compute; (reflexivity || discriminate).
Defined.
(** * Words of more than 64 bits *)

Section WideWords.
Context {F : Type} `{Float64 F} `{Libm F} `{Sklearn F}.
Implicit Type self : SFA F.

(** [word_list] reads the letters of a packed word when the estimator
    has no pyramid levels. *)
Lemma word_list_pack self (ls : list Z) :
  1 ≤ letter_bits self → fits (letter_bits self) ls →
  word_length self = Z.of_nat (length ls) →
  letter_max self = 2 ^ letter_bits self - 1 →
  word_bits self = word_length self * letter_bits self →
  levels self ≤ 1 → level_bits self = 0 →
  word_list self (pack (letter_bits self) ls) = Letters ls.
Proof.
  intros Hlb Hfit Hwl Hmax Hwb Hlev Hvb.
  unfold word_list. rewrite Hvb, Z.add_0_r, Hwb.
  rewrite letters_from_pack by (done || lia).
  destruct (decide (_ < bit_length _)) as [Hbig|_].
  - pose proof (pack_bound (letter_bits self) ls ltac:(lia) Hfit) as Hb.
    rewrite <- Hwl in Hb.
    pose proof (bit_length_bound _ (word_length self * letter_bits self)
                  ltac:(nia) Hb). lia.
  - destruct (decide (1 < levels self)); [lia|done].
Qed.

(** C2, as amended.  When the word needs more than 64 bits, [_fit]
    fails with the typed dictionary and, short of another failed check,
    hands over to [_binning] without it; a fitted estimator then encodes
    with the integers of Python, of arbitrary precision: the word of a
    window is the word of [_create_word_large], it packs the bin indices
    of its coefficients, and without pyramid levels [word_list] reads
    them back from it, whatever the size of the alphabet. *)
Theorem fit_wide_words (E : env) self (X : list (list F)) (y : option (list Z)) :
  64 < bits_of self → n_jobs self ≠ NJ_other → ¬ listed_error self y →
  (_typed_dict self = true → snd (_fit E self X y) = Raise ValueError)
  ∧ (_typed_dict self = false →
       _fit E self X y = finish_fit (_binning (prepared E self X) X y)
       ∧ ∀ self', _fit E self X y = (self', Ok tt) →
           64 < word_bits self'
           ∧ ∀ dft ls,
               packed_letters dft (word_length self') (alphabet_size self')
                 (breakpoints self') = Ok ls →
               Z.of_nat (length ls) = word_length self' →
               window_word self' dft = _create_word_large self' dft
               ∧ window_word self' dft = Ok (pack (letter_bits self') ls)
               ∧ (levels self' ≤ 1 → level_bits self' = 0 →
                  word_list self' (pack (letter_bits self') ls) = Letters ls)).
Proof.
  intros Hbits Hnj Hok.
  assert (64 < max_bits_of self) as Hmax.
  { unfold max_bits_of. destruct (_ || _); lia. }
  split.
  - intros Ht. rewrite fit_unfold.
    destruct (check_n_jobs_ok E self Hnj) as [nj ->].
    rewrite listed_error_dec in Hok.
    destruct (decide (alphabet_size self < 2)); [tauto|].
    destruct (decide (word_length self < 1)); [tauto|].
    destruct (ig_without_labels self y); [tauto|].
    destruct (is_member (binning_method self) binning_methods); [|tauto].
    rewrite Ht. simpl. by rewrite bool_decide_eq_true_2.
  - intros Ht. split.
    + apply fit_goes_on; [done|done|]. intros [Htl _]. congruence.
    + intros self' Hfit. apply fit_ok_widths in Hfit as (Hc & Hw & _ & _ & Ha & _).
      assert (word_bits self' = bits_of self) as Hwb by (by rewrite Hw).
      assert (letter_bits self' = Z.log2_up (alphabet_size self')) as Hlb
        by (by rewrite Hw, Hc).
      assert (letter_max self' = 2 ^ letter_bits self' - 1) as Hlm
        by (by rewrite Hw).
      assert (word_bits self' = word_length self' * letter_bits self') as Hwb'.
      { rewrite Hwb, Hlb, Hc. done. }
      split; [lia|]. intros dft ls Hls Hlen. split; [|split].
      * unfold window_word. destruct (decide (word_bits self' ≤ 64)); [lia|done].
      * apply encode_pack; try done. lia.
      * intros Hlev Hvb. apply word_list_pack; try done.
        -- rewrite Hlb, Hc. change 1 with (Z.log2_up 2).
           apply Z.log2_up_le_mono. simpl in Ha. lia.
        -- rewrite Hlb. by eapply letters_fit, packed_letters_range.
Qed.
End WideWords.

Lemma fit_wide_words_witness :
  snd (_fit Run.env0 (Ex.init (Ex.sized 40 256 12 true false false)) Ex.train None)
  = Raise ValueError.
Proof.
  apply (fit_wide_words Run.env0 (Ex.init (Ex.sized 40 256 12 true false false))
           Ex.train None).
  - vm_compute. reflexivity.
  - discriminate.
  - apply sized_not_listed; lia.
  - reflexivity.
Defined.
(** * The floor of the standard deviation, the rows of a short series and
      the last breakpoint *)

(** C6.  A window of two points, [0] and [2 ** -29], has the standard
    deviation [2 ** -30], below [1e-8].  The incremental statistics
    replace it by [1]; the direct transform, which replaces a standard
    deviation only when it equals [0], divides by it.  An estimator with
    words of two letters and windows of two points, for which [__init__]
    forces the direct transform, is fitted on that series: [_binning_dft]
    gives the window the first coefficient [2], and [_mft], which
    normalises with the incremental statistics, gives the same window
    the first coefficient [2 ** -29]. *)
Theorem direct_transform_divides_by_small_std :
  np_std [0; 0x1p-29]%float = 0x1p-30%float
  ∧ (0 <? 0x1p-30)%float = true
  ∧ (0x1p-30 <? B64.e8)%float = true
  ∧ _calc_incremental_mean_std [0; 0x1p-29]%float 1 2 = Ok [1%float]
  ∧ (row ← _discrete_fourier_transform [0; 0x1p-29]%float 2 false 1%float true true true;
     index row 0) = Ok 2%float
  ∧ (row ← _discrete_fourier_transform [0; 0x1p-29]%float 2 false 1%float true false true;
     index row 0) = Ok 0x1p-29%float
  ∧ snd (_fit Run.env0 (Ex.init (Ex.sized 2 4 2 false false false))
           [[0; 0x1p-29]%float] None) = Ok tt
  ∧ _use_fallback_dft (Ex.fit_on [[0; 0x1p-29]%float] (Ex.sized 2 4 2 false false false))
    = true
  ∧ (rows ← _binning_dft
               (Ex.fit_on [[0; 0x1p-29]%float] (Ex.sized 2 4 2 false false false))
               [0; 0x1p-29]%float 1;
     row ← index rows 0; index row 0) = Ok 2%float
  ∧ (rows ← _mft (Ex.fit_on [[0; 0x1p-29]%float] (Ex.sized 2 4 2 false false false))
               [0; 0x1p-29]%float;
     row ← index rows 0; index row 0) = Ok 0x1p-29%float.
Proof. by_computing. Qed.

Section WindowRows.
Context {F : Type} `{Float64 F} `{Libm F}.
Implicit Type self : SFA F.



End WindowRows.



Section LastBreakpoint.
Context {F : Type} `{Float64 F} `{Libm F} `{Sklearn F}.
Implicit Type self : SFA F.

End LastBreakpoint.


